(** * Crate.ts: an observable state container, embedded in Rocq

    The development follows [src/index.ts].  A crate owns a record (a Luau
    table, since the TypeScript is compiled by roblox-ts), a baseline copy of
    it, one middleware per key, a set of locked keys and a list of change
    subscriptions.

    Tables are objects with identity: [Get(k)] hands out the live value,
    [===] compares tables by reference and [DeepCopy] allocates.  The model
    therefore has an explicit heap of tables; a table value is an address.
    Numbers are doubles, added and compared as doubles.

    Middleware and subscribers are code of the caller.  A middleware is
    modelled by the value it returns, a subscriber by the record of its
    calls: neither calls back into the crate. *)

From stdpp Require Import gmap strings list fin_maps.
From Stdlib Require Import ZArith SpecFloat.

(** ** Values, tables and the heap *)

(** Keys of a table: field names of a record, indices of an array. *)
Inductive key :=
  | KStr (s : string)
  | KNum (n : Z).

#[global] Instance Key_eq_dec : EqDecision key.
Proof. solve_decision. Defined.

#[global] Instance Key_countable : Countable key.
Proof.
  refine (inj_countable'
            (λ k, match k with KStr s => inl s | KNum n => inr n end)
            (λ x, match x with inl s => KStr s | inr n => KNum n end) _).
  by intros [].
Defined.

Abbreviation addr := nat.

(** A Luau number is an IEEE 754 double: a zero or an infinity of either
    sign, [nan], or a sign, a mantissa and an exponent.  The operations are
    those of the standard library's specification of binary64 (53 bits of
    mantissa, infinities at exponent 1024), with rounding to nearest, ties to
    even.  Every double is a [spec_float]; what is proved of all
    [spec_float]s holds of the doubles among them. *)
Definition number := spec_float.

Bind Scope Z_scope with number.

(** The double nearest to an integer: how a numeric literal reads. *)
Definition num (z : Z) : number := binary_normalize 53 1024 z 0 false.

Coercion num : Z >-> number.

(** [x + y], [x == y] and [x < y] on numbers. *)
Definition num_add (x y : number) : number := SFadd 53 1024 x y.

Definition num_eqb (x y : number) : bool := SFeqb x y.

Definition num_ltb (x y : number) : bool := SFltb x y.

(** [x / y], for the literals that are no integers. *)
Definition num_div (x y : number) : number := SFdiv 53 1024 x y.

#[global] Instance number_eq_dec : EqDecision number.
Proof. unfold number. solve_decision. Defined.

(** [VNil] is Luau's [nil] (TypeScript's [undefined]). *)
Inductive value :=
  | VNil
  | VBool (b : bool)
  | VNum (n : number)
  | VStr (s : string)
  | VTable (a : addr).

#[global] Instance Value_eq_dec : EqDecision value.
Proof. solve_decision. Defined.

(** [a === b], which roblox-ts compiles to Luau's [a == b]: two numbers are
    compared as doubles ([nan] differs from itself, the two zeros are equal),
    anything else by value, a table being its address. *)
Definition raw_equal (a b : value) : bool :=
  match a, b with
  | VNum x, VNum y => num_eqb x y
  | _, _ => bool_decide (a = b)
  end.

(** [typeIs(v, "table")] and [typeIs(v, "number")]. *)
Definition is_table (v : value) : bool :=
  match v with VTable _ => true | _ => false end.

Definition is_number (v : value) : bool :=
  match v with VNum _ => true | _ => false end.

(** [t[k]]: a missing field reads as [nil]. *)
Definition tget (t : gmap key value) (k : key) : value :=
  default VNil (t !! k).

(** [t[k] = v]: assigning [nil] removes the field. *)
Definition tset (t : gmap key value) (k : key) (v : value) : gmap key value :=
  if decide (v = VNil) then delete k t else <[k := v]> t.

(** The heap is the list of all tables allocated so far; a new table gets the
    next index. *)
Abbreviation Heap := (list (gmap key value)).

Definition heap_index (h : Heap) (a : addr) (k : key) : option value :=
  match h !! a with
  | Some t => Some (tget t k)
  | None => None
  end.

Definition heap_assign (h : Heap) (a : addr) (k : key) (v : value) : option Heap :=
  match h !! a with
  | Some t => Some (<[a := tset t k v]> h)
  | None => None
  end.

(** The heap once [a[k] = v] is done. *)
Definition assigned (h : Heap) (a : addr) (k : key) (v : value) : Heap :=
  match heap_assign h a k v with
  | Some h' => h'
  | None => h
  end.

(** [pairs(t)]: the entries of a table, in the map's enumeration order. *)
Definition heap_pairs (h : Heap) (a : addr) : option (list (key * value)) :=
  match h !! a with
  | Some t => Some (map_to_list t)
  | None => None
  end.

(** ** DeepCopy

<<
const DeepCopy = (Object) => {
  const Copy = {};
  for (const [Key, Val] of pairs(Object)) {
    if (typeIs(Val, "table")) Copy[Key] = DeepCopy(Val);
    else                      Copy[Key] = Val;
  }
  return Copy;
};
>>
    The recursion follows the nesting of the data, which is not bounded by the
    type: on a cyclic table the source never returns.  The model recurses on
    a fuel and answers [None] when it runs out; [Object] is only read, so its
    entries are taken once. *)

Fixpoint copy_entries (rec : Heap → addr → option (Heap * addr)) (Copy : addr)
    (entries : list (key * value)) (h : Heap) : option Heap :=
  match entries with
  | [] => Some h
  | (Key, Val) :: rest =>
      match Val with
      | VTable b =>
          match rec h b with
          | Some (h1, c) =>
              match heap_assign h1 Copy Key (VTable c) with
              | Some h2 => copy_entries rec Copy rest h2
              | None => None
              end
          | None => None
          end
      | _ =>
          match heap_assign h Copy Key Val with
          | Some h1 => copy_entries rec Copy rest h1
          | None => None
          end
      end
  end.

Fixpoint DeepCopy (fuel : nat) (h : Heap) (Object : addr) : option (Heap * addr) :=
  match fuel with
  | O => None
  | S fuel' =>
      match heap_pairs h Object with
      | Some entries =>
          let Copy := length h in
          match copy_entries (DeepCopy fuel') Copy entries (h ++ [∅]) with
          | Some h' => Some (h', Copy)
          | None => None
          end
      | None => None
      end
  end.

(** ** Structure of a value, independent of addresses

    [reify n h v] is the nested structure that [v] denotes in [h], read to
    depth [n]; [TCut] marks a table that lies deeper or does not exist. Two
    values are structurally equal when they reify to the same tree. *)

#[warnings="-register-all"]
Inductive Tree :=
  | TVal (v : value)
  | TRec (fields : gmap key Tree)
  | TCut.

Fixpoint reify (n : nat) (h : Heap) (v : value) : Tree :=
  match v with
  | VTable a =>
      match n with
      | O => TCut
      | S n' =>
          match h !! a with
          | Some t => TRec (reify n' h <$> t)
          | None => TCut
          end
      end
  | _ => TVal v
  end.

(** A well-formed table of depth at most [n]: it is allocated, holds no
    [nil] (a Luau table never does) and its sub-tables are well formed one
    level down. *)
Fixpoint wf (n : nat) (h : Heap) (a : addr) : Prop :=
  match n with
  | O => False
  | S n' =>
      ∃ t, h !! a = Some t ∧
           map_Forall (λ _ v, v ≠ VNil ∧
                              match v with VTable b => wf n' h b | _ => True end) t
  end.

(** [reach h a b]: table [b] is [a] or is nested, at any depth, inside [a]. *)
Inductive reach (h : Heap) : addr → addr → Prop :=
  | reach_refl a : reach h a a
  | reach_step a t k b c :
      h !! a = Some t → t !! k = Some (VTable b) → reach h b c → reach h a c.

(** ** The crate and what it can be observed to do *)

(** A middleware is a function of the candidate and the current value. The
    boolean says whether the call took longer than the 0.2 s that
    [ExecuteMiddleware] measures with [tick()]; without a middleware nothing
    runs between the two readings of the clock. *)
Definition MiddlewareType := value → value → value * bool.

(** [OnChange(Key, Callback)] or [OnChange(Callback)]. *)
Inductive Subscription :=
  | Scoped (Key : key)
  | Global.

(** An [RBXScriptConnection]: the subscription and whether it is still
    connected. *)
Record Connection := mkConnection {
  Sub : Subscription;
  Connected : bool;
}.

Record Crate := mkCrate {
  State : addr;
  Connections : list Connection;
  InitialState : addr;
  MiddlewareMap : gmap key MiddlewareType;
  LockedKeys : gset key;
  IsVerbose : bool;
}.

(** The three messages the class passes to [Log]. *)
Inductive LogMsg :=
  | MsgLocked (Key : key) (Value : value)
      (* Attepted to set (Key => Value), but the key is locked. *)
  | MsgNotNumber (Key : key)
      (* WARN: Attempt to increment 'Key', a non-integer value. *)
  | MsgYield.
      (* WARN: Yeilding is prohibited within middleware ... *)

(** What leaves the crate: a line given to [warn] (with or without the
    [[VRB]] prefix), a call of [UpdateBind.Fire], and a call of a subscriber's
    callback, identified by the position of its connection. *)
Inductive Event :=
  | EvWarn (vrb : bool) (msg : LogMsg)
  | EvFire (K : key) (O N : value)
  | EvCall (conn : nat) (New Old : value).

#[global] Instance LogMsg_eq_dec : EqDecision LogMsg.
Proof. solve_decision. Defined.

#[global] Instance Event_eq_dec : EqDecision Event.
Proof. solve_decision. Defined.

Definition is_warn (e : Event) : bool :=
  match e with EvWarn _ _ => true | _ => false end.

Definition is_fire (e : Event) : bool :=
  match e with EvFire _ _ _ => true | _ => false end.

Definition is_call_of (i : nat) (e : Event) : bool :=
  match e with EvCall j _ _ => bool_decide (j = i) | _ => false end.

(** The notifications, the log lines and the calls of one connection in a
    trace. *)
Definition fires (tr : list Event) : list Event :=
  filter (λ e, is_fire e = true) tr.

Definition warnings (tr : list Event) : list Event :=
  filter (λ e, is_warn e = true) tr.

Definition calls_of (i : nat) (tr : list Event) : list Event :=
  filter (λ e, is_call_of i e = true) tr.

(** The crate, the heap it lives in and the events so far. *)
Record Sys := mkSys {
  this : Crate;
  heap : Heap;
  trace : list Event;
}.

(** A method is a computation on [Sys] that may fail: the source fails by
    raising (indexing something that is no table) or by not returning. *)
Definition M (A : Type) : Type := Sys → option (A * Sys).

Definition ret {A : Type} (a : A) : M A := λ s, Some (a, s).

#[global] Instance M_bind : MBind M := λ A B f m s,
  match m s with
  | Some (a, s') => f a s'
  | None => None
  end.

Definition get_this : M Crate := λ s, Some (this s, s).

Definition set_this (c : Crate) : M unit :=
  λ s, Some (tt, mkSys c (heap s) (trace s)).

Definition emit (e : Event) : M unit :=
  λ s, Some (tt, mkSys (this s) (heap s) (trace s ++ [e])).

(** [a[k]] *)
Definition index (a : addr) (k : key) : M value :=
  λ s, match heap_index (heap s) a k with
       | Some v => Some (v, s)
       | None => None
       end.

(** [a[k] = v] *)
Definition assign (a : addr) (k : key) (v : value) : M unit :=
  λ s, match heap_assign (heap s) a k v with
       | Some h => Some (tt, mkSys (this s) h (trace s))
       | None => None
       end.

(** [pairs(a)] *)
Definition pairs (a : addr) : M (list (key * value)) :=
  λ s, match heap_pairs (heap s) a with
       | Some es => Some (es, s)
       | None => None
       end.

Definition deep_copy (fuel : nat) (a : addr) : M addr :=
  λ s, match DeepCopy fuel (heap s) a with
       | Some (h, c) => Some (c, mkSys (this s) h (trace s))
       | None => None
       end.

(** Field updates of the crate. *)
Definition with_State (a : addr) (c : Crate) : Crate :=
  mkCrate a (Connections c) (InitialState c) (MiddlewareMap c) (LockedKeys c) (IsVerbose c).

Definition with_Connections (l : list Connection) (c : Crate) : Crate :=
  mkCrate (State c) l (InitialState c) (MiddlewareMap c) (LockedKeys c) (IsVerbose c).

Definition with_InitialState (a : addr) (c : Crate) : Crate :=
  mkCrate (State c) (Connections c) a (MiddlewareMap c) (LockedKeys c) (IsVerbose c).

Definition with_MiddlewareMap (m : gmap key MiddlewareType) (c : Crate) : Crate :=
  mkCrate (State c) (Connections c) (InitialState c) m (LockedKeys c) (IsVerbose c).

Definition with_LockedKeys (l : gset key) (c : Crate) : Crate :=
  mkCrate (State c) (Connections c) (InitialState c) (MiddlewareMap c) l (IsVerbose c).

Definition with_IsVerbose (b : bool) (c : Crate) : Crate :=
  mkCrate (State c) (Connections c) (InitialState c) (MiddlewareMap c) (LockedKeys c) b.

(** ** The methods of [Crate] *)

(**
<<
private Log(Msg: string, Verbose = true) {
  if (!Verbose || this.IsVerbose) warn(`${this.IsVerbose ? "[VRB] " : ""}[Crate] ${Msg}`);
}
>> *)
Definition Log (Msg : LogMsg) (Verbose : bool) : M unit :=
  c ← get_this;
  if negb Verbose || IsVerbose c then emit (EvWarn (IsVerbose c) Msg) else ret tt.

(**
<<
const Method = this.MiddlewareMap.get(Key);
const Result = Method !== undefined ? Method(New, Old) : New;
if (tick() - MW_EXEC_TIME > 0.2) this.Log("WARN: Yeilding is prohibited ...", false);
return Result;
>> *)
Definition ExecuteMiddleware (Key : key) (New Old : value) : M value :=
  c ← get_this;
  match (MiddlewareMap c !! Key : option MiddlewareType) with
  | Some Method =>
      let '(Result, slow) := Method New Old in
      (if slow then Log MsgYield false else ret tt);;
      ret Result
  | None => ret New
  end.

Definition Verbose : M unit :=
  c ← get_this; set_this (with_IsVerbose true c).

(** [this.MiddlewareMap.set(Key, Middleware)] *)
Definition Middleware (Key : key) (Mw : MiddlewareType) : M unit :=
  c ← get_this; set_this (with_MiddlewareMap (<[Key := Mw]> (MiddlewareMap c)) c).

(** The closure that [OnChange] connects to [UpdateBind.Event], run for one
    [Fire(K, O, N)]:
<<
(K, O, N) => Key !== Callback
  ? Key === K && Call(N, O)
  : (() => { const Old = DeepCopy(this.State); Old[K] = O;
             Call(DeepCopy(this.State), Old); })()
>> *)
Definition run_listener (fuel : nat) (i : nat) (s : Subscription) (K : key) (O N : value)
    : M unit :=
  match s with
  | Scoped Key =>
      if decide (Key = K) then emit (EvCall i N O) else ret tt
  | Global =>
      c ← get_this;
      Old ← deep_copy fuel (State c);
      assign Old K O;;
      c' ← get_this;
      New ← deep_copy fuel (State c');
      emit (EvCall i (VTable New) (VTable Old))
  end.

(** Modelled from the spec: the event bus ([BindableEvent], not part of the
    sources) "fires synchronously to all connected callbacks in connection
    order", with the arguments it is given. *)
Fixpoint run_listeners (fuel : nat) (i : nat) (cs : list Connection) (K : key) (O N : value)
    : M unit :=
  match cs with
  | [] => ret tt
  | c :: rest =>
      (if Connected c then run_listener fuel i (Sub c) K O N else ret tt);;
      run_listeners fuel (S i) rest K O N
  end.

Definition Fire (fuel : nat) (K : key) (O N : value) : M unit :=
  emit (EvFire K O N);;
  c ← get_this;
  run_listeners fuel 0 (Connections c) K O N.

(** [OnChange]: connect, push the connection, return it (its position). *)
Definition OnChange (s : Subscription) : M nat :=
  c ← get_this;
  set_this (with_Connections (Connections c ++ [mkConnection s true]) c);;
  ret (length (Connections c)).

(** [Update(Key, Value)], the branch for a key:
<<
if (this.LockedKeys.has(Key)) { this.Log(`Attepted to set ...`); return; }
const Old = this.State[Key];
const Result = this.ExecuteMiddleware(Key, Value, Old);
if (Result === Old) return Old;
this.State[Key] = Result;
this.UpdateBind.Fire(Key, Old, Result);
return Old;
>> *)
Definition Update (fuel : nat) (Key : key) (Value : value) : M value :=
  c ← get_this;
  if decide (Key ∈ LockedKeys c) then
    Log (MsgLocked Key Value) true;;
    ret VNil
  else
    Old ← index (State c) Key;
    Result ← ExecuteMiddleware Key Value Old;
    if raw_equal Result Old then ret Old
    else
      assign (State c) Key Result;;
      Fire fuel Key Old Result;;
      ret Old.

(** [Update(Dispatch)], the branch for a table: [this.Update(K, V)] for each
    of its entries. *)
Fixpoint update_each (fuel : nat) (entries : list (key * value)) : M unit :=
  match entries with
  | [] => ret tt
  | (K, V) :: rest => Update fuel K V;; update_each fuel rest
  end.

Definition UpdateAll (fuel : nat) (Dispatch : addr) : M unit :=
  entries ← pairs Dispatch;
  update_each fuel entries.

(**
<<
if (this.LockedKeys.has(Key)) return this.State[Key];
if (!typeIs(this.State[Key], "number")) {
  this.Log(`WARN: Attempt to increment '${tostring(Key)}', a non-integer value.`, true);
  return this.State[Key];
}
const Old = this.State[Key];
const New = (Old as number) + Amount;
const Result = this.ExecuteMiddleware(Key, New, Old);
this.State[Key] = Result;
this.UpdateBind.Fire(Key, Old, Result);
return Old;
>> *)
Definition Increment (fuel : nat) (Key : key) (Amount : number) : M value :=
  c ← get_this;
  if decide (Key ∈ LockedKeys c) then index (State c) Key
  else
    Old ← index (State c) Key;
    match Old with
    | VNum n =>
        let New := VNum (num_add n Amount) in
        Result ← ExecuteMiddleware Key New Old;
        assign (State c) Key Result;;
        Fire fuel Key Old Result;;
        ret Old
    | _ =>
        Log (MsgNotNumber Key) true;;
        index (State c) Key
    end.

(** [Get(Key?)] *)
Definition Get (fuel : nat) (Key : option key) : M value :=
  c ← get_this;
  match Key with
  | Some k => index (State c) k
  | None => a ← deep_copy fuel (State c); ret (VTable a)
  end.

(** The loops of [Unlock()], [Lock()] and [IsLocked()] over
    [pairs(this.State)]. *)
Fixpoint delete_each (entries : list (key * value)) (locked : gset key) : gset key :=
  match entries with
  | [] => locked
  | (Key, _) :: rest => delete_each rest (locked ∖ {[Key]})
  end.

Fixpoint add_each (entries : list (key * value)) (locked : gset key) : gset key :=
  match entries with
  | [] => locked
  | (Key, _) :: rest => add_each rest (locked ∪ {[Key]})
  end.

Fixpoint has_each (entries : list (key * value)) (locked : gset key) : bool :=
  match entries with
  | [] => true
  | (Key, _) :: rest =>
      if decide (Key ∈ locked) then has_each rest locked else false
  end.

Definition Unlock (Key : option key) : M unit :=
  c ← get_this;
  match Key with
  | Some k => set_this (with_LockedKeys (LockedKeys c ∖ {[k]}) c)
  | None =>
      entries ← pairs (State c);
      set_this (with_LockedKeys (delete_each entries (LockedKeys c)) c)
  end.

Definition Lock (Key : option key) : M unit :=
  c ← get_this;
  match Key with
  | Some k => set_this (with_LockedKeys (LockedKeys c ∪ {[k]}) c)
  | None =>
      entries ← pairs (State c);
      set_this (with_LockedKeys (add_each entries (LockedKeys c)) c)
  end.

Definition IsLocked (Key : option key) : M bool :=
  c ← get_this;
  match Key with
  | Some k => ret (bool_decide (k ∈ LockedKeys c))
  | None =>
      entries ← pairs (State c);
      ret (has_each entries (LockedKeys c))
  end.

(** [this.Update(Key, this.InitialState[Key]); return this;] *)
Definition Reset (fuel : nat) (Key : key) : M unit :=
  c ← get_this;
  v ← index (InitialState c) Key;
  Update fuel Key v;;
  ret tt.

(** [this.State = DeepCopy(this.InitialState)] *)
Definition Restore (fuel : nat) : M unit :=
  c ← get_this;
  a ← deep_copy fuel (InitialState c);
  set_this (with_State a c).

(** [this.InitialState = DeepCopy(this.State)] *)
Definition Snapshot (fuel : nat) : M unit :=
  c ← get_this;
  a ← deep_copy fuel (State c);
  set_this (with_InitialState a c).

(** [this.State = State] *)
Definition Overwrite (NewState : addr) : M unit :=
  c ← get_this;
  set_this (with_State NewState c).

(** [this.Connections.forEach((C) => C.Disconnect()); this.UpdateBind?.Destroy()] *)
Definition Destroy : M unit :=
  c ← get_this;
  set_this (with_Connections ((λ C, mkConnection (Sub C) false) <$> Connections c) c).

(**
<<
constructor(InitialState: T, Closed = false) {
  this.State = InitialState;
  this.InitialState = DeepCopy(InitialState);
  this.UpdateBind = new Instance("BindableEvent", script);
  Closed && this.Lock();
}
>> *)
Definition new_Crate (fuel : nat) (InitialState : addr) (Closed : bool) (h : Heap)
    : option Sys :=
  match DeepCopy fuel h InitialState with
  | Some (h', Baseline) =>
      let s := mkSys (mkCrate InitialState [] Baseline ∅ ∅ false) h' [] in
      if Closed then
        match Lock None s with
        | Some (_, s') => Some s'
        | None => None
        end
      else Some s
  | None => None
  end.

(** ** Auxiliary notions for the properties *)

(** What [ExecuteMiddleware] returns: what the middleware of [Key] makes of
    the candidate, the candidate itself when [Key] has none. *)
Definition resolve (c : Crate) (Key : key) (New Old : value) : value :=
  match (MiddlewareMap c !! Key : option MiddlewareType) with
  | Some Method => (Method New Old).1
  | None => New
  end.

(** [v'] in [h'] is a copy of [v] in [h]: the same scalar, or a table of the
    same structure all of whose tables lie above [lo]. *)
Definition copy_of (n : nat) (lo : nat) (h : Heap) (v : value) (h' : Heap) (v' : value)
    : Prop :=
  match v with
  | VTable b =>
      ∃ c, v' = VTable c ∧ wf n h' c ∧
           reify n h' (VTable c) = reify n h (VTable b) ∧
           ∀ x, reach h' c x → (lo < x)%nat
  | _ => v' = v
  end.

(** What a call of [DeepCopy] on a well-formed table does. *)
Definition DeepCopy_post (n : nat) (h : Heap) (a : addr) : Prop :=
  ∃ ext,
    DeepCopy n h a = Some (h ++ ext, length h) ∧
    wf n (h ++ ext) (length h) ∧
    reify n (h ++ ext) (VTable (length h)) = reify n h (VTable a) ∧
    (∀ x, reach (h ++ ext) (length h) x → (length h ≤ x)%nat) ∧
    (∀ t k b x, (h ++ ext) !! length h = Some t → t !! k = Some (VTable b) →
                reach (h ++ ext) b x → (length h < x)%nat).

(** All tables nested in [a] are allocated. *)
Definition bounded (h : Heap) (a : addr) : Prop :=
  ∀ x, reach h a x → (x < length h)%nat.

(** A field of a structure. *)
Definition field (T : Tree) (k : key) : option Tree :=
  match T with
  | TRec fields => fields !! k
  | _ => None
  end.

(** The structure of the live record. *)
Definition state_tree (n : nat) (s : Sys) : Tree :=
  reify n (heap s) (VTable (State (this s))).

Definition add_trace (s : Sys) (es : list Event) : Sys :=
  mkSys (this s) (heap s) (trace s ++ es).

(** The two tables a whole-store listener passes on for a change of [K] from
    [O], when the record has structure [T]: [New] is a copy of the record,
    [Old] holds [O] at [K] and agrees with the record elsewhere. *)
Definition snapshots (n : nat) (T : Tree) (h : Heap) (K : key) (O : value)
    (New Old : addr) : Prop :=
  wf n h New ∧ reify n h (VTable New) = T ∧
  ∃ to, h !! Old = Some to ∧ tget to K = O ∧
    ∀ k, k ≠ K →
      field (reify n h (VTable Old)) k = field T k ∧
      ∀ b, to !! k = Some (VTable b) → bounded h b.

(** The calls one connection makes for [Fire(K, O, N)]. *)
Definition received (n : nat) (T : Tree) (h : Heap) (K : key) (O N : value)
    (i : nat) (C : Connection) (calls : list Event) : Prop :=
  if Connected C then
    match Sub C with
    | Scoped k => calls = if decide (k = K) then [EvCall i N O] else []
    | Global =>
        ∃ New Old, calls = [EvCall i (VTable New) (VTable Old)] ∧
                   snapshots n T h K O New Old
    end
  else calls = [].

Fixpoint delivered (n : nat) (T : Tree) (h : Heap) (K : key) (O N : value)
    (i : nat) (cs : list Connection) (calls : list Event) : Prop :=
  match cs with
  | [] => calls = []
  | C :: rest =>
      ∃ c1 c2, calls = c1 ++ c2 ∧ received n T h K O N i C c1 ∧
               delivered n T h K O N (S i) rest c2
  end.

(** A decision procedure for [wf]. *)
Fixpoint wfb (n : nat) (h : Heap) (a : addr) : bool :=
  match n with
  | O => false
  | S n' =>
      match h !! a with
      | Some t =>
          forallb (λ e, negb (bool_decide (e.2 = VNil)) &&
                        match e.2 with VTable b => wfb n' h b | _ => true end)
                  (map_to_list t)
      | None => false
      end
  end.

(** ** A crate to run the methods on

    [new Crate({Health: 100, Name: "Paul", Items: ["sword"]})] *)

Definition Health : key := KStr "Health".
Definition Name : key := KStr "Name".
Definition Items : key := KStr "Items".

Definition player_record : gmap key value :=
  {[ Health := VNum 100; Name := VStr "Paul"; Items := VTable 1 ]}.

Definition player_items : gmap key value :=
  {[ KNum 1 := VStr "sword" ]}.

Definition player_heap : Heap := [player_record; player_items].

Definition player : Sys :=
  mkSys (mkCrate 0 [] 2 ∅ ∅ false)
        [ player_record; player_items;
          {[ Health := VNum 100; Name := VStr "Paul"; Items := VTable 3 ]};
          player_items ]
        [].

(** [0.5] *)
Definition half : number := num_div 1 2.

(** [math.clamp(v, lo, hi)]: [lo] if [v < lo], else [hi] if [v > hi], else
    [v]. *)
Definition num_clamp (v lo hi : number) : number :=
  let r := if num_ltb v lo then lo else v in
  if num_ltb hi r then hi else r.

(** [math.clamp(New, 0, 100)], the middleware of the class documentation. *)
Definition clamp : MiddlewareType := λ New Old,
  match New with
  | VNum n => (VNum (num_clamp n 0 100), false)
  | _ => (New, false)
  end.

(** The state of [s] after running [m], or [s] itself if [m] fails. *)
Definition after {A : Type} (m : M A) (s : Sys) : Sys :=
  match m s with
  | Some (_, s') => s'
  | None => s
  end.

(** The player with [Health] locked. *)
Definition player_locked : Sys := after (Lock (Some Health)) player.

(** The player in verbose mode, with [Health] locked. *)
Definition player_verbose_health_locked : Sys :=
  after (Lock (Some Health)) (after Verbose player).

(** The player with [Name] locked, in verbose mode. *)
Definition player_verbose_locked : Sys := after (Lock (Some Name)) (after Verbose player).

(** The player with the clamping middleware on [Health], a listener on
    [Health], one on [Name] and one on the whole store. *)
Definition player_observed : Sys :=
  after (OnChange Global)
    (after (OnChange (Scoped Name))
      (after (OnChange (Scoped Health))
        (after (Middleware Health clamp) player))).

(** [math.min(New, 50)] *)
Definition cap50 : MiddlewareType := λ New Old,
  match New with
  | VNum n => (VNum (if num_ltb 50 n then 50 else n), false)
  | _ => (New, false)
  end.

(** The player after [Update("Health", 40)], then given the middleware
    [cap50] on [Health]: the baseline still holds 100. *)
Definition player_capped : Sys :=
  after (Middleware Health cap50) (after (Update 2 Health (VNum 40)) player).

(** ** Reset, in the words of the specification

    "Equivalent to [Update(key, Baseline[key])]". *)
Definition Update_with_Baseline (fuel : nat) (Key : key) : M value :=
  c ← get_this;
  b ← index (InitialState c) Key;
  Update fuel Key b.

(** ** Between [Snapshot()] and [Restore()]

    One step of use of the crate: a call of any method but [Snapshot], the
    caller making a table, or the caller assigning to a table. Two of them
    carry a condition: [Overwrite] is not given, and the caller does not
    assign to, a table nested in the baseline. *)
Inductive mutation (fuel : nat) : Sys → Sys → Prop :=
  | mut_Update Key Value r s s' :
      Update fuel Key Value s = Some (r, s') → mutation fuel s s'
  | mut_UpdateAll Dispatch s s' :
      UpdateAll fuel Dispatch s = Some (tt, s') → mutation fuel s s'
  | mut_Increment Key Amount r s s' :
      Increment fuel Key Amount s = Some (r, s') → mutation fuel s s'
  | mut_Reset Key s s' :
      Reset fuel Key s = Some (tt, s') → mutation fuel s s'
  | mut_Restore s s' :
      Restore fuel s = Some (tt, s') → mutation fuel s s'
  | mut_Overwrite NewState s s' :
      ¬ reach (heap s) (InitialState (this s)) NewState →
      Overwrite NewState s = Some (tt, s') → mutation fuel s s'
  | mut_Get Key r s s' :
      Get fuel Key s = Some (r, s') → mutation fuel s s'
  | mut_Lock Key s s' :
      Lock Key s = Some (tt, s') → mutation fuel s s'
  | mut_Unlock Key s s' :
      Unlock Key s = Some (tt, s') → mutation fuel s s'
  | mut_Middleware Key Mw s s' :
      Middleware Key Mw s = Some (tt, s') → mutation fuel s s'
  | mut_OnChange sub r s s' :
      OnChange sub s = Some (r, s') → mutation fuel s s'
  | mut_Verbose s s' :
      Verbose s = Some (tt, s') → mutation fuel s s'
  | mut_Destroy s s' :
      Destroy s = Some (tt, s') → mutation fuel s s'
  | mut_new_table t s :
      mutation fuel s (mkSys (this s) (heap s ++ [t]) (trace s))
  | mut_assign a k v h' s :
      ¬ reach (heap s) (InitialState (this s)) a →
      heap_assign (heap s) a k v = Some h' →
      mutation fuel s (mkSys (this s) h' (trace s)).

(** The baseline is well formed, has structure [T], and the record is not
    one of its tables. *)
Definition baseline_is (fuel : nat) (T : Tree) (s : Sys) : Prop :=
  wf fuel (heap s) (InitialState (this s)) ∧
  reify fuel (heap s) (VTable (InitialState (this s))) = T ∧
  ¬ reach (heap s) (InitialState (this s)) (State (this s)).

(** What a method that only assigns to the record and allocates does to the
    heap. *)
Definition frame (s s' : Sys) : Prop :=
  this s' = this s ∧
  (length (heap s) ≤ length (heap s'))%nat ∧
  ∀ b, (b < length (heap s))%nat → b ≠ State (this s) → heap s' !! b = heap s !! b.

(** A record whose [Next] is a record of the same shape:
    [new Crate({Health: 100, Next: {Health: 50, Next: false}})] *)
Definition Next : key := KStr "Next".

Definition chain_head : gmap key value := {[ Health := VNum 100; Next := VTable 1 ]}.

Definition chain_tail : gmap key value := {[ Health := VNum 50; Next := VBool false ]}.

Definition chain : Sys :=
  mkSys (mkCrate 0 [] 2 ∅ ∅ false)
        [ chain_head; chain_tail; {[ Health := VNum 100; Next := VTable 3 ]}; chain_tail ]
        [].

(** ** Further notions for the properties of the remaining methods *)

(** No connected listener is on the whole store: [Fire] copies nothing. *)
Definition scoped_only (cs : list Connection) : Prop :=
  Forall (λ C, Connected C = true → Sub C ≠ Global) cs.

(** What [Update] leaves under the key: the resolved value, or the value
    already there when the two are [===]. *)
Definition settled (Result Old : value) : value :=
  if raw_equal Result Old then Old else Result.

(** A call of one of the methods that write under a key. *)
Inductive keyed_write (fuel : nat) : Sys → Sys → Prop :=
  | kw_Update Key Value r s s' :
      Update fuel Key Value s = Some (r, s') → keyed_write fuel s s'
  | kw_UpdateAll Dispatch s s' :
      UpdateAll fuel Dispatch s = Some (tt, s') → keyed_write fuel s s'
  | kw_Increment Key Amount r s s' :
      Increment fuel Key Amount s = Some (r, s') → keyed_write fuel s s'
  | kw_Reset Key s s' :
      Reset fuel Key s = Some (tt, s') → keyed_write fuel s s'.

(** A call of any method of the class. *)
Inductive method_call (fuel : nat) : Sys → Sys → Prop :=
  | mc_keyed s s' : keyed_write fuel s s' → method_call fuel s s'
  | mc_Get Key r s s' : Get fuel Key s = Some (r, s') → method_call fuel s s'
  | mc_Lock Key s s' : Lock Key s = Some (tt, s') → method_call fuel s s'
  | mc_Unlock Key s s' : Unlock Key s = Some (tt, s') → method_call fuel s s'
  | mc_IsLocked Key r s s' : IsLocked Key s = Some (r, s') → method_call fuel s s'
  | mc_Restore s s' : Restore fuel s = Some (tt, s') → method_call fuel s s'
  | mc_Snapshot s s' : Snapshot fuel s = Some (tt, s') → method_call fuel s s'
  | mc_Overwrite NewState s s' :
      Overwrite NewState s = Some (tt, s') → method_call fuel s s'
  | mc_Middleware Key Mw s s' :
      Middleware Key Mw s = Some (tt, s') → method_call fuel s s'
  | mc_OnChange sub r s s' : OnChange sub s = Some (r, s') → method_call fuel s s'
  | mc_Verbose s s' : Verbose s = Some (tt, s') → method_call fuel s s'
  | mc_Destroy s s' : Destroy s = Some (tt, s') → method_call fuel s s'.

(** [{Health: 50, Name: "John"}], and the player with that table allocated
    and [Name] locked. *)
Definition player_dispatch : gmap key value :=
  {[ Health := VNum 50; Name := VStr "John" ]}.

Definition player_name_locked : Sys :=
  after (Lock (Some Name)) (mkSys (this player) (heap player ++ [player_dispatch]) []).

(** A middleware that takes its time: it doubles the candidate. *)
Definition slow_double : MiddlewareType := λ New Old,
  match New with
  | VNum n => (VNum (num_add n n), true)
  | _ => (New, true)
  end.

(** The tables that existed before a call and are not the record are as they
    were after it. *)
Definition untouched (s s' : Sys) : Prop :=
  (length (heap s) ≤ length (heap s'))%nat ∧
  ∀ b, (b < length (heap s))%nat → b ≠ State (this s) → heap s' !! b = heap s !! b.

(** Somewhere inside [a] a table is nested in itself. *)
Definition loops (h : Heap) (a : addr) : Prop :=
  ∃ c t k b, reach h a c ∧ h !! c = Some t ∧ t !! k = Some (VTable b) ∧ reach h b c.

(** [local t = {}; t.Self = t] *)
Definition self_nested : Heap := [ {[ KStr "Self" := VTable 0 ]} ].

(** A trace without its log lines. *)
Definition quiet (tr : list Event) : list Event :=
  filter (λ e, is_warn e = false) tr.

(** Two crates that differ at most in [IsVerbose]. *)
Definition same_but_verbose (c1 c2 : Crate) : Prop :=
  with_IsVerbose false c1 = with_IsVerbose false c2.

(** Two systems that differ at most in [IsVerbose] and in what was logged. *)
Definition same_but_log (s1 s2 : Sys) : Prop :=
  same_but_verbose (this s1) (this s2) ∧ heap s1 = heap s2 ∧
  quiet (trace s1) = quiet (trace s2).

(** Two computations that, from such systems, both fail or both return,
    with results related by [R], in such systems again. *)
Definition alike {A : Type} (R : A → A → Prop) (m1 m2 : M A) : Prop :=
  ∀ s1 s2, same_but_log s1 s2 →
    match m1 s1, m2 s2 with
    | Some (a1, s1'), Some (a2, s2') => R a1 a2 ∧ same_but_log s1' s2'
    | None, None => True
    | _, _ => False
    end.

(** The player with [Name] locked, not verbose. *)
Definition player_quiet_locked : Sys := after (Lock (Some Name)) player.

(** * The first revision of the class

    [src/unnamed/part_000]. The store is opened and closed as a whole
    ([CrateOpen]); there are no locks, no verbosity and no snapshot, and the
    class calls [warn] itself. [DeepCopy], the type of a middleware and the
    closure connected to the event are those of the current revision. *)
Module Legacy.

Record Crate := mkCrate {
  State : addr;
  CrateOpen : bool;
  Connections : list Connection;
  InitialState : addr;
  MiddlewareMap : gmap key MiddlewareType;
}.

(** The two lines the class gives to [warn]. *)
Inductive Warning :=
  | WarnYield
      (* [Crate] ERROR: Yeilding is prohibited within middleware ... *)
  | WarnNotNumber.
      (* [Crate] Attempt to increment a non-integer. *)

Inductive Event :=
  | EvWarn (msg : Warning)
  | EvFire (K : key) (O N : value)
  | EvCall (conn : nat) (New Old : value).

Definition is_call (e : Event) : bool :=
  match e with EvCall _ _ _ => true | _ => false end.

Definition is_warn (e : Event) : bool :=
  match e with EvWarn _ => true | _ => false end.

Record Sys := mkSys {
  this : Crate;
  heap : Heap;
  trace : list Event;
}.

Definition M (A : Type) : Type := Sys → option (A * Sys).

Definition ret {A : Type} (a : A) : M A := λ s, Some (a, s).

#[global] Instance bind_M : MBind M := λ A B f m s,
  match m s with
  | Some (a, s') => f a s'
  | None => None
  end.

Definition get_this : M Crate := λ s, Some (this s, s).

Definition set_this (c : Crate) : M unit :=
  λ s, Some (tt, mkSys c (heap s) (trace s)).

Definition emit (e : Event) : M unit :=
  λ s, Some (tt, mkSys (this s) (heap s) (trace s ++ [e])).

Definition index (a : addr) (k : key) : M value :=
  λ s, match heap_index (heap s) a k with
       | Some v => Some (v, s)
       | None => None
       end.

Definition assign (a : addr) (k : key) (v : value) : M unit :=
  λ s, match heap_assign (heap s) a k v with
       | Some h => Some (tt, mkSys (this s) h (trace s))
       | None => None
       end.

Definition pairs (a : addr) : M (list (key * value)) :=
  λ s, match heap_pairs (heap s) a with
       | Some es => Some (es, s)
       | None => None
       end.

Definition deep_copy (fuel : nat) (a : addr) : M addr :=
  λ s, match DeepCopy fuel (heap s) a with
       | Some (h, c) => Some (c, mkSys (this s) h (trace s))
       | None => None
       end.

Definition with_State (a : addr) (c : Crate) : Crate :=
  mkCrate a (CrateOpen c) (Connections c) (InitialState c) (MiddlewareMap c).

Definition with_CrateOpen (b : bool) (c : Crate) : Crate :=
  mkCrate (State c) b (Connections c) (InitialState c) (MiddlewareMap c).

Definition with_Connections (l : list Connection) (c : Crate) : Crate :=
  mkCrate (State c) (CrateOpen c) l (InitialState c) (MiddlewareMap c).

Definition with_MiddlewareMap (m : gmap key MiddlewareType) (c : Crate) : Crate :=
  mkCrate (State c) (CrateOpen c) (Connections c) (InitialState c) m.

(**
<<
const Method = this.MiddlewareMap.get(Key) as MiddlewareType<T, U>;
const Result = Method !== undefined ? Method(New, Old) : New;
if (tick() - MW_EXEC_TIME > 0.2) warn("[Crate] ERROR: Yeilding is prohibited ...");
return Result;
>> *)
Definition ExecuteMiddleware (Key : key) (New Old : value) : M value :=
  c ← get_this;
  match (MiddlewareMap c !! Key : option MiddlewareType) with
  | Some Method =>
      let '(Result, slow) := Method New Old in
      (if slow then emit (EvWarn WarnYield) else ret tt);;
      ret Result
  | None => ret New
  end.

(** [this.MiddlewareMap.set(Key, Middleware)] *)
Definition Middleware (Key : key) (Mw : MiddlewareType) : M unit :=
  c ← get_this; set_this (with_MiddlewareMap (<[Key := Mw]> (MiddlewareMap c)) c).

(** The closure that [OnUpdate] connects, run for one [Fire(K, O, N)]:
<<
(K, O, N) => Key !== Callback
  ? Key === K && Call(N, O)
  : (() => { const Old = DeepCopy(this.State); Old[K] = O;
             Call(DeepCopy(this.State), Old); })()
>> *)
Definition run_listener (fuel : nat) (i : nat) (s : Subscription) (K : key) (O N : value)
    : M unit :=
  match s with
  | Scoped Key =>
      if decide (Key = K) then emit (EvCall i N O) else ret tt
  | Global =>
      c ← get_this;
      Old ← deep_copy fuel (State c);
      assign Old K O;;
      c' ← get_this;
      New ← deep_copy fuel (State c');
      emit (EvCall i (VTable New) (VTable Old))
  end.

(** The event bus, as for the current revision: the connected listeners, in
    connection order. *)
Fixpoint run_listeners (fuel : nat) (i : nat) (cs : list Connection) (K : key) (O N : value)
    : M unit :=
  match cs with
  | [] => ret tt
  | c :: rest =>
      (if Connected c then run_listener fuel i (Sub c) K O N else ret tt);;
      run_listeners fuel (S i) rest K O N
  end.

Definition Fire (fuel : nat) (K : key) (O N : value) : M unit :=
  emit (EvFire K O N);;
  c ← get_this;
  run_listeners fuel 0 (Connections c) K O N.

(** [OnUpdate]: connect, push the connection, return it (its position). *)
Definition OnUpdate (s : Subscription) : M nat :=
  c ← get_this;
  set_this (with_Connections (Connections c ++ [mkConnection s true]) c);;
  ret (length (Connections c)).

(** [Update(Key, Value)], the branch for a key:
<<
const Old = this.State[Key as U];
if (!this.CrateOpen) return Value;
const Result = this.ExecuteMiddleware(Key as U, Value as T[U], Old);
this.State[Key as U] = Result;
this.UpdateBind.Fire(Key as U, Old, Result);
return Old;
>> *)
Definition Update (fuel : nat) (Key : key) (Value : value) : M value :=
  c ← get_this;
  Old ← index (State c) Key;
  if negb (CrateOpen c) then ret Value
  else
    Result ← ExecuteMiddleware Key Value Old;
    assign (State c) Key Result;;
    Fire fuel Key Old Result;;
    ret Old.

(** [Update(Dispatch)], the branch for a table. *)
Fixpoint update_each (fuel : nat) (entries : list (key * value)) : M unit :=
  match entries with
  | [] => ret tt
  | (K, V) :: rest => Update fuel K V;; update_each fuel rest
  end.

Definition UpdateAll (fuel : nat) (Dispatch : addr) : M unit :=
  entries ← pairs Dispatch;
  update_each fuel entries.

(**
<<
if (!typeIs(this.State[Key], "number")) {
  warn("[Crate] Attempt to increment a non-integer.");
  return this.State[Key];
}
const Old = this.State[Key];
const New = (Old as number) + Amount;
const Result = this.ExecuteMiddleware(Key as U, New as T[U], Old);
this.State[Key] = Result;
this.UpdateBind.Fire(Key as U, Old, Result);
return Old;
>> *)
Definition Increment (fuel : nat) (Key : key) (Amount : number) : M value :=
  c ← get_this;
  Old ← index (State c) Key;
  match Old with
  | VNum n =>
      let New := VNum (num_add n Amount) in
      Result ← ExecuteMiddleware Key New Old;
      assign (State c) Key Result;;
      Fire fuel Key Old Result;;
      ret Old
  | _ =>
      emit (EvWarn WarnNotNumber);;
      index (State c) Key
  end.

(** [Get(Key?)] *)
Definition Get (fuel : nat) (Key : option key) : M value :=
  c ← get_this;
  match Key with
  | Some k => index (State c) k
  | None => a ← deep_copy fuel (State c); ret (VTable a)
  end.

(** [this.CrateOpen = true] *)
Definition Open : M unit :=
  c ← get_this; set_this (with_CrateOpen true c).

(** [this.CrateOpen = false] *)
Definition Close : M unit :=
  c ← get_this; set_this (with_CrateOpen false c).

Definition IsOpen : M bool :=
  c ← get_this; ret (CrateOpen c).

(** [this.Update(Key, this.InitialState[Key])] *)
Definition Reset (fuel : nat) (Key : key) : M unit :=
  c ← get_this;
  v ← index (InitialState c) Key;
  Update fuel Key v;;
  ret tt.

(** [this.State = DeepCopy(this.InitialState)] *)
Definition Restore (fuel : nat) : M unit :=
  c ← get_this;
  a ← deep_copy fuel (InitialState c);
  set_this (with_State a c).

(** [this.Connections.forEach((C) => C.Disconnect()); this.UpdateBind?.Destroy()] *)
Definition Destroy : M unit :=
  c ← get_this;
  set_this (with_Connections ((λ C, mkConnection (Sub C) false) <$> Connections c) c).

(**
<<
constructor(InitialState: T, Closed = false) {
  this.State = InitialState;
  this.InitialState = DeepCopy(InitialState);
  this.UpdateBind = new Instance("BindableEvent", script);
  this.CrateOpen = !Closed;
}
>> *)
Definition new_Crate (fuel : nat) (InitialState : addr) (Closed : bool) (h : Heap)
    : option Sys :=
  match DeepCopy fuel h InitialState with
  | Some (h', Baseline) =>
      Some (mkSys (mkCrate InitialState (negb Closed) [] Baseline ∅) h' [])
  | None => None
  end.

(** What [ExecuteMiddleware] returns. *)
Definition resolve (c : Crate) (Key : key) (New Old : value) : value :=
  match (MiddlewareMap c !! Key : option MiddlewareType) with
  | Some Method => (Method New Old).1
  | None => New
  end.

Definition add_trace (s : Sys) (es : list Event) : Sys :=
  mkSys (this s) (heap s) (trace s ++ es).

(** The state of [s] after running [m], or [s] itself if [m] fails. *)
Definition after {A : Type} (m : M A) (s : Sys) : Sys :=
  match m s with
  | Some (_, s') => s'
  | None => s
  end.

(** [new Crate({Health: 100, Name: "Paul", Items: ["sword"]}, true)] with a
    listener on [Health] and one on the whole store. *)
Definition closed_player : Sys :=
  after (OnUpdate Global)
    (after (OnUpdate (Scoped Health))
      (match new_Crate 2 0 true player_heap with
       | Some s => s
       | None => mkSys (mkCrate 0 true [] 0 ∅) [] []
       end)).

(** The same player, opened. *)
Definition open_player : Sys := after Open closed_player.

End Legacy.

(** The player whose [Health] is [0/0]. *)
Definition player_nan : Sys := after (Update 2 Health (VNum S754_nan)) player.

(** * Properties *)

(** ** Tables and the heap *)

Lemma tget_tset_eq t k v : tget (tset t k v) k = v.
Proof.
  unfold tget, tset. case_decide as Hv.
  - by rewrite lookup_delete_eq.
  - by rewrite lookup_insert_eq.
Qed.

Lemma tget_tset_ne t k k' v : k ≠ k' → tget (tset t k v) k' = tget t k'.
Proof.
  intros Hne. unfold tget, tset. case_decide.
  - by rewrite lookup_delete_ne.
  - by rewrite lookup_insert_ne.
Qed.

Lemma lookup_tset_ne t k k' v : k ≠ k' → tset t k v !! k' = t !! k'.
Proof.
  intros Hne. unfold tset. case_decide.
  - by rewrite lookup_delete_ne.
  - by rewrite lookup_insert_ne.
Qed.

Lemma lookup_tset_eq t k v : v ≠ VNil → tset t k v !! k = Some v.
Proof.
  intros Hv. unfold tset. rewrite decide_False by done. apply lookup_insert_eq.
Qed.

Lemma reify_scalar n m h h' v : is_table v = false → reify n h v = reify m h' v.
Proof. by destruct v, n, m. Qed.

Lemma wf_lookup n h a : wf n h a → is_Some (h !! a).
Proof. destruct n; [done|]. intros (t & Ht & _). eauto. Qed.

Lemma wf_lt n h a : wf n h a → (a < length h)%nat.
Proof. intros [t Ht]%wf_lookup. by eapply lookup_lt_Some. Qed.

Lemma reach_trans h a b c : reach h a b → reach h b c → reach h a c.
Proof.
  induction 1 as [|a t k b b' Ha Hk _ IH]; [done|].
  intros Hc. eapply reach_step; eauto.
Qed.

(** Everything nested in a well-formed table is allocated. *)
Lemma wf_reach_lt n h a b : wf n h a → reach h a b → (b < length h)%nat.
Proof.
  intros Hwf Hr. revert n Hwf.
  induction Hr as [a|a t k b c Ha Hk _ IH]; intros n Hwf.
  - by eapply wf_lt.
  - destruct n as [|n]; [done|]. destruct Hwf as (t' & Ht' & Hall).
    assert (t' = t) as -> by congruence.
    destruct (Hall _ _ Hk) as [_ Hb]. by eapply IH.
Qed.

(** A heap that agrees with [h] on the tables nested in [a] gives [a] the
    same structure. *)
Lemma wf_reify_agree n h h' a :
  wf n h a →
  (∀ b, reach h a b → h' !! b = h !! b) →
  wf n h' a ∧ reify n h' (VTable a) = reify n h (VTable a).
Proof.
  revert a. induction n as [|n IH]; intros a Hwf Hag; [done|].
  destruct Hwf as (t & Ht & Hall).
  assert (h' !! a = Some t) as Ht' by (rewrite Hag; [done|constructor]).
  assert (∀ k b, t !! k = Some (VTable b) →
            wf n h' b ∧ reify n h' (VTable b) = reify n h (VTable b)) as Hsub.
  { intros k b Hk. destruct (Hall _ _ Hk) as [_ Hb].
    apply IH; [done|]. intros c Hc. apply Hag. by eapply reach_step. }
  split.
  - exists t. split; [done|]. intros k v Hk. destruct (Hall _ _ Hk) as [Hnil Hv].
    split; [done|]. destruct v; try done. by eapply Hsub.
  - simpl. rewrite Ht, Ht'. f_equal. apply map_fmap_ext. intros k v Hk.
    destruct v; try by destruct n. by eapply Hsub.
Qed.

Lemma reach_agree h h' a c :
  (∀ b, reach h a b → h' !! b = h !! b) → reach h' a c → reach h a c.
Proof.
  intros Hag Hr. induction Hr as [a|a t k b c Ha Hk _ IH]; [constructor|].
  assert (h !! a = Some t) as Ha' by (rewrite <- Hag; [done|constructor]).
  eapply reach_step; [done..|]. apply IH.
  intros x Hx. apply Hag. by eapply reach_step.
Qed.

Lemma reach_agree_iff h h' a c :
  (∀ b, reach h a b → h' !! b = h !! b) → reach h' a c ↔ reach h a c.
Proof.
  intros Hag. split; [by apply reach_agree|].
  intros Hr. induction Hr as [a|a t k b c Ha Hk Hbc IH]; [constructor|].
  eapply reach_step; [rewrite Hag; [done|constructor]|done|].
  apply IH. intros x Hx. apply Hag. by eapply reach_step.
Qed.

(** In particular, allocation leaves well-formed tables as they are. *)
Lemma wf_reify_app n h ext a :
  wf n h a →
  wf n (h ++ ext) a ∧ reify n (h ++ ext) (VTable a) = reify n h (VTable a).
Proof.
  intros Hwf. apply wf_reify_agree; [done|].
  intros b Hb. apply lookup_app_l. by eapply wf_reach_lt.
Qed.

Lemma heap_assign_middle (h : Heap) t ext k v :
  heap_assign (h ++ t :: ext) (length h) k v = Some (h ++ tset t k v :: ext).
Proof.
  unfold heap_assign. rewrite list_lookup_middle by done. f_equal.
  rewrite insert_app_r_alt by lia. by rewrite Nat.sub_diag.
Qed.

(** ** DeepCopy returns an independent copy *)

Lemma copy_of_agree n lo h v h1 h2 v' :
  copy_of n lo h v h1 v' →
  (∀ x, (lo < x < length h1)%nat → h2 !! x = h1 !! x) →
  copy_of n lo h v h2 v'.
Proof.
  destruct v; try done. intros (c & -> & Hwf & Hre & Hlo) Hag.
  assert (∀ x, reach h1 c x → h2 !! x = h1 !! x) as Hag'.
  { intros x Hx. apply Hag. split; [by apply Hlo|by eapply wf_reach_lt]. }
  destruct (wf_reify_agree _ _ _ _ Hwf Hag') as [Hwf2 Hre2].
  exists c. repeat split; [done|congruence|].
  intros x Hx. apply Hlo. by eapply reach_agree.
Qed.

Lemma copy_of_reify n lo h v h' v' :
  copy_of n lo h v h' v' → reify n h' v' = reify n h v.
Proof.
  destruct v; try (intros ->; by apply reify_scalar).
  by intros (c & -> & _ & Hre & _).
Qed.

Lemma lookup_behind (h0 : Heap) tc tc' ext ext' x :
  (length h0 < x < length (h0 ++ tc :: ext))%nat →
  (h0 ++ tc' :: ext ++ ext') !! x = (h0 ++ tc :: ext) !! x.
Proof.
  rewrite length_app. simpl. intros Hx.
  rewrite !lookup_app_r by lia.
  destruct (x - length h0)%nat as [|i] eqn:Hi; [lia|]. simpl.
  apply lookup_app_l. lia.
Qed.

Lemma copy_entries_spec n :
  (∀ h a, wf n h a → DeepCopy_post n h a) →
  ∀ entries (h0 : Heap) tc ext,
    NoDup entries.*1 →
    Forall (λ e, e.2 ≠ VNil ∧ ∀ b, e.2 = VTable b → wf n h0 b) entries →
    ∃ tc' ext',
      copy_entries (DeepCopy n) (length h0) entries (h0 ++ tc :: ext)
        = Some (h0 ++ tc' :: ext ++ ext') ∧
      (∀ k, k ∉ entries.*1 → tc' !! k = tc !! k) ∧
      (∀ k v, (k, v) ∈ entries →
         ∃ v', tc' !! k = Some v' ∧ v' ≠ VNil ∧
               copy_of n (length h0) h0 v (h0 ++ tc' :: ext ++ ext') v').
Proof.
  intros IHn entries. induction entries as [|[k v] rest IH]; intros h0 tc ext Hnd Hall.
  { exists tc, []. rewrite app_nil_r. split_and!; [done|done|].
    intros k v Hin. by apply elem_of_nil in Hin. }
  apply NoDup_cons in Hnd as [Hk Hnd]. apply Forall_cons in Hall as [[Hnil Hv] Hall].
  simpl in Hnil, Hv.
  (* the assignment [Copy[Key] = v'] and the heap it is made in *)
  assert (∃ v' e,
    (match v with
     | VTable b =>
         match DeepCopy n (h0 ++ tc :: ext) b with
         | Some (h1, c) => heap_assign h1 (length h0) k (VTable c)
         | None => None
         end
     | _ => heap_assign (h0 ++ tc :: ext) (length h0) k v
     end) = Some (h0 ++ tset tc k v' :: ext ++ e) ∧
    v' ≠ VNil ∧
    copy_of n (length h0) h0 v (h0 ++ tset tc k v' :: ext ++ e) v') as (v' & e & Hstep & Hnil' & Hcopy).
  { destruct v as [| | | |b]; try done.
    1-3: (eexists _, []; rewrite app_nil_r; split_and!; [|done|done];
          apply heap_assign_middle).
    destruct (wf_reify_app n h0 (tc :: ext) b (Hv _ eq_refl)) as [Hwf1 Hre1].
    destruct (IHn _ _ Hwf1) as (e & -> & Hwf2 & Hre2 & Hfresh & _).
    exists (VTable (length (h0 ++ tc :: ext))), e. split_and!; [|done|].
    - rewrite <- (assoc_L (++)). simpl. apply heap_assign_middle.
    - set (h1 := (h0 ++ tc :: ext) ++ e) in *.
      apply (copy_of_agree _ _ _ _ h1).
      + eexists. split_and!; [done|done|congruence|].
        intros x Hx%Hfresh. rewrite length_app in Hx. simpl in Hx. lia.
      + intros x Hx. unfold h1. rewrite <- (assoc_L (++)). simpl.
        rewrite !lookup_app_r by lia.
        destruct (x - length h0)%nat as [|i] eqn:Hi; [lia|]. done. }
  destruct (IH h0 (tset tc k v') (ext ++ e) Hnd Hall) as (tc' & ext' & Hrest & Hout & Hin).
  exists tc', (e ++ ext'). rewrite (assoc_L (++)). split_and!.
  - simpl. destruct v; simpl in *; try (rewrite Hstep; exact Hrest).
    destruct (DeepCopy n (h0 ++ tc :: ext) a) as [[h1 c]|]; [|done].
    rewrite Hstep. exact Hrest.
  - intros k' Hk'. rewrite fmap_cons in Hk'. simpl in Hk'.
    apply not_elem_of_cons in Hk' as [Hne Hk']. rewrite Hout by done.
    by apply lookup_tset_ne.
  - intros k' w Hw. apply elem_of_cons in Hw as [[= -> ->]|Hw]; [|by apply Hin].
    exists v'. split_and!; [|done|].
    + rewrite Hout by done. by apply lookup_tset_eq.
    + eapply copy_of_agree; [exact Hcopy|].
      intros x Hx. by apply lookup_behind.
Qed.

Lemma DeepCopy_spec n h a : wf n h a → DeepCopy_post n h a.
Proof.
  revert h a. induction n as [|n IHn]; intros h a Hwf; [done|].
  destruct Hwf as (t & Ht & Hall).
  destruct (copy_entries_spec n IHn (map_to_list t) h ∅ []) as (tc & ext & Hloop & Hout & Hin).
  { apply NoDup_fst_map_to_list. }
  { apply Forall_forall. intros [k v] Hkv%elem_of_map_to_list.
    destruct (Hall _ _ Hkv) as [Hnil Hv]. simpl. split; [done|]. by intros b ->. }
  simpl in Hloop.
  assert (∀ k, tc !! k = None ∨
            ∃ v v', t !! k = Some v ∧ tc !! k = Some v' ∧ v' ≠ VNil ∧
                    copy_of n (length h) h v (h ++ tc :: ext) v') as Hfields.
  { intros k. destruct (t !! k) as [v|] eqn:Hk.
    - right. apply elem_of_map_to_list in Hk as Hkv.
      destruct (Hin _ _ Hkv) as (v' & ? & ? & ?). by exists v, v'.
    - left. rewrite Hout; [done|]. intros ([k' v] & -> & Hv)%list_elem_of_fmap.
      apply elem_of_map_to_list in Hv. simpl in Hk. congruence. }
  assert ((h ++ tc :: ext) !! length h = Some tc) as Htc by by apply list_lookup_middle.
  exists (tc :: ext). split_and!.
  - simpl. unfold heap_pairs. by rewrite Ht, Hloop.
  - exists tc. split; [done|]. intros k v' Hk.
    destruct (Hfields k) as [?|(v & w & _ & Hw & Hnil & Hcopy)]; [congruence|].
    assert (w = v') as -> by congruence. split; [done|].
    destruct v' as [| | | |c]; try done.
    destruct v; try done. by destruct Hcopy as (c' & [= <-] & ? & _).
  - simpl. rewrite Htc, Ht. f_equal. apply map_eq. intros k.
    rewrite !lookup_fmap.
    destruct (Hfields k) as [Hk|(v & v' & Hv & Hv' & _ & Hcopy)].
    + rewrite Hk. destruct (t !! k) as [v|] eqn:Hv; [|done].
      apply elem_of_map_to_list in Hv. destruct (Hin _ _ Hv) as (? & ? & _).
      congruence.
    + rewrite Hv, Hv'. simpl. f_equal. by eapply copy_of_reify.
  - intros x Hx. inversion Hx as [|? t' k b ? Ht' Hk Hb]; subst; [done|].
    assert (t' = tc) as -> by congruence.
    destruct (Hfields k) as [?|(v & v' & _ & Hv' & _ & Hcopy)]; [congruence|].
    assert (v' = VTable b) as -> by congruence.
    destruct v; try done. destruct Hcopy as (c & [= <-] & _ & _ & Hlo).
    apply Hlo in Hb. lia.
  - intros t' k b x Ht' Hk Hb.
    assert (t' = tc) as -> by congruence.
    destruct (Hfields k) as [?|(v & v' & _ & Hv' & _ & Hcopy)]; [congruence|].
    assert (v' = VTable b) as -> by congruence.
    destruct v; try done. destruct Hcopy as (c & [= <-] & _ & _ & Hlo).
    by apply Hlo.
Qed.

(** The copy allocates above the old heap and leaves the old tables alone. *)
Lemma DeepCopy_inv n h a h' c :
  wf n h a → DeepCopy n h a = Some (h', c) →
  c = length h ∧ ∃ ext, h' = h ++ ext ∧
    wf n h' c ∧ reify n h' (VTable c) = reify n h (VTable a) ∧
    ∀ x, reach h' c x → (length h ≤ x)%nat.
Proof.
  intros Hwf Hdc. destruct (DeepCopy_spec _ _ _ Hwf) as (ext & Heq & ? & ? & ? & _).
  rewrite Heq in Hdc. injection Hdc as <- <-. eauto 10.
Qed.

#[global] Arguments DeepCopy : simpl never.

(** The structure of a value depends only on the tables nested in it. *)
Lemma reify_agree n h h' a :
  (∀ b, reach h a b → h' !! b = h !! b) →
  reify n h' (VTable a) = reify n h (VTable a).
Proof.
  revert a. induction n as [|n IH]; intros a Hag; [done|]. simpl.
  rewrite Hag by constructor. destruct (h !! a) as [t|] eqn:Ht; [|done].
  f_equal. apply map_fmap_ext. intros k v Hk.
  destruct v; try by destruct n. apply IH.
  intros c Hc. apply Hag. by eapply reach_step.
Qed.

Lemma bounded_app h ext a : bounded h a → bounded (h ++ ext) a.
Proof.
  intros Hb x Hx. rewrite length_app.
  assert (reach h a x) as Hx'; [|apply Hb in Hx'; lia].
  eapply reach_agree; [|done]. intros b Hr. apply lookup_app_l. by apply Hb.
Qed.

Lemma bounded_reify_app n h ext a :
  bounded h a → reify n (h ++ ext) (VTable a) = reify n h (VTable a).
Proof.
  intros Hb. apply reify_agree. intros b Hr. apply lookup_app_l. by apply Hb.
Qed.

Lemma wf_bounded n h a : wf n h a → bounded h a.
Proof. intros Hwf x Hx. by eapply wf_reach_lt. Qed.

Lemma wf_fuel n h a : wf n h a → ∃ m, n = S m.
Proof. destruct n; [done|eauto]. Qed.

Lemma field_reify n h a t k :
  h !! a = Some t → field (reify (S n) h (VTable a)) k = reify n h <$> (t !! k).
Proof. intros Ht. simpl. rewrite Ht. simpl. apply lookup_fmap. Qed.

(** ** Running methods *)

(** Evaluate a closed goal. *)
Ltac run :=
  vm_compute;
  first [reflexivity | discriminate | exact I | (intros ?; discriminate)].

(** ** Numbers

    Sums are rounded to the nearest double, ties to even, and need not be
    integers; [inf - inf] is [nan], which [===] tells from itself, and the
    two zeros are [===]. *)
Lemma num_add_rounds :
  num_add 100 5 = num 105 ∧
  num_add (2 ^ 53) 1 = num (2 ^ 53) ∧
  num_add (2 ^ 53) 3 = num (2 ^ 53 + 4) ∧
  num_add half half = num 1 ∧
  num_add 100 half = num_div 201 2 ∧
  num_add (S754_infinity false) (S754_infinity true) = S754_nan ∧
  raw_equal (VNum S754_nan) (VNum S754_nan) = false ∧
  raw_equal (VNum (S754_zero true)) (VNum 0) = true.
Proof. by vm_compute. Qed.

(** On everything but numbers [===] is equality. *)
Lemma raw_equal_eq a b :
  is_number a = false → raw_equal a b = bool_decide (a = b).
Proof. by destruct a, b. Qed.

Ltac unfold_M :=
  unfold mbind, M_bind, ret, get_this, set_this, emit, index, assign, pairs, deep_copy.

Lemma add_trace_nil s : add_trace s [] = s.
Proof. destruct s. unfold add_trace. simpl. by rewrite app_nil_r. Qed.

Lemma add_trace_app s es1 es2 : add_trace (add_trace s es1) es2 = add_trace s (es1 ++ es2).
Proof. unfold add_trace. simpl. by rewrite (assoc_L (++)). Qed.

Lemma Log_eq Msg V s :
  Log Msg V s =
    Some (tt, add_trace s (if negb V || IsVerbose (this s)
                           then [EvWarn (IsVerbose (this s)) Msg] else [])).
Proof.
  unfold Log. unfold_M. destruct (negb V || IsVerbose (this s)); [done|].
  by rewrite add_trace_nil.
Qed.

(** [ExecuteMiddleware] always returns; it touches neither the crate nor the
    heap and can only add a warning. *)
Lemma ExecuteMiddleware_eq Key New Old s :
  ∃ Result warns,
    ExecuteMiddleware Key New Old s = Some (Result, add_trace s warns) ∧
    Forall (λ e, is_warn e = true) warns ∧
    Result = match MiddlewareMap (this s) !! Key with
             | Some Method => (Method New Old).1
             | None => New
             end.
Proof.
  unfold ExecuteMiddleware. unfold_M.
  destruct (MiddlewareMap (this s) !! Key) as [Method|] eqn:HM; simpl.
  - destruct (Method New Old) as [Result slow]. destruct slow.
    + rewrite Log_eq. simpl. eexists _, _. split_and!; [done| |done].
      by repeat constructor.
    + exists Result, []. by rewrite add_trace_nil.
  - exists New, []. by rewrite add_trace_nil.
Qed.

(** [resolve] is what it returns. *)
Lemma ExecuteMiddleware_resolve Key New Old s :
  ∃ warns,
    ExecuteMiddleware Key New Old s
      = Some (resolve (this s) Key New Old, add_trace s warns) ∧
    Forall (λ e, is_warn e = true) warns.
Proof.
  destruct (ExecuteMiddleware_eq Key New Old s) as (R & warns & HEx & Hwarns & ->).
  by exists warns.
Qed.

(** ** Notification *)

Lemma snapshots_app n T h ext K O New Old :
  snapshots n T h K O New Old → snapshots n T (h ++ ext) K O New Old.
Proof.
  intros (Hwf & Hre & to & Hto & HK & Hrest).
  destruct (wf_reify_app n h ext New Hwf) as [Hwf' Hre'].
  split_and!; [done|congruence|].
  exists to. split_and!; [by apply lookup_app_l_Some|done|].
  intros k Hk. destruct (Hrest k Hk) as [Hf Hb].
  destruct (wf_fuel _ _ _ Hwf) as [m ->]. split.
  - rewrite <- Hf. rewrite !(field_reify _ _ _ to) by by try apply lookup_app_l_Some.
    destruct (to !! k) as [v|] eqn:Hv; [|done]. simpl. f_equal.
    destruct v; try by destruct m. apply bounded_reify_app. by eapply Hb.
  - intros b Hv. apply bounded_app. by eapply Hb.
Qed.

Lemma received_app n T h ext K O N i C calls :
  received n T h K O N i C calls → received n T (h ++ ext) K O N i C calls.
Proof.
  unfold received. destruct (Connected C); [|done]. destruct (Sub C); [done|].
  intros (New & Old & ? & ?). exists New, Old. split; [done|]. by apply snapshots_app.
Qed.

Lemma delivered_app n T h ext K O N i cs calls :
  delivered n T h K O N i cs calls → delivered n T (h ++ ext) K O N i cs calls.
Proof.
  revert i calls. induction cs as [|C rest IH]; intros i calls; [done|].
  intros (c1 & c2 & ? & ? & ?). exists c1, c2. split_and!; [done| |by apply IH].
  by apply received_app.
Qed.

(** One whole-store listener: two copies of the record, the first with the
    old value put back. *)
Lemma run_listener_Global n i K O N s :
  wf n (heap s) (State (this s)) →
  ∃ ext New Old,
    run_listener n i Global K O N s
      = Some (tt, mkSys (this s) (heap s ++ ext)
                        (trace s ++ [EvCall i (VTable New) (VTable Old)])) ∧
    snapshots n (state_tree n s) (heap s ++ ext) K O New Old.
Proof.
  intros Hwf. destruct s as [c h tr]. unfold state_tree. simpl in *.
  destruct (DeepCopy_spec _ _ _ Hwf) as (e1 & Hdc1 & Hwf1 & Hre1 & _ & Hsub1).
  destruct (wf_fuel _ _ _ Hwf) as [m ->].
  destruct Hwf1 as (t0 & Ht0 & Hall0).
  assert (∃ e1r, e1 = t0 :: e1r) as [e1r ->].
  { rewrite lookup_app_r, Nat.sub_diag in Ht0 by lia.
    destruct e1 as [|t' e1r]; [done|]. simpl in Ht0. injection Ht0 as ->. eauto. }
  set (to := tset t0 K O).
  assert (wf (S m) (h ++ to :: e1r) (State c)) as Hwf2 by by apply wf_reify_app.
  destruct (DeepCopy_spec _ _ _ Hwf2) as (e3 & Hdc3 & Hwf3 & Hre3 & _ & _).
  exists (to :: e1r ++ e3), (length (h ++ to :: e1r)), (length h). split.
  - unfold run_listener. unfold_M. simpl. rewrite Hdc1. simpl.
    rewrite heap_assign_middle. simpl. fold to. rewrite Hdc3. simpl.
    by rewrite <- (assoc_L (++)).
  - replace (h ++ to :: e1r ++ e3) with ((h ++ to :: e1r) ++ e3)
      by by rewrite <- (assoc_L (++)).
    split_and!; [done| |].
    { rewrite Hre3. by apply wf_reify_app. }
    exists to. split_and!.
    { apply lookup_app_l_Some. by apply list_lookup_middle. }
    { apply tget_tset_eq. }
    intros k Hk.
    assert (∀ b, to !! k = Some (VTable b) →
              ∀ x, reach (h ++ t0 :: e1r) b x →
                   (length h < x < length (h ++ t0 :: e1r))%nat) as Hin.
    { intros b Hb x Hx. unfold to in Hb. rewrite lookup_tset_ne in Hb by done. split.
      - eapply Hsub1; eauto.
      - eapply (wf_reach_lt (S m) _ (length h)); [by exists t0|].
        eapply reach_step; eauto. }
    assert (∀ b, to !! k = Some (VTable b) →
              ∀ x, reach (h ++ t0 :: e1r) b x →
                   ((h ++ to :: e1r) ++ e3) !! x = (h ++ t0 :: e1r) !! x) as Hag.
    { intros b Hb x Hx. rewrite <- (assoc_L (++)). simpl.
      apply lookup_behind. by eapply Hin. }
    split.
    + rewrite <- Hre1.
      rewrite (field_reify _ _ _ to)
        by (apply lookup_app_l_Some; by apply list_lookup_middle).
      rewrite (field_reify _ _ _ t0) by done.
      replace (to !! k) with (t0 !! k)
        by (unfold to; by rewrite lookup_tset_ne).
      destruct (t0 !! k) as [v|] eqn:Hv; [|done]. simpl. f_equal.
      destruct v; try by destruct m. apply reify_agree.
      apply Hag. unfold to. by rewrite lookup_tset_ne.
    + intros b Hb x Hx.
      assert (reach (h ++ t0 :: e1r) b x) as Hx'.
      { eapply reach_agree; [|done]. by apply Hag. }
      apply (Hin _ Hb) in Hx'. rewrite !length_app in *. simpl in *. lia.
Qed.

Lemma run_listeners_spec n K O N cs i s :
  wf n (heap s) (State (this s)) →
  ∃ ext calls,
    run_listeners n i cs K O N s
      = Some (tt, mkSys (this s) (heap s ++ ext) (trace s ++ calls)) ∧
    delivered n (state_tree n s) (heap s ++ ext) K O N i cs calls.
Proof.
  revert i s. induction cs as [|C rest IH]; intros i s Hwf.
  { exists [], []. simpl. unfold ret. rewrite !app_nil_r. by destruct s. }
  assert (∃ ext c1,
    (if Connected C then run_listener n i (Sub C) K O N else ret tt) s
      = Some (tt, mkSys (this s) (heap s ++ ext) (trace s ++ c1)) ∧
    received n (state_tree n s) (heap s ++ ext) K O N i C c1) as (e1 & c1 & Hrun & Hrec).
  { unfold received. destruct (Connected C).
    - destruct (Sub C) as [k|].
      + exists []. simpl. rewrite app_nil_r. case_decide.
        * eexists. split; [|done]. by unfold emit.
        * exists []. split; [|done]. unfold ret. rewrite app_nil_r. by destruct s.
      + destruct (run_listener_Global n i K O N s Hwf) as (ext & New & Old & ? & ?).
        eauto 10.
    - exists [], []. unfold ret. rewrite !app_nil_r. by destruct s. }
  set (s1 := mkSys (this s) (heap s ++ e1) (trace s ++ c1)) in *.
  destruct (wf_reify_app n _ e1 _ Hwf) as [Hwf1 Hre1].
  destruct (IH (S i) s1) as (e2 & c2 & Hrest & Hdel); [done|].
  assert (state_tree n s1 = state_tree n s) as HT by done.
  rewrite HT in Hdel. simpl in Hrest, Hdel.
  exists (e1 ++ e2), (c1 ++ c2). rewrite !(assoc_L (++)). split.
  - simpl. unfold mbind, M_bind. rewrite Hrun. exact Hrest.
  - exists c1, c2. split_and!; [done| |done]. by apply received_app.
Qed.

Lemma Fire_spec n K O N s :
  wf n (heap s) (State (this s)) →
  ∃ ext calls,
    Fire n K O N s
      = Some (tt, mkSys (this s) (heap s ++ ext) (trace s ++ EvFire K O N :: calls)) ∧
    delivered n (state_tree n s) (heap s ++ ext) K O N 0 (Connections (this s)) calls.
Proof.
  intros Hwf. unfold Fire. unfold_M. simpl.
  destruct (run_listeners_spec n K O N (Connections (this s)) 0
              (mkSys (this s) (heap s) (trace s ++ [EvFire K O N])) Hwf)
    as (ext & calls & Hrun & Hdel).
  exists ext, calls. simpl in *. rewrite Hrun. rewrite <- (assoc_L (++)). done.
Qed.

(** Every delivered event is a call by one of the connections. *)
Lemma delivered_calls n T h K O N i cs calls :
  delivered n T h K O N i cs calls →
  Forall (λ e, ∃ j a b, e = EvCall j a b ∧ (i ≤ j < i + length cs)%nat) calls.
Proof.
  revert i calls. induction cs as [|C rest IH]; intros i calls.
  { intros ->. constructor. }
  intros (c1 & c2 & -> & Hrec & Hdel). apply Forall_app. split.
  - unfold received in Hrec. simpl. destruct (Connected C).
    + destruct (Sub C).
      * case_decide; subst c1; repeat constructor. eexists _, _, _. split; [done|lia].
      * destruct Hrec as (? & ? & -> & _). repeat constructor.
        eexists _, _, _. split; [done|lia].
    + subst c1. constructor.
  - eapply Forall_impl; [by apply IH|]. simpl.
    intros e (j & a & b & -> & ?). eexists _, _, _. split; [done|lia].
Qed.

Lemma delivered_no_warn n T h K O N i cs calls :
  delivered n T h K O N i cs calls → filter (λ e, is_warn e = true) calls = [].
Proof.
  intros Hd%delivered_calls. induction Hd as [|e l (j & a & b & -> & _) _ IH]; [done|].
  by rewrite filter_cons_False.
Qed.

Lemma delivered_no_fire n T h K O N i cs calls :
  delivered n T h K O N i cs calls → filter (λ e, is_fire e = true) calls = [].
Proof.
  intros Hd%delivered_calls. induction Hd as [|e l (j & a & b & -> & _) _ IH]; [done|].
  by rewrite filter_cons_False.
Qed.

Lemma calls_filter_out (x lo hi : nat) calls :
  Forall (λ e, ∃ j a b, e = EvCall j a b ∧ (lo ≤ j < hi)%nat) calls →
  ¬ (lo ≤ x < hi)%nat →
  filter (λ e, is_call_of x e = true) calls = [].
Proof.
  intros Hall Hx. induction Hall as [|e l (j & a & b & -> & Hj) _ IH]; [done|].
  rewrite filter_cons_False; [done|]. simpl. rewrite bool_decide_eq_true. lia.
Qed.

(** What the connection at position [j] receives. *)
Lemma delivered_at n T h K O N i cs calls j C :
  delivered n T h K O N i cs calls →
  cs !! j = Some C →
  received n T h K O N (i + j) C (filter (λ e, is_call_of (i + j) e = true) calls).
Proof.
  revert i calls j. induction cs as [|C' rest IH]; intros i calls j Hdel Hj; [done|].
  destruct Hdel as (c1 & c2 & -> & Hrec & Hdel). rewrite filter_app.
  destruct j as [|j]; simpl in Hj.
  - injection Hj as ->. rewrite Nat.add_0_r.
    rewrite (calls_filter_out i (S i) (S i + length rest) c2);
      [|by eapply delivered_calls|lia].
    rewrite app_nil_r.
    assert (filter (λ e, is_call_of i e = true) c1 = c1) as ->; [|done].
    unfold received in Hrec. destruct (Connected C); [|by subst].
    destruct (Sub C).
    + case_decide; subst c1; [|done]. rewrite filter_cons_True; [done|].
      simpl. by rewrite bool_decide_eq_true.
    + destruct Hrec as (? & ? & -> & _). rewrite filter_cons_True; [done|].
      simpl. by rewrite bool_decide_eq_true.
  - assert (filter (λ e, is_call_of (i + S j) e = true) c1 = []) as ->.
    { apply (calls_filter_out _ i (S i)); [|lia].
      unfold received in Hrec. destruct (Connected C'); [|subst; constructor].
      destruct (Sub C').
      - case_decide; subst c1; repeat constructor. eexists _, _, _. split; [done|lia].
      - destruct Hrec as (? & ? & -> & _). repeat constructor.
        eexists _, _, _. split; [done|lia]. }
    simpl. replace (i + S j)%nat with (S i + j)%nat by lia. by apply IH.
Qed.

Lemma wfb_wf n h a : wfb n h a = true → wf n h a.
Proof.
  revert a. induction n as [|n IH]; intros a; [done|]. simpl.
  destruct (h !! a) as [t|]; [|done]. intros Hall. exists t. split; [done|].
  intros k v Hkv%elem_of_map_to_list.
  rewrite forallb_forall in Hall. apply list_elem_of_In, Hall in Hkv.
  apply andb_prop in Hkv as [Hnil Hv]. simpl in *.
  apply negb_true_iff, bool_decide_eq_false in Hnil. split; [done|].
  destruct v; try done. by apply IH.
Qed.

Lemma new_Crate_player : new_Crate 2 0 false player_heap = Some player.
Proof. by vm_compute. Qed.

Lemma heap_assign_spec h a k v h1 :
  heap_assign h a k v = Some h1 →
  heap_index h1 a k = Some v ∧
  (∀ k', k' ≠ k → heap_index h1 a k' = heap_index h a k') ∧
  (∀ b, b ≠ a → h1 !! b = h !! b) ∧
  length h1 = length h.
Proof.
  unfold heap_assign, heap_index. destruct (h !! a) as [t|] eqn:Ht; [|done].
  intros [= <-]. apply lookup_lt_Some in Ht as Hlt.
  rewrite list_lookup_insert_eq by done. split_and!.
  - by rewrite tget_tset_eq.
  - intros k' Hk'. by rewrite tget_tset_ne.
  - intros b Hb. by rewrite list_lookup_insert_ne.
  - apply length_insert.
Qed.

Lemma heap_index_is_Some h a k v w :
  heap_index h a k = Some v → ∃ h1, heap_assign h a k w = Some h1.
Proof. unfold heap_index, heap_assign. destruct (h !! a); [eauto|done]. Qed.

Lemma heap_index_app h ext a k :
  (a < length h)%nat → heap_index (h ++ ext) a k = heap_index h a k.
Proof. intros Ha. unfold heap_index. by rewrite lookup_app_l. Qed.

Lemma heap_index_lt h a k v : heap_index h a k = Some v → (a < length h)%nat.
Proof.
  unfold heap_index. destruct (h !! a) eqn:Ha; [|done]. intros _.
  by eapply lookup_lt_Some.
Qed.

(** ** Update *)

(** On a locked key [Update] passes a line to [Log] and returns nothing. *)
Lemma Update_locked fuel Key Value s :
  Key ∈ LockedKeys (this s) →
  Update fuel Key Value s =
    Some (VNil, add_trace s (if IsVerbose (this s)
                             then [EvWarn true (MsgLocked Key Value)] else [])).
Proof.
  intros Hk. unfold Update. unfold_M. rewrite decide_True by done.
  rewrite Log_eq. simpl. by destruct (IsVerbose (this s)).
Qed.

(** C1. On a locked key, [Update] is to log, leave the record alone, notify
    nobody and return the current value. The verbose player's [Health] is
    locked and is 100: [Update("Health", 5)] logs one line, changes nothing
    and notifies nobody, but what it returns is [nil], not 100. *)
Theorem Update_locked_returns_nil :
  Health ∈ LockedKeys (this player_verbose_health_locked) ∧
  heap_index (heap player_verbose_health_locked)
    (State (this player_verbose_health_locked)) Health = Some (VNum 100) ∧
  ∀ fuel,
    Update fuel Health (VNum 5) player_verbose_health_locked =
      Some (VNil, add_trace player_verbose_health_locked
                    [EvWarn true (MsgLocked Health (VNum 5))]).
Proof.
  split_and!; [by vm_compute|run|].
  intros fuel. by rewrite Update_locked by by vm_compute.
Qed.

Lemma fires_app tr1 tr2 : fires (tr1 ++ tr2) = fires tr1 ++ fires tr2.
Proof. apply filter_app. Qed.

Lemma warnings_app tr1 tr2 : warnings (tr1 ++ tr2) = warnings tr1 ++ warnings tr2.
Proof. apply filter_app. Qed.

Lemma calls_of_app i tr1 tr2 : calls_of i (tr1 ++ tr2) = calls_of i tr1 ++ calls_of i tr2.
Proof. apply filter_app. Qed.

Lemma fires_warns warns : Forall (λ e, is_warn e = true) warns → fires warns = [].
Proof.
  induction 1 as [|e l He _ IH]; [done|]. unfold fires in *.
  rewrite filter_cons_False; [done|]. by destruct e.
Qed.

Lemma calls_of_warns i warns : Forall (λ e, is_warn e = true) warns → calls_of i warns = [].
Proof.
  induction 1 as [|e l He _ IH]; [done|]. unfold calls_of in *.
  rewrite filter_cons_False; [done|]. by destruct e.
Qed.

(** The tail shared by [Update] and [Increment]: assign, fire, return the
    old value. *)
Lemma commit_spec fuel s Key Old Result h1 :
  heap_assign (heap s) (State (this s)) Key Result = Some h1 →
  wf fuel h1 (State (this s)) →
  ∃ ext calls,
    (assign (State (this s)) Key Result;; Fire fuel Key Old Result;; ret Old) s
      = Some (Old, mkSys (this s) (h1 ++ ext)
                         (trace s ++ EvFire Key Old Result :: calls)) ∧
    delivered fuel (reify fuel h1 (VTable (State (this s)))) (h1 ++ ext)
      Key Old Result 0 (Connections (this s)) calls.
Proof.
  intros Hassign Hwf.
  destruct (Fire_spec fuel Key Old Result (mkSys (this s) h1 (trace s)) Hwf)
    as (ext & calls & HFire & Hdel).
  exists ext, calls. split; [|done].
  unfold mbind, M_bind, assign. rewrite Hassign. simpl in *. by rewrite HFire.
Qed.

Lemma Update_unlocked_eq fuel s Key Value Old Result s1 :
  Key ∉ LockedKeys (this s) →
  heap_index (heap s) (State (this s)) Key = Some Old →
  ExecuteMiddleware Key Value Old s = Some (Result, s1) →
  Update fuel Key Value s =
    if raw_equal Result Old then Some (Old, s1)
    else (assign (State (this s)) Key Result;; Fire fuel Key Old Result;; ret Old) s1.
Proof.
  intros Hk HOld HMw. unfold Update, mbind, M_bind, get_this, index.
  rewrite decide_False by done. rewrite HOld, HMw. by destruct (raw_equal _ _).
Qed.

(** The two ways an [Update] of a key that is not locked can go. *)
Lemma Update_unchanged fuel s Key Value Old Result s1 :
  Key ∉ LockedKeys (this s) →
  heap_index (heap s) (State (this s)) Key = Some Old →
  ExecuteMiddleware Key Value Old s = Some (Result, s1) →
  raw_equal Result Old = true →
  Update fuel Key Value s = Some (Old, s1) ∧
  this s1 = this s ∧ heap s1 = heap s ∧ fires (trace s1) = fires (trace s).
Proof.
  intros Hk HOld HMw Heq. rewrite (Update_unlocked_eq _ _ _ _ _ _ _ Hk HOld HMw).
  destruct (ExecuteMiddleware_eq Key Value Old s) as (R & warns & HMw' & Hwarns & _).
  rewrite HMw in HMw'. injection HMw' as <- ->.
  rewrite Heq. split_and!; [done..|].
  cbn [add_trace trace]. rewrite fires_app, (fires_warns warns) by done.
  by rewrite app_nil_r.
Qed.

Lemma Update_changed fuel s Key Value Old Result s1 :
  Key ∉ LockedKeys (this s) →
  heap_index (heap s) (State (this s)) Key = Some Old →
  ExecuteMiddleware Key Value Old s = Some (Result, s1) →
  raw_equal Result Old = false →
  wf fuel (assigned (heap s) (State (this s)) Key Result) (State (this s)) →
  ∃ s2,
    Update fuel Key Value s = Some (Old, s2) ∧
    this s2 = this s ∧
    heap_index (heap s2) (State (this s)) Key = Some Result ∧
    (∀ k, k ≠ Key →
       heap_index (heap s2) (State (this s)) k = heap_index (heap s) (State (this s)) k) ∧
    fires (trace s2) = fires (trace s) ++ [EvFire Key Old Result].
Proof.
  intros Hk HOld HMw Hne Hwf. rewrite (Update_unlocked_eq _ _ _ _ _ _ _ Hk HOld HMw).
  destruct (ExecuteMiddleware_eq Key Value Old s) as (R & warns & HMw' & Hwarns & _).
  rewrite HMw in HMw'. injection HMw' as <- ->.
  rewrite Hne.
  destruct (heap_index_is_Some _ _ _ _ Result HOld) as [h1 Hassign].
  unfold assigned in Hwf. rewrite Hassign in Hwf.
  destruct (commit_spec fuel (add_trace s warns) Key Old Result h1 Hassign Hwf)
    as (ext & calls & Hcommit & Hdel).
  eexists. split_and!; [exact Hcommit|done|..].
  - simpl. apply heap_assign_spec in Hassign as (Hi & _ & _ & Hlen).
    rewrite heap_index_app; [done|]. rewrite Hlen. by eapply heap_index_lt.
  - intros k Hne'. simpl. apply heap_assign_spec in Hassign as (_ & Ho & _ & Hlen).
    rewrite heap_index_app; [by apply Ho|]. rewrite Hlen. by eapply heap_index_lt.
  - cbn [add_trace trace]. rewrite !fires_app, (fires_warns warns) by done.
    rewrite app_nil_r. f_equal. unfold fires. rewrite filter_cons_True by done.
    f_equal. by eapply delivered_no_fire.
Qed.

(** C2. [Update] on a key that is not locked, with [Result] what the
    middleware makes of the candidate. If [Result === Old] (the same scalar,
    or the same table: tables are compared by address, not by what they
    hold) nothing is assigned and nothing fired, and the current value is
    returned. Otherwise [Result] is assigned to the key, the other keys keep
    their values, exactly one notification [(Key, Old, Result)] is fired,
    and the old value is returned. *)
Theorem Update_unlocked fuel s Key Value Old Result s1 :
  Key ∉ LockedKeys (this s) →
  heap_index (heap s) (State (this s)) Key = Some Old →
  ExecuteMiddleware Key Value Old s = Some (Result, s1) →
  (raw_equal Result Old = true →
     Update fuel Key Value s = Some (Old, s1) ∧
     this s1 = this s ∧ heap s1 = heap s ∧ fires (trace s1) = fires (trace s)) ∧
  (raw_equal Result Old = false →
     wf fuel (assigned (heap s) (State (this s)) Key Result) (State (this s)) →
     ∃ s2,
       Update fuel Key Value s = Some (Old, s2) ∧
       this s2 = this s ∧
       heap_index (heap s2) (State (this s)) Key = Some Result ∧
       (∀ k, k ≠ Key →
          heap_index (heap s2) (State (this s)) k = heap_index (heap s) (State (this s)) k) ∧
       fires (trace s2) = fires (trace s) ++ [EvFire Key Old Result]).
Proof.
  intros Hk HOld HMw. split.
  - intros Heq. by apply (Update_unchanged _ _ _ Value _ Result).
  - intros Hne Hwf. by apply (Update_changed _ _ _ Value _ _ s1).
Qed.

(** [Health] is clamped to 0..100 and is 100. [Update("Health", 150)]
    resolves to 100 and does nothing; [Update("Health", -10)] sets it to 0
    and returns 100. [Items] is table 1; table 3 holds the same items, and
    [Update("Items", <table 3>)] assigns it and fires. *)
Lemma Update_unlocked_witness :
  Update 2 Health (VNum 150) player_observed = Some (VNum 100, player_observed) ∧
  (∃ s2, Update 2 Health (VNum (-10)) player_observed = Some (VNum 100, s2) ∧
         heap_index (heap s2) (State (this player_observed)) Health = Some (VNum 0) ∧
         heap_index (heap s2) (State (this player_observed)) Name = Some (VStr "Paul") ∧
         fires (trace s2)
           = fires (trace player_observed) ++ [EvFire Health (VNum 100) (VNum 0)]) ∧
  reify 2 (heap player_observed) (VTable 3) = reify 2 (heap player_observed) (VTable 1) ∧
  (∃ s2, Update 2 Items (VTable 3) player_observed = Some (VTable 1, s2) ∧
         heap_index (heap s2) (State (this player_observed)) Items = Some (VTable 3) ∧
         fires (trace s2)
           = fires (trace player_observed) ++ [EvFire Items (VTable 1) (VTable 3)]).
Proof.
  split_and!.
  - destruct (Update_unlocked 2 player_observed Health (VNum 150) (VNum 100) (VNum 100)
                player_observed) as [H _]; [run..|].
    destruct H as [H _]; [reflexivity|exact H].
  - destruct (Update_unlocked 2 player_observed Health (VNum (-10)) (VNum 100) (VNum 0)
                player_observed) as [_ H]; [run..|].
    destruct H as (s2 & H1 & H2 & H3 & H4 & H5);
      [reflexivity|apply wfb_wf; run|].
    exists s2. split_and!; [exact H1|exact H3| |exact H5].
    etrans; [apply (H4 Name); discriminate|run].
  - run.
  - destruct (Update_unlocked 2 player_observed Items (VTable 3) (VTable 1) (VTable 3)
                player_observed) as [_ H]; [run..|].
    destruct H as (s2 & H1 & H2 & H3 & H4 & H5);
      [reflexivity|apply wfb_wf; run|].
    exists s2. split_and!; [exact H1|exact H3|exact H5].
Defined.

(** ** Increment *)

Lemma Increment_number_eq fuel s Key Amount n Result s1 :
  Key ∉ LockedKeys (this s) →
  heap_index (heap s) (State (this s)) Key = Some (VNum n) →
  ExecuteMiddleware Key (VNum (num_add n Amount)) (VNum n) s = Some (Result, s1) →
  Increment fuel Key Amount s =
    (assign (State (this s)) Key Result;; Fire fuel Key (VNum n) Result;; ret (VNum n)) s1.
Proof.
  intros Hk HOld HMw. unfold Increment, mbind, M_bind, get_this, index.
  rewrite decide_False by done. by rewrite HOld, HMw.
Qed.

(** C3. [Increment] on a key that is not locked and holds the number [n].
    [Result] is what the middleware of the key returns for the candidate
    [n + Amount] (a sum of doubles) and the current value [n], the candidate
    itself when the key has no middleware. [Result] is assigned to the key,
    the other keys keep their values, exactly one notification
    [(Key, n, Result)] is fired whatever [Result] is, also when it is [n]
    again, and [n] is returned. *)
Theorem Increment_number fuel s Key Amount n Result :
  Key ∉ LockedKeys (this s) →
  heap_index (heap s) (State (this s)) Key = Some (VNum n) →
  Result = resolve (this s) Key (VNum (num_add n Amount)) (VNum n) →
  wf fuel (assigned (heap s) (State (this s)) Key Result) (State (this s)) →
  ∃ s2,
    Increment fuel Key Amount s = Some (VNum n, s2) ∧
    this s2 = this s ∧
    heap_index (heap s2) (State (this s)) Key = Some Result ∧
    (∀ k, k ≠ Key →
       heap_index (heap s2) (State (this s)) k = heap_index (heap s) (State (this s)) k) ∧
    fires (trace s2) = fires (trace s) ++ [EvFire Key (VNum n) Result].
Proof.
  intros Hk HOld -> Hwf.
  destruct (ExecuteMiddleware_resolve Key (VNum (num_add n Amount)) (VNum n) s)
    as (warns & HMw & Hwarns).
  rewrite (Increment_number_eq _ _ _ _ _ _ _ Hk HOld HMw).
  set (Result := resolve (this s) Key (VNum (num_add n Amount)) (VNum n)) in *.
  destruct (heap_index_is_Some _ _ _ _ Result HOld) as [h1 Hassign].
  unfold assigned in Hwf. rewrite Hassign in Hwf.
  destruct (commit_spec fuel (add_trace s warns) Key (VNum n) Result h1 Hassign Hwf)
    as (ext & calls & Hcommit & Hdel).
  eexists. split_and!; [exact Hcommit|done|..].
  - simpl. apply heap_assign_spec in Hassign as (Hi & _ & _ & Hlen).
    rewrite heap_index_app; [done|]. rewrite Hlen. by eapply heap_index_lt.
  - intros k Hne'. simpl. apply heap_assign_spec in Hassign as (_ & Ho & _ & Hlen).
    rewrite heap_index_app; [by apply Ho|]. rewrite Hlen. by eapply heap_index_lt.
  - cbn [add_trace trace]. rewrite !fires_app, (fires_warns warns) by done.
    rewrite app_nil_r. f_equal. unfold fires. rewrite filter_cons_True by done.
    f_equal. by eapply delivered_no_fire.
Qed.

(** [Health] is 100. Without a middleware, [Increment("Health", 5)] stores
    105 and [Increment("Health", 0.5)] stores 100.5. With [Health] clamped to
    0..100, [Increment("Health", 5)] stores 100 again and still fires. *)
Lemma Increment_number_witness :
  (∃ s2, Increment 2 Health 5 player = Some (VNum 100, s2) ∧
         heap_index (heap s2) (State (this player)) Health = Some (VNum 105) ∧
         fires (trace s2) = [EvFire Health (VNum 100) (VNum 105)]) ∧
  (∃ s2, Increment 2 Health half player = Some (VNum 100, s2) ∧
         heap_index (heap s2) (State (this player)) Health
           = Some (VNum (num_div 201 2)) ∧
         fires (trace s2) = [EvFire Health (VNum 100) (VNum (num_div 201 2))]) ∧
  (∃ s2, Increment 2 Health 5 player_observed = Some (VNum 100, s2) ∧
         heap_index (heap s2) (State (this player_observed)) Health = Some (VNum 100) ∧
         fires (trace s2)
           = fires (trace player_observed) ++ [EvFire Health (VNum 100) (VNum 100)]).
Proof.
  split_and!.
  - destruct (Increment_number 2 player Health 5 100 (VNum 105))
      as (s2 & H1 & H2 & H3 & H4 & H5); [run|run|run|apply wfb_wf; run|].
    exists s2. split_and!; [exact H1|exact H3|exact H5].
  - destruct (Increment_number 2 player Health half 100 (VNum (num_div 201 2)))
      as (s2 & H1 & H2 & H3 & H4 & H5); [run|run|run|apply wfb_wf; run|].
    exists s2. split_and!; [exact H1|exact H3|exact H5].
  - destruct (Increment_number 2 player_observed Health 5 100 (VNum 100))
      as (s2 & H1 & H2 & H3 & H4 & H5); [run|run|run|apply wfb_wf; run|].
    exists s2. split_and!; [exact H1|exact H3|exact H5].
Defined.

(** What [Increment] does when the key does not hold a number. *)
Lemma Increment_not_number_eq fuel s Key Amount v :
  heap_index (heap s) (State (this s)) Key = Some v →
  is_number v = false →
  Increment fuel Key Amount s =
    if decide (Key ∈ LockedKeys (this s)) then Some (v, s)
    else Some (v, add_trace s (if IsVerbose (this s)
                               then [EvWarn true (MsgNotNumber Key)] else [])).
Proof.
  intros Hv Hn. unfold Increment, mbind, M_bind, get_this.
  case_decide; unfold index; rewrite Hv; [done|].
  destruct v; try done; rewrite Log_eq; cbn [add_trace heap this]; rewrite Hv;
    by destruct (IsVerbose (this s)).
Qed.

(** C4, as amended. When the key does not hold a number, [Increment] leaves
    the crate and the heap as they are, fires nothing and returns the
    current value; on a locked key it logs nothing, and on a key that is not
    locked it gives [warn], in a verbose crate, exactly one line. *)
Theorem Increment_not_number fuel s Key Amount v :
  heap_index (heap s) (State (this s)) Key = Some v →
  is_number v = false →
  ∃ s',
    Increment fuel Key Amount s = Some (v, s') ∧
    this s' = this s ∧ heap s' = heap s ∧ fires (trace s') = fires (trace s) ∧
    (Key ∈ LockedKeys (this s) → trace s' = trace s) ∧
    (Key ∉ LockedKeys (this s) → IsVerbose (this s) = true →
       trace s' = trace s ++ [EvWarn true (MsgNotNumber Key)]).
Proof.
  intros Hv Hn. rewrite (Increment_not_number_eq _ _ _ _ _ Hv Hn).
  case_decide as Hk.
  - exists s. by split_and!.
  - eexists. split_and!; [done..| |done|].
    + cbn [add_trace trace]. rewrite fires_app.
      destruct (IsVerbose (this s)); simpl; by rewrite app_nil_r.
    + intros _ ->. done.
Qed.

Lemma Increment_not_number_witness :
  ∃ s', Increment 2 Name 1 (after Verbose player) = Some (VStr "Paul", s') ∧
        heap s' = heap (after Verbose player) ∧
        trace s' = trace (after Verbose player) ++ [EvWarn true (MsgNotNumber Name)].
Proof.
  destruct (Increment_not_number 2 (after Verbose player) Name 1 (VStr "Paul"))
    as (s' & H1 & H2 & H3 & H4 & H5 & H6); [run|run|].
  exists s'. split_and!; [exact H1|exact H3|].
  apply H6; run.
Defined.

(** C4, as stated, asks for exactly one log line whenever the key holds no
    number. [Name] holds a string and is locked in a verbose crate:
    [Increment("Name", 1)] returns ["Paul"] and logs nothing. *)
Lemma Increment_not_number_locked_silent :
  heap_index (heap player_verbose_locked) (State (this player_verbose_locked)) Name
    = Some (VStr "Paul") ∧
  is_number (VStr "Paul") = false ∧
  ∀ fuel, ∃ s',
    Increment fuel Name 1 player_verbose_locked = Some (VStr "Paul", s') ∧
    warnings (trace s') = warnings (trace player_verbose_locked) ∧
    ¬ ∃ e, trace s' = trace player_verbose_locked ++ [e].
Proof.
  split_and!; [run|run|]. intros fuel. exists player_verbose_locked. split_and!.
  - rewrite (Increment_not_number_eq _ _ _ _ (VStr "Paul")); [|run|run].
    rewrite decide_True; [done|]. by vm_compute.
  - done.
  - intros [e He]. by vm_compute in He.
Qed.

(** ** Locks *)

Lemma add_each_spec entries locked :
  add_each entries locked = locked ∪ list_to_set entries.*1.
Proof.
  revert locked. induction entries as [|[k v] rest IH]; intros locked; simpl.
  - by rewrite (right_id_L ∅ (∪)).
  - by rewrite IH, (assoc_L (∪)).
Qed.

Lemma delete_each_spec entries locked :
  delete_each entries locked = locked ∖ list_to_set entries.*1.
Proof.
  revert locked. induction entries as [|[k v] rest IH]; intros locked; simpl.
  - by rewrite difference_empty_L.
  - rewrite IH. apply set_eq. intros x.
    rewrite !elem_of_difference, elem_of_union. tauto.
Qed.

Lemma has_each_spec entries locked :
  has_each entries locked = true ↔ ∀ k, k ∈ entries.*1 → k ∈ locked.
Proof.
  induction entries as [|[k v] rest IH]; simpl.
  - split; [|done]. intros _ k Hk. by apply elem_of_nil in Hk.
  - case_decide as Hk.
    + rewrite IH. split.
      * intros Hall k' [->|Hk']%elem_of_cons; [done|by apply Hall].
      * intros Hall k' Hk'. apply Hall. by right.
    + split; [done|]. intros Hall. exfalso. apply Hk, Hall. by left.
Qed.

Lemma keys_map_to_list (t : gmap key value) :
  list_to_set (map_to_list t).*1 = dom t.
Proof.
  apply set_eq. intros k. rewrite elem_of_list_to_set, elem_of_dom. split.
  - intros ([k' v] & -> & Hkv%elem_of_map_to_list)%list_elem_of_fmap. eauto.
  - intros [v Hv]. apply list_elem_of_fmap. exists (k, v).
    split; [done|]. by apply elem_of_map_to_list.
Qed.

(** The whole-crate forms range over the keys of the live record. *)
Lemma Lock_all_eq s t :
  heap s !! State (this s) = Some t →
  Lock None s =
    Some (tt, mkSys (with_LockedKeys (LockedKeys (this s) ∪ dom t) (this s))
                    (heap s) (trace s)).
Proof.
  intros Ht. unfold Lock, mbind, M_bind, get_this, pairs, heap_pairs, set_this.
  rewrite Ht. by rewrite add_each_spec, keys_map_to_list.
Qed.

Lemma Unlock_all_eq s t :
  heap s !! State (this s) = Some t →
  Unlock None s =
    Some (tt, mkSys (with_LockedKeys (LockedKeys (this s) ∖ dom t) (this s))
                    (heap s) (trace s)).
Proof.
  intros Ht. unfold Unlock, mbind, M_bind, get_this, pairs, heap_pairs, set_this.
  rewrite Ht. by rewrite delete_each_spec, keys_map_to_list.
Qed.

Lemma IsLocked_all_eq s t :
  heap s !! State (this s) = Some t →
  IsLocked None s = Some (bool_decide (dom t ⊆ LockedKeys (this s)), s).
Proof.
  intros Ht. unfold IsLocked, mbind, M_bind, get_this, pairs, heap_pairs, ret.
  rewrite Ht. do 2 f_equal.
  destruct (has_each _ _) eqn:Hhas; symmetry.
  - apply bool_decide_eq_true. pose proof (proj1 (has_each_spec _ _) Hhas) as Hall.
    intros k Hk. apply Hall. rewrite <- keys_map_to_list in Hk.
    by apply elem_of_list_to_set in Hk.
  - apply bool_decide_eq_false. intros Hsub.
    assert (has_each (map_to_list t) (LockedKeys (this s)) = true); [|congruence].
    apply has_each_spec. intros k Hk. apply Hsub.
    rewrite <- keys_map_to_list. by apply elem_of_list_to_set.
Qed.

Lemma IsLocked_key_eq s k :
  IsLocked (Some k) s = Some (bool_decide (k ∈ LockedKeys (this s)), s).
Proof. done. Qed.

Lemma Unlock_key_eq s k :
  Unlock (Some k) s =
    Some (tt, mkSys (with_LockedKeys (LockedKeys (this s) ∖ {[k]}) (this s))
                    (heap s) (trace s)).
Proof. done. Qed.

(** C5. With [Schema] the keys of the record: [IsLocked()] is true exactly
    when [IsLocked(k)] is true for every key [k] of the schema; after
    [Lock()] it is true; and after a further [Unlock(k)] of any key of the
    schema it is false. *)
Theorem IsLocked_all_iff_each s t (Schema : gset key) :
  heap s !! State (this s) = Some t →
  dom t = Schema →
  (∃ b, IsLocked None s = Some (b, s) ∧
        (b = true ↔ ∀ k, k ∈ Schema → IsLocked (Some k) s = Some (true, s))) ∧
  (∃ s1, Lock None s = Some (tt, s1) ∧
         IsLocked None s1 = Some (true, s1) ∧
         ∀ k, k ∈ Schema →
           ∃ s2, Unlock (Some k) s1 = Some (tt, s2) ∧
                 IsLocked None s2 = Some (false, s2)).
Proof.
  intros Ht <-. split.
  - eexists. split; [by apply IsLocked_all_eq|].
    rewrite bool_decide_eq_true. split.
    + intros Hsub k Hk. rewrite IsLocked_key_eq. do 2 f_equal.
      apply bool_decide_eq_true. by apply Hsub.
    + intros Hall k Hk. specialize (Hall k Hk). rewrite IsLocked_key_eq in Hall.
      injection Hall as Hall. by apply bool_decide_eq_true in Hall.
  - eexists. split; [by apply Lock_all_eq|]. split.
    + rewrite (IsLocked_all_eq _ t) by done. do 2 f_equal.
      apply bool_decide_eq_true. simpl. set_solver.
    + intros k Hk. eexists. split; [apply Unlock_key_eq|].
      rewrite (IsLocked_all_eq _ t) by done. do 2 f_equal.
      apply bool_decide_eq_false. simpl. set_solver.
Qed.

Lemma IsLocked_all_iff_each_witness :
  (∃ b, IsLocked None player_locked = Some (b, player_locked) ∧
        (b = true ↔ ∀ k, k ∈ ({[Health; Name; Items]} : gset key) →
                         IsLocked (Some k) player_locked = Some (true, player_locked))) ∧
  (∃ s1, Lock None player_locked = Some (tt, s1) ∧
         IsLocked None s1 = Some (true, s1) ∧
         ∀ k, k ∈ ({[Health; Name; Items]} : gset key) →
           ∃ s2, Unlock (Some k) s1 = Some (tt, s2) ∧
                 IsLocked None s2 = Some (false, s2)).
Proof.
  apply (IsLocked_all_iff_each player_locked player_record).
  - reflexivity.
  - unfold player_record. rewrite !dom_insert_L, dom_singleton_L. set_solver.
Defined.

(** C10. [Lock()], [Unlock()] and [IsLocked()] enumerate the keys of the
    table that is the record when they are called: [Lock()] adds exactly
    those keys to [LockedKeys], [Unlock()] removes exactly those, and
    [IsLocked()] is true exactly when all of them are locked. After
    [Overwrite] they range over the keys of the new record. *)
Theorem whole_crate_forms_use_live_keys s t :
  heap s !! State (this s) = Some t →
  Lock None s =
    Some (tt, mkSys (with_LockedKeys (LockedKeys (this s) ∪ dom t) (this s))
                    (heap s) (trace s)) ∧
  Unlock None s =
    Some (tt, mkSys (with_LockedKeys (LockedKeys (this s) ∖ dom t) (this s))
                    (heap s) (trace s)) ∧
  (∃ b, IsLocked None s = Some (b, s) ∧
        (b = true ↔ ∀ k, k ∈ dom t → k ∈ LockedKeys (this s))) ∧
  ∀ NewState t',
    heap s !! NewState = Some t' →
    ∃ s', Overwrite NewState s = Some (tt, s') ∧
          LockedKeys (this s') = LockedKeys (this s) ∧
          Lock None s' =
            Some (tt, mkSys (with_LockedKeys (LockedKeys (this s) ∪ dom t') (this s'))
                            (heap s') (trace s')) ∧
          Unlock None s' =
            Some (tt, mkSys (with_LockedKeys (LockedKeys (this s) ∖ dom t') (this s'))
                            (heap s') (trace s')) ∧
          ∃ b, IsLocked None s' = Some (b, s') ∧
               (b = true ↔ ∀ k, k ∈ dom t' → k ∈ LockedKeys (this s)).
Proof.
  intros Ht. split_and!.
  - by apply Lock_all_eq.
  - by apply Unlock_all_eq.
  - eexists. split; [by apply IsLocked_all_eq|]. by rewrite bool_decide_eq_true.
  - intros NewState t' Ht'. eexists. split; [done|]. split; [done|].
    set (s' := mkSys (with_State NewState (this s)) (heap s) (trace s)).
    assert (heap s' !! State (this s') = Some t') as Hs' by done.
    split_and!.
    + by rewrite (Lock_all_eq s' t').
    + by rewrite (Unlock_all_eq s' t').
    + eexists. split; [by apply IsLocked_all_eq|]. by rewrite bool_decide_eq_true.
Qed.

(** The record is overwritten with the table of items, whose only key is 1:
    [Lock()] then locks 1 and none of [Health], [Name], [Items]. *)
Lemma whole_crate_forms_use_live_keys_witness :
  ∃ s' s'',
    Overwrite 1 player = Some (tt, s') ∧
    Lock None s' = Some (tt, s'') ∧
    LockedKeys (this s'') = {[KNum 1]} ∧
    ∃ b, IsLocked None s' = Some (b, s') ∧
         (b = true ↔ ∀ k, k ∈ dom player_items → k ∈ LockedKeys (this player)).
Proof.
  destruct (whole_crate_forms_use_live_keys player player_record) as (_ & _ & _ & H);
    [reflexivity|].
  destruct (H 1%nat player_items) as (s' & H1 & H2 & H3 & H4 & H5); [reflexivity|].
  exists s'. eexists. split_and!; [exact H1|exact H3| |exact H5].
  simpl. unfold player_items. rewrite dom_singleton_L. set_solver.
Defined.

(** ** Get *)

(** A well-formed table keeps its structure in any heap that agrees with
    the old one on the old addresses. *)
Lemma reify_old_tables n h h' a :
  wf n h a →
  (∀ b, (b < length h)%nat → h' !! b = h !! b) →
  reify n h' (VTable a) = reify n h (VTable a).
Proof.
  intros Hwf Hag. apply reify_agree. intros b Hb. apply Hag. by eapply wf_reach_lt.
Qed.

(** C6. [Get()] returns a new table with the structure of the record, all
    of whose tables, at any depth, were allocated by the call: assigning to
    any of them, or changing the new tables in any way, leaves the structure
    of the record as it was. [Get(k)] allocates nothing and returns the very
    value stored under [k]: when that is a table, an assignment through it
    is an assignment to the table the record holds. *)
Theorem Get_copy_and_live fuel s :
  wf fuel (heap s) (State (this s)) →
  (∃ c ext,
     Get fuel None s = Some (VTable c, mkSys (this s) (heap s ++ ext) (trace s)) ∧
     reify fuel (heap s ++ ext) (VTable c) = state_tree fuel s ∧
     (∀ b, reach (heap s ++ ext) c b → (length (heap s) ≤ b)%nat) ∧
     (∀ b k v h',
        reach (heap s ++ ext) c b →
        heap_assign (heap s ++ ext) b k v = Some h' →
        reify fuel h' (VTable (State (this s))) = state_tree fuel s) ∧
     (∀ h',
        (∀ a, (a < length (heap s))%nat → h' !! a = heap s !! a) →
        reify fuel h' (VTable (State (this s))) = state_tree fuel s)) ∧
  (∀ k, ∃ v,
     heap_index (heap s) (State (this s)) k = Some v ∧
     Get fuel (Some k) s = Some (v, s) ∧
     ∀ b k' w h',
       v = VTable b → b ≠ State (this s) →
       heap_assign (heap s) b k' w = Some h' →
       heap_index h' (State (this s)) k = Some (VTable b) ∧
       heap_index h' b k' = Some w).
Proof.
  intros Hwf. split.
  - destruct (DeepCopy_spec _ _ _ Hwf) as (ext & Hdc & Hwf' & Hre & Hfresh & _).
    exists (length (heap s)), ext. split_and!; [|done|done|..].
    + unfold Get, mbind, M_bind, get_this, deep_copy, ret. by rewrite Hdc.
    + intros b k v h' Hb Hassign. apply reify_old_tables; [done|].
      intros a Ha. apply heap_assign_spec in Hassign as (_ & _ & Hoth & _).
      rewrite Hoth; [by apply lookup_app_l|]. apply Hfresh in Hb. lia.
    + intros h' Hag. by apply reify_old_tables.
  - intros k. destruct (wf_lookup _ _ _ Hwf) as [t Ht].
    exists (tget t k). split_and!.
    + unfold heap_index. by rewrite Ht.
    + unfold Get, mbind, M_bind, get_this, index, heap_index. by rewrite Ht.
    + intros b k' w h' Hv Hne Hassign.
      apply heap_assign_spec in Hassign as (Hw & _ & Hoth & _). split; [|done].
      unfold heap_index. rewrite Hoth by done. rewrite Ht. by rewrite Hv.
Qed.

Lemma Get_copy_and_live_witness :
  (∃ c ext,
     Get 2 None player = Some (VTable c, mkSys (this player) (heap player ++ ext) (trace player)) ∧
     reify 2 (heap player ++ ext) (VTable c) = state_tree 2 player ∧
     (∀ b, reach (heap player ++ ext) c b → (length (heap player) ≤ b)%nat)) ∧
  Get 2 (Some Items) player = Some (VTable 1, player).
Proof.
  destruct (Get_copy_and_live 2 player) as [(c & ext & H1 & H2 & H3 & _) H];
    [apply wfb_wf; run|].
  split.
  - exists c, ext. split_and!; [exact H1|exact H2|exact H3].
  - destruct (H Items) as (v & Hv & HGet & _).
    assert (v = VTable 1) as -> by (vm_compute in Hv; congruence).
    exact HGet.
Defined.

(** ** Reset *)

(** C8. [Reset(k)] does to the crate, the heap and the trace what
    [Update(k, Baseline[k])] does, and returns the crate instead of the old
    value. So on a locked key it changes and fires nothing, and on a key
    that is not locked the value assigned is the one the middleware of [k]
    makes of the baseline value. *)
Theorem Reset_is_Update_with_Baseline fuel s Key b :
  heap_index (heap s) (InitialState (this s)) Key = Some b →
  Reset fuel Key s =
    match Update_with_Baseline fuel Key s with
    | Some (_, s') => Some (tt, s')
    | None => None
    end ∧
  Update_with_Baseline fuel Key s = Update fuel Key b s ∧
  (Key ∈ LockedKeys (this s) →
     ∃ s', Reset fuel Key s = Some (tt, s') ∧
           this s' = this s ∧ heap s' = heap s ∧ fires (trace s') = fires (trace s)) ∧
  (Key ∉ LockedKeys (this s) →
     ∀ Mw Old,
       MiddlewareMap (this s) !! Key = Some Mw →
       heap_index (heap s) (State (this s)) Key = Some Old →
       raw_equal (Mw b Old).1 Old = false →
       wf fuel (assigned (heap s) (State (this s)) Key (Mw b Old).1) (State (this s)) →
       ∃ s', Reset fuel Key s = Some (tt, s') ∧
             heap_index (heap s') (State (this s)) Key = Some (Mw b Old).1 ∧
             fires (trace s') = fires (trace s) ++ [EvFire Key Old (Mw b Old).1]).
Proof.
  intros Hb.
  assert (Update_with_Baseline fuel Key s = Update fuel Key b s) as Hspec.
  { unfold Update_with_Baseline, mbind, M_bind, get_this, index. by rewrite Hb. }
  assert (Reset fuel Key s =
            match Update fuel Key b s with
            | Some (_, s') => Some (tt, s')
            | None => None
            end) as HReset.
  { unfold Reset, mbind, M_bind, get_this, index, ret. rewrite Hb.
    by destruct (Update fuel Key b s) as [[? ?]|]. }
  split_and!; [by rewrite Hspec|done|..].
  - intros Hk. rewrite HReset, Update_locked by done. eexists. split_and!; [done..|].
    cbn [add_trace trace]. rewrite fires_app.
    destruct (IsVerbose (this s)); simpl; by rewrite app_nil_r.
  - intros Hk Mw Old HMw HOld Hne Hwf.
    destruct (ExecuteMiddleware_eq Key b Old s) as (R & warns & HEx & _ & HR).
    rewrite HMw in HR. subst R.
    destruct (Update_changed fuel s Key b Old _ _ Hk HOld HEx Hne Hwf)
      as (s2 & HUp & _ & Hi & _ & Hf).
    exists s2. by rewrite HReset, HUp.
Qed.

(** [Health] is 40, its baseline 100 and its middleware caps at 50:
    [Reset("Health")] sets it to 50. With [Health] locked, nothing changes. *)
Lemma Reset_is_Update_with_Baseline_witness :
  (∃ s', Reset 2 Health player_capped = Some (tt, s') ∧
         heap_index (heap s') (State (this player_capped)) Health = Some (VNum 50) ∧
         fires (trace s') = fires (trace player_capped) ++ [EvFire Health (VNum 40) (VNum 50)]) ∧
  (∃ s', Reset 2 Health (after (Lock (Some Health)) player_capped) = Some (tt, s') ∧
         heap s' = heap (after (Lock (Some Health)) player_capped)).
Proof.
  split.
  - destruct (Reset_is_Update_with_Baseline 2 player_capped Health (VNum 100))
      as (_ & _ & _ & H); [run|].
    destruct (H ltac:(run) cap50 (VNum 40)) as (s' & H1 & H2 & H3);
      [run|run|run|apply wfb_wf; run|].
    exists s'. split_and!; [exact H1|exact H2|exact H3].
  - destruct (Reset_is_Update_with_Baseline 2 (after (Lock (Some Health)) player_capped)
                Health (VNum 100)) as (_ & _ & H & _); [run|].
    destruct (H ltac:(by vm_compute)) as (s' & H1 & _ & H2 & _).
    exists s'. split; [exact H1|exact H2].
Defined.

(** ** Subscriptions *)



(** ** Snapshot and Restore *)

Lemma new_Crate_chain : new_Crate 2 0 false [chain_head; chain_tail] = Some chain.
Proof. run. Qed.

Lemma DeepCopy_S n h a :
  DeepCopy (S n) h a =
    match heap_pairs h a with
    | Some entries =>
        match copy_entries (DeepCopy n) (length h) entries (h ++ [∅]) with
        | Some h' => Some (h', length h)
        | None => None
        end
    | None => None
    end.
Proof. done. Qed.

Lemma heap_assign_ext (h : Heap) e a k v h' :
  (length h ≤ a)%nat →
  heap_assign (h ++ e) a k v = Some h' →
  ∃ e', h' = h ++ e' ∧ length e' = length e.
Proof.
  intros Ha. unfold heap_assign. destruct ((h ++ e) !! a) as [t|]; [|done].
  intros [= <-]. rewrite insert_app_r_alt by done. eexists. split; [done|].
  apply length_insert.
Qed.

Lemma copy_entries_ext (rec : Heap → addr → option (Heap * addr)) :
  (∀ h a h' c, rec h a = Some (h', c) → ∃ ext, h' = h ++ ext) →
  ∀ entries (h0 : Heap) e hF,
    copy_entries rec (length h0) entries (h0 ++ e) = Some hF →
    ∃ e', hF = h0 ++ e' ∧ (length e ≤ length e')%nat.
Proof.
  intros Hrec entries. induction entries as [|[k v] rest IH]; intros h0 e hF; simpl.
  { intros [= <-]. eauto. }
  assert (∀ h1, heap_assign (h0 ++ e) (length h0) k v = Some h1 →
            copy_entries rec (length h0) rest h1 = Some hF →
            ∃ e', hF = h0 ++ e' ∧ (length e ≤ length e')%nat) as Hscalar.
  { intros h1 (e1 & -> & Hlen)%heap_assign_ext Hrest; [|done].
    destruct (IH _ _ _ Hrest) as (e' & -> & ?). exists e'. split; [done|lia]. }
  destruct v as [| | | |b];
    try (destruct (heap_assign (h0 ++ e) (length h0) k _) eqn:Ha; [|done];
         by apply Hscalar).
  destruct (rec (h0 ++ e) b) as [[h1 c]|] eqn:Hb; [|done].
  destruct (Hrec _ _ _ _ Hb) as [x ->]. rewrite <- (assoc_L (++)).
  destruct (heap_assign (h0 ++ e ++ x) (length h0) k (VTable c)) as [h2|] eqn:Ha; [|done].
  apply heap_assign_ext in Ha as (e2 & -> & Hlen); [|done].
  intros Hrest. destruct (IH _ _ _ Hrest) as (e' & -> & ?).
  exists e'. split; [done|]. rewrite length_app in Hlen. lia.
Qed.

(** Whenever [DeepCopy] returns, it has only allocated. *)
Lemma DeepCopy_ext n h a h' c :
  DeepCopy n h a = Some (h', c) → c = length h ∧ ∃ ext, h' = h ++ ext.
Proof.
  revert h a h' c. induction n as [|n IH]; intros h a h' c; [done|].
  rewrite DeepCopy_S. destruct (heap_pairs h a) as [entries|]; [|done].
  destruct (copy_entries _ _ _ _) as [hF|] eqn:Hloop; [|done].
  intros [= <- <-]. split; [done|].
  apply copy_entries_ext in Hloop as (e' & -> & _); [eauto|].
  intros h1 a1 h1' c1 H1. by destruct (IH _ _ _ _ H1).
Qed.

Lemma frame_refl s : frame s s.
Proof. done. Qed.

Lemma frame_trans s1 s2 s3 : frame s1 s2 → frame s2 s3 → frame s1 s3.
Proof.
  intros (Ht1 & Hl1 & Hh1) (Ht2 & Hl2 & Hh2). split_and!; [congruence|lia|].
  intros b Hb Hne. rewrite Hh2; [by apply Hh1|lia|congruence].
Qed.

Lemma frame_app s ext tr : frame s (mkSys (this s) (heap s ++ ext) tr).
Proof.
  split_and!; [done|simpl; rewrite length_app; lia|].
  intros b Hb _. by apply lookup_app_l.
Qed.

Lemma frame_trace s tr : frame s (mkSys (this s) (heap s) tr).
Proof. by split_and!. Qed.

Lemma add_trace_frame s es : frame s (add_trace s es).
Proof. apply frame_trace. Qed.

Lemma run_listener_frame fuel i sub K O N s s' :
  run_listener fuel i sub K O N s = Some (tt, s') →
  this s' = this s ∧ ∃ ext, heap s' = heap s ++ ext.
Proof.
  destruct sub as [k|]; simpl.
  - case_decide; intros [= <-]; split; try done; exists []; by rewrite app_nil_r.
  - unfold mbind, M_bind, get_this, deep_copy, assign, emit.
    destruct (DeepCopy fuel (heap s) _) as [[h1 Old]|] eqn:H1; [|done]. simpl.
    apply DeepCopy_ext in H1 as [-> [e1 ->]].
    destruct (heap_assign _ _ _ _) as [h2|] eqn:H2; [|done]. simpl.
    apply heap_assign_ext in H2 as (e2 & -> & _); [|done].
    destruct (DeepCopy fuel _ _) as [[h3 New]|] eqn:H3; [|done]. simpl.
    apply DeepCopy_ext in H3 as [-> [e3 ->]].
    intros [= <-]. split; [done|]. simpl. rewrite <- (assoc_L (++)). eauto.
Qed.

Lemma run_listeners_frame fuel K O N cs i s s' :
  run_listeners fuel i cs K O N s = Some (tt, s') →
  this s' = this s ∧ ∃ ext, heap s' = heap s ++ ext.
Proof.
  revert i s. induction cs as [|C rest IH]; intros i s; simpl.
  { intros [= <-]. split; [done|]. exists []. by rewrite app_nil_r. }
  unfold mbind, M_bind.
  destruct ((if Connected C then run_listener fuel i (Sub C) K O N else ret ()) s)
    as [[[] s1]|] eqn:H1; [|done].
  assert (this s1 = this s ∧ ∃ ext, heap s1 = heap s ++ ext) as [Ht [e1 He1]].
  { destruct (Connected C); [by eapply run_listener_frame|].
    injection H1 as <-. split; [done|]. exists []. by rewrite app_nil_r. }
  intros [Ht' [e2 He2]]%IH. split; [congruence|].
  rewrite He2, He1, <- (assoc_L (++)). eauto.
Qed.

Lemma Fire_frame fuel K O N s s' :
  Fire fuel K O N s = Some (tt, s') →
  this s' = this s ∧ ∃ ext, heap s' = heap s ++ ext.
Proof.
  unfold Fire, mbind, M_bind, emit, get_this. simpl.
  by intros H%run_listeners_frame.
Qed.

Lemma commit_frame fuel Key Old Result r s s' :
  (assign (State (this s)) Key Result;; Fire fuel Key Old Result;; ret Old) s
    = Some (r, s') →
  frame s s'.
Proof.
  unfold mbind, M_bind, assign, ret.
  destruct (heap_assign _ _ _ _) as [h1|] eqn:Ha; [|done].
  destruct (Fire _ _ _ _ _) as [[[] s1]|] eqn:HF; [|done]. intros [= <- <-].
  apply Fire_frame in HF as [Ht [ext He]]. simpl in *.
  apply heap_assign_spec in Ha as (_ & _ & Hoth & Hlen).
  split_and!; [done|rewrite He, length_app; lia|].
  intros b Hb Hne. rewrite He, lookup_app_l by lia. by apply Hoth.
Qed.

Lemma Update_frame fuel Key Value r s s' :
  Update fuel Key Value s = Some (r, s') → frame s s'.
Proof.
  destruct (decide (Key ∈ LockedKeys (this s))) as [Hk|Hk].
  { rewrite Update_locked by done. intros [= <- <-]. apply add_trace_frame. }
  destruct (heap_index (heap s) (State (this s)) Key) as [Old|] eqn:HOld.
  - destruct (ExecuteMiddleware_eq Key Value Old s) as (R & warns & HEx & _).
    rewrite (Update_unlocked_eq _ _ _ _ _ _ _ Hk HOld HEx).
    destruct (raw_equal R Old).
    + intros [= <- <-]. apply add_trace_frame.
    + intros Hc. eapply frame_trans; [apply (add_trace_frame s warns)|].
      exact (commit_frame fuel Key Old R r (add_trace s warns) s' Hc).
  - unfold Update, mbind, M_bind, get_this. rewrite decide_False by done.
    unfold index. by rewrite HOld.
Qed.

Lemma Increment_frame fuel Key Amount r s s' :
  Increment fuel Key Amount s = Some (r, s') → frame s s'.
Proof.
  destruct (heap_index (heap s) (State (this s)) Key) as [Old|] eqn:HOld.
  - destruct (is_number Old) eqn:Hn.
    + destruct (decide (Key ∈ LockedKeys (this s))) as [Hk|Hk].
      * unfold Increment, mbind, M_bind, get_this. rewrite decide_True by done.
        unfold index. rewrite HOld. by intros [= <- <-].
      * destruct Old as [| |n| |]; try done.
        destruct (ExecuteMiddleware_eq Key (VNum (num_add n Amount)) (VNum n) s)
          as (R & warns & HEx & _).
        rewrite (Increment_number_eq _ _ _ _ _ _ _ Hk HOld HEx).
        intros Hc. eapply frame_trans; [apply (add_trace_frame s warns)|].
        exact (commit_frame fuel Key (VNum n) R r (add_trace s warns) s' Hc).
    + rewrite (Increment_not_number_eq _ _ _ _ _ HOld Hn).
      case_decide; intros [= <- <-]; [done|apply add_trace_frame].
  - unfold Increment, mbind, M_bind, get_this.
    case_decide; unfold index; by rewrite HOld.
Qed.

Lemma Reset_frame fuel Key s s' :
  Reset fuel Key s = Some (tt, s') → frame s s'.
Proof.
  unfold Reset, mbind, M_bind, get_this, index, ret.
  destruct (heap_index _ _ _) as [b|]; [|done].
  destruct (Update fuel Key b s) as [[r s1]|] eqn:HU; [|done].
  intros [= <-]. by eapply Update_frame.
Qed.

Lemma update_each_frame fuel entries s s' :
  update_each fuel entries s = Some (tt, s') → frame s s'.
Proof.
  revert s. induction entries as [|[K V] rest IH]; intros s; simpl.
  { by intros [= <-]. }
  unfold mbind, M_bind. destruct (Update fuel K V s) as [[r s1]|] eqn:HU; [|done].
  intros H%IH. eapply frame_trans; [by eapply Update_frame|done].
Qed.

Lemma UpdateAll_frame fuel Dispatch s s' :
  UpdateAll fuel Dispatch s = Some (tt, s') → frame s s'.
Proof.
  unfold UpdateAll, mbind, M_bind, pairs. destruct (heap_pairs _ _); [|done].
  apply update_each_frame.
Qed.

(** A step that leaves the tables of the baseline alone, and does not make
    one of them the record, keeps the baseline. *)
Lemma baseline_kept fuel T s s' :
  baseline_is fuel T s →
  InitialState (this s') = InitialState (this s) →
  (∀ b, reach (heap s) (InitialState (this s)) b → heap s' !! b = heap s !! b) →
  ¬ reach (heap s) (InitialState (this s)) (State (this s')) →
  baseline_is fuel T s'.
Proof.
  intros (Hwf & Hre & Hst) HI Hag Hst'. unfold baseline_is. rewrite HI.
  destruct (wf_reify_agree _ _ _ _ Hwf Hag) as [Hwf' Hre'].
  split_and!; [done|congruence|].
  intros Hr. apply Hst'. by eapply reach_agree.
Qed.

Lemma baseline_frame fuel T s s' :
  baseline_is fuel T s → frame s s' → baseline_is fuel T s'.
Proof.
  intros HB (Ht & Hlen & Hoth). pose proof HB as (Hwf & _ & Hst).
  eapply baseline_kept; [done|by rewrite Ht| |by rewrite Ht].
  intros b Hb. apply Hoth; [by eapply wf_reach_lt|]. by intros ->.
Qed.

Lemma baseline_mutation fuel T s s' :
  baseline_is fuel T s → mutation fuel s s' → baseline_is fuel T s'.
Proof.
  intros HB Hm. pose proof HB as (Hwf & Hre & Hst).
  destruct Hm as [Key Value r s s' H|Dispatch s s' H|Key Amount r s s' H|Key s s' H
                 |s s' H|NewState s s' Hnew H|Key r s s' H|Key s s' H|Key s s' H
                 |Key Mw s s' H|sub r s s' H|s s' H|s s' H|t s|a k v h' s Ha H].
  - eapply baseline_frame; [done|by eapply Update_frame].
  - eapply baseline_frame; [done|by eapply UpdateAll_frame].
  - eapply baseline_frame; [done|by eapply Increment_frame].
  - eapply baseline_frame; [done|by eapply Reset_frame].
  - unfold Restore, mbind, M_bind, get_this, deep_copy, set_this in H.
    destruct (DeepCopy_spec _ _ _ Hwf) as (ext & Hdc & _). rewrite Hdc in H.
    injection H as <-. eapply baseline_kept; [done|done|..]; simpl.
    + intros b Hb. apply lookup_app_l. by eapply wf_reach_lt.
    + intros Hr. apply (wf_reach_lt _ _ _ _ Hwf) in Hr. lia.
  - injection H as <-. by eapply baseline_kept.
  - destruct Key as [k|].
    + unfold Get, mbind, M_bind, get_this, index in H.
      destruct (heap_index _ _ _); [|done]. by injection H as <- <-.
    + unfold Get, mbind, M_bind, get_this, deep_copy, ret in H.
      destruct (DeepCopy _ _ _) as [[h1 c]|] eqn:Hdc; [|done]. injection H as <- <-.
      apply DeepCopy_ext in Hdc as [_ [ext ->]].
      eapply baseline_frame; [done|apply frame_app].
  - destruct Key as [k|].
    + injection H as <-. by eapply baseline_kept.
    + unfold Lock, mbind, M_bind, get_this, pairs, set_this in H.
      destruct (heap_pairs _ _); [|done]. injection H as <-. by eapply baseline_kept.
  - destruct Key as [k|].
    + injection H as <-. by eapply baseline_kept.
    + unfold Unlock, mbind, M_bind, get_this, pairs, set_this in H.
      destruct (heap_pairs _ _); [|done]. injection H as <-. by eapply baseline_kept.
  - injection H as <-. by eapply baseline_kept.
  - injection H as <- <-. by eapply baseline_kept.
  - injection H as <-. by eapply baseline_kept.
  - injection H as <-. by eapply baseline_kept.
  - eapply baseline_frame; [done|apply frame_app].
  - eapply baseline_kept; [done|done| |done]. simpl.
    intros b Hb. apply heap_assign_spec in H as (_ & _ & Hoth & _).
    apply Hoth. by intros ->.
Qed.

Lemma baseline_mutations fuel T s s' :
  baseline_is fuel T s → rtc (mutation fuel) s s' → baseline_is fuel T s'.
Proof. intros HB Hr. induction Hr; eauto using baseline_mutation. Qed.

Lemma Snapshot_spec fuel s :
  wf fuel (heap s) (State (this s)) →
  ∃ s1, Snapshot fuel s = Some (tt, s1) ∧ baseline_is fuel (state_tree fuel s) s1.
Proof.
  intros Hwf. destruct (DeepCopy_spec _ _ _ Hwf) as (ext & Hdc & Hwf' & Hre & Hfresh & _).
  eexists. split.
  - unfold Snapshot, mbind, M_bind, get_this, deep_copy, set_this. by rewrite Hdc.
  - split_and!; [done..|]. simpl. intros Hr%Hfresh.
    apply wf_lt in Hwf. lia.
Qed.

Lemma Restore_spec fuel T s :
  baseline_is fuel T s →
  ∃ ext,
    Restore fuel s =
      Some (tt, mkSys (with_State (length (heap s)) (this s)) (heap s ++ ext) (trace s)) ∧
    reify fuel (heap s ++ ext) (VTable (length (heap s))) = T.
Proof.
  intros (Hwf & Hre & _).
  destruct (DeepCopy_spec _ _ _ Hwf) as (ext & Hdc & _ & Hre' & _).
  exists ext. split; [|congruence].
  unfold Restore, mbind, M_bind, get_this, deep_copy, set_this. by rewrite Hdc.
Qed.

(** X23. What does hold of [Snapshot()], mutations and [Restore()]. After
    [Snapshot()], whatever methods other than [Snapshot] are called and
    whatever the caller does to tables, as long as
    [Overwrite] is not given and the caller does not assign to a table
    nested in the baseline: [Restore()] returns, and the record is then a
    new table with the structure the record had when [Snapshot()] was
    called; the locks, the middleware and the connections are what they
    were before [Restore()], and nothing is logged, fired or called. *)
Theorem Snapshot_mutate_Restore fuel s0 :
  wf fuel (heap s0) (State (this s0)) →
  ∃ s1,
    Snapshot fuel s0 = Some (tt, s1) ∧
    ∀ s2,
      rtc (mutation fuel) s1 s2 →
      ∃ s3,
        Restore fuel s2 = Some (tt, s3) ∧
        state_tree fuel s3 = state_tree fuel s0 ∧
        (length (heap s2) ≤ State (this s3))%nat ∧
        this s3 = with_State (State (this s3)) (this s2) ∧
        trace s3 = trace s2.
Proof.
  intros Hwf. destruct (Snapshot_spec _ _ Hwf) as (s1 & HSnap & HB1).
  exists s1. split; [done|]. intros s2 Hmut.
  pose proof (baseline_mutations _ _ _ _ HB1 Hmut) as HB2.
  destruct (Restore_spec _ _ _ HB2) as (ext & HRes & Hre).
  eexists. split; [exact HRes|]. by split_and!.
Qed.

(** The player takes a snapshot, is hit, renamed and locked, and is restored
    to what the snapshot saw. *)
Lemma Snapshot_mutate_Restore_witness :
  ∃ s1 s2 s3,
    Snapshot 2 player_capped = Some (tt, s1) ∧
    heap_index (heap s2) (State (this s2)) Health = Some (VNum 10) ∧
    heap_index (heap s2) (State (this s2)) Name = Some (VStr "John") ∧
    Restore 2 s2 = Some (tt, s3) ∧
    state_tree 2 s3 = state_tree 2 player_capped ∧
    field (state_tree 2 s3) Health = Some (TVal (VNum 40)).
Proof.
  destruct (Snapshot_mutate_Restore 2 player_capped) as (s1 & H1 & H);
    [apply wfb_wf; run|].
  assert (s1 = after (Snapshot 2) player_capped) as Hs1.
  { unfold after. by rewrite H1. }
  set (s2 := after (Lock None)
               (after (Update 2 Name (VStr "John"))
                 (after (Update 2 Health (VNum 10)) s1))).
  destruct (H s2) as (s3 & H2 & H3 & _).
  { subst s1 s2.
    eapply rtc_l; [eapply (mut_Update _ Health (VNum 10) (VNum 40)); run|].
    eapply rtc_l; [eapply (mut_Update _ Name (VStr "John") (VStr "Paul")); run|].
    eapply rtc_l; [eapply (mut_Lock _ None); run|].
    apply rtc_refl. }
  exists s1, s2, s3. split_and!; [exact H1| | |exact H2|exact H3|].
  - subst s1 s2. run.
  - subst s1 s2. run.
  - rewrite H3. run.
Defined.

(** C7. [Snapshot()], then mutations, then [Restore()] should give the
    state at the snapshot. [Reset] breaks it: where the constructor,
    [Snapshot] and [Restore] copy, it stores the baseline's own value. In the
    chain, take a snapshot and reset [Next]: the record now holds the
    baseline's own [Next] table. Overwrite the record with what [Get("Next")]
    returns and update [Health] to 99: that assigns to the baseline's table.
    After [Restore()], [Next.Health] is 99, and was 50 at the snapshot. *)
Lemma Snapshot_Overwrite_Restore_differs :
  ∃ s1 s2 s3 s4 s5,
    Snapshot 2 chain = Some (tt, s1) ∧
    Reset 2 Next s1 = Some (tt, s2) ∧
    Get 2 (Some Next) s2 = Some (VTable 5, s2) ∧
    Overwrite 5 s2 = Some (tt, s3) ∧
    Update 2 Health (VNum 99) s3 = Some (VNum 50, s4) ∧
    Restore 2 s4 = Some (tt, s5) ∧
    state_tree 2 s5 ≠ state_tree 2 chain.
Proof.
  exists (after (Snapshot 2) chain).
  exists (after (Reset 2 Next) (after (Snapshot 2) chain)).
  exists (after (Overwrite 5) (after (Reset 2 Next) (after (Snapshot 2) chain))).
  exists (after (Update 2 Health (VNum 99))
            (after (Overwrite 5) (after (Reset 2 Next) (after (Snapshot 2) chain)))).
  exists (after (Restore 2)
            (after (Update 2 Health (VNum 99))
               (after (Overwrite 5) (after (Reset 2 Next) (after (Snapshot 2) chain))))).
  split_and!; [run..|].
  intros H. apply (f_equal (λ T, field T Next ≫= λ T', field T' Health)) in H.
  vm_compute in H. discriminate H.
Qed.

(** * Properties of the remaining methods *)

(** ** The constructor *)

Lemma baseline_is_Lock fuel T Key s s' :
  baseline_is fuel T s → Lock Key s = Some (tt, s') → baseline_is fuel T s'.
Proof.
  intros HB H. eapply baseline_mutation; [done|]. by eapply mut_Lock.
Qed.

Lemma new_Crate_spec fuel h a Closed :
  wf fuel h a →
  ∃ ext t,
    h !! a = Some t ∧
    new_Crate fuel a Closed h =
      Some (mkSys (mkCrate a [] (length h) ∅ (if Closed then dom t else ∅) false)
                  (h ++ ext) []) ∧
    wf fuel (h ++ ext) (length h) ∧
    reify fuel (h ++ ext) (VTable (length h)) = reify fuel h (VTable a) ∧
    ∀ b, reach (h ++ ext) (length h) b → (length h ≤ b)%nat.
Proof.
  intros Hwf. destruct (DeepCopy_spec _ _ _ Hwf) as (ext & Hdc & Hwf' & Hre & Hfresh & _).
  destruct (wf_lookup _ _ _ Hwf) as [t Ht]. exists ext, t.
  split_and!; [done| |done..].
  unfold new_Crate. rewrite Hdc. destruct Closed; [|done].
  rewrite (Lock_all_eq _ t) by by apply lookup_app_l_Some.
  simpl. by rewrite (left_id_L ∅ (∪)).
Qed.

(** X1. [new Crate(InitialState)] on a table that is a finite tree returns.
    The record is the caller's table itself, not a copy: what the caller
    assigns to it afterwards is what [Get(k)] returns. The baseline is a
    table of the same structure whose tables are all new, and the crate
    starts with no lock, no middleware, no connection and nothing logged. *)
Theorem new_Crate_shares_record fuel h a :
  wf fuel h a →
  ∃ s,
    new_Crate fuel a false h = Some s ∧
    State (this s) = a ∧
    LockedKeys (this s) = ∅ ∧ MiddlewareMap (this s) = ∅ ∧
    Connections (this s) = [] ∧ IsVerbose (this s) = false ∧ trace s = [] ∧
    reify fuel (heap s) (VTable (InitialState (this s))) = reify fuel h (VTable a) ∧
    (∀ b, reach (heap s) (InitialState (this s)) b → (length h ≤ b)%nat) ∧
    ∀ k v h',
      heap_assign (heap s) a k v = Some h' →
      Get fuel (Some k) (mkSys (this s) h' (trace s))
        = Some (v, mkSys (this s) h' (trace s)) ∧
      reify fuel h' (VTable (InitialState (this s))) = reify fuel h (VTable a).
Proof.
  intros Hwf. destruct (new_Crate_spec fuel h a false Hwf)
    as (ext & t & Ht & Hnew & Hwf' & Hre & Hfresh).
  eexists. split; [exact Hnew|]. simpl. split_and!; [done..|].
  intros k v h' Hassign. pose proof (wf_lt _ _ _ Hwf) as Ha.
  apply heap_assign_spec in Hassign as (Hi & _ & Hoth & _). split.
  - unfold Get, mbind, M_bind, get_this, index. simpl. by rewrite Hi.
  - rewrite <- Hre. apply reify_agree. intros b Hb. apply Hoth.
    apply Hfresh in Hb. lia.
Qed.

Lemma new_Crate_shares_record_witness :
  ∃ s,
    new_Crate 2 0 false player_heap = Some s ∧
    State (this s) = 0%nat ∧
    reify 2 (heap s) (VTable (InitialState (this s))) = reify 2 player_heap (VTable 0).
Proof.
  destruct (new_Crate_shares_record 2 player_heap 0)
    as (s & H1 & H2 & _ & _ & _ & _ & _ & H3 & _); [apply wfb_wf; run|].
  exists s. split_and!; [exact H1|exact H2|exact H3].
Defined.

(** X2. [new Crate(InitialState, true)] locks every key of the record:
    [IsLocked()] is true, and [Update] of any of those keys returns [nil],
    logs nothing (the crate is not verbose) and leaves crate and heap as
    they are. *)
Theorem new_Crate_closed fuel h a t :
  wf fuel h a →
  h !! a = Some t →
  ∃ s,
    new_Crate fuel a true h = Some s ∧
    LockedKeys (this s) = dom t ∧
    IsLocked None s = Some (true, s) ∧
    ∀ k v, k ∈ dom t → Update fuel k v s = Some (VNil, s).
Proof.
  intros Hwf Ht. destruct (new_Crate_spec fuel h a true Hwf)
    as (ext & t' & Ht' & Hnew & _).
  assert (t' = t) as -> by congruence.
  eexists. split; [exact Hnew|]. split; [done|]. split.
  - rewrite (IsLocked_all_eq _ t) by by apply lookup_app_l_Some.
    do 2 f_equal. by apply bool_decide_eq_true.
  - intros k v Hk. rewrite Update_locked by done. simpl. by rewrite add_trace_nil.
Qed.

Lemma new_Crate_closed_witness :
  ∃ s,
    new_Crate 2 0 true player_heap = Some s ∧
    IsLocked None s = Some (true, s) ∧
    Update 2 Health (VNum 5) s = Some (VNil, s).
Proof.
  destruct (new_Crate_closed 2 player_heap 0 player_record) as (s & H1 & _ & H2 & H3);
    [apply wfb_wf; run|reflexivity|].
  exists s. split_and!; [exact H1|exact H2|].
  apply H3. unfold player_record. rewrite !dom_insert_L. set_solver.
Defined.

(** X3. After [new Crate(InitialState, Closed)], whatever methods other than
    [Snapshot] are called and whatever the caller assigns, also to the table
    it gave to the constructor, as long as [Overwrite] is not given and the
    caller does not assign to a table nested in the baseline: [Restore()]
    returns and the record then has the structure [InitialState] had at
    construction. *)
Theorem new_Crate_mutate_Restore fuel h a Closed :
  wf fuel h a →
  ∃ s1,
    new_Crate fuel a Closed h = Some s1 ∧
    ∀ s2,
      rtc (mutation fuel) s1 s2 →
      ∃ s3,
        Restore fuel s2 = Some (tt, s3) ∧
        state_tree fuel s3 = reify fuel h (VTable a) ∧
        trace s3 = trace s2.
Proof.
  intros Hwf. destruct (new_Crate_spec fuel h a Closed Hwf)
    as (ext & t & Ht & Hnew & Hwf' & Hre & Hfresh).
  eexists. split; [exact Hnew|]. intros s2 Hmut.
  assert (baseline_is fuel (reify fuel h (VTable a))
            (mkSys (mkCrate a [] (length h) ∅ (if Closed then dom t else ∅) false)
                   (h ++ ext) [])) as HB1.
  { split_and!; [done..|]. simpl. intros Hr%Hfresh. apply wf_lt in Hwf. lia. }
  pose proof (baseline_mutations _ _ _ _ HB1 Hmut) as HB2.
  destruct (Restore_spec _ _ _ HB2) as (ext' & HRes & Hre').
  eexists. split; [exact HRes|]. by split.
Qed.

Lemma new_Crate_mutate_Restore_witness :
  ∃ s1 s2 s3,
    new_Crate 2 0 false player_heap = Some s1 ∧
    heap_index (heap s2) (State (this s2)) Health = Some (VNum 10) ∧
    Restore 2 s2 = Some (tt, s3) ∧
    state_tree 2 s3 = reify 2 player_heap (VTable 0).
Proof.
  destruct (new_Crate_mutate_Restore 2 player_heap 0 false) as (s1 & H1 & H);
    [apply wfb_wf; run|].
  assert (s1 = player) as ->.
  { rewrite new_Crate_player in H1. by injection H1. }
  destruct (H (after (Update 2 Health (VNum 10)) player)) as (s3 & H2 & H3 & _).
  { eapply rtc_l; [eapply (mut_Update _ Health (VNum 10) (VNum 100)); run|].
    apply rtc_refl. }
  exists player, (after (Update 2 Health (VNum 10)) player), s3.
  split_and!; [exact H1|run|exact H2|exact H3].
Defined.

(** ** Writing under a key *)

Lemma commit_keeps fuel Key Old Result r s s' k :
  (assign (State (this s)) Key Result;; Fire fuel Key Old Result;; ret Old) s
    = Some (r, s') →
  this s' = this s ∧
  heap_index (heap s') (State (this s)) Key = Some Result ∧
  (k ≠ Key →
   heap_index (heap s') (State (this s)) k = heap_index (heap s) (State (this s)) k).
Proof.
  unfold mbind, M_bind, assign, ret.
  destruct (heap_assign _ _ _ _) as [h1|] eqn:Ha; [|done].
  destruct (Fire _ _ _ _ _) as [[[] s1]|] eqn:HF; [|done]. intros [= <- <-].
  apply Fire_frame in HF as [Ht [ext He]]. simpl in *.
  assert (State (this s) < length h1)%nat as Hlt.
  { unfold heap_assign in Ha. destruct (heap s !! State (this s)) eqn:Hs; [|done].
    injection Ha as <-. rewrite length_insert. by eapply lookup_lt_Some. }
  apply heap_assign_spec in Ha as (Hi & Ho & _ & _).
  rewrite He, !heap_index_app by done. split_and!; [done..|]. intros Hk. by apply Ho.
Qed.

Lemma ExecuteMiddleware_warns Key New Old s :
  ∃ warns,
    ExecuteMiddleware Key New Old s
      = Some (resolve (this s) Key New Old, add_trace s warns) ∧
    warns = match (MiddlewareMap (this s) !! Key : option MiddlewareType) with
            | Some Method =>
                if (Method New Old).2 then [EvWarn (IsVerbose (this s)) MsgYield] else []
            | None => []
            end.
Proof.
  unfold ExecuteMiddleware, resolve. unfold_M.
  destruct (MiddlewareMap (this s) !! Key) as [Method|]; simpl.
  - destruct (Method New Old) as [Result slow]. destruct slow.
    + rewrite Log_eq. simpl. by eexists.
    + exists []. by rewrite add_trace_nil.
  - exists []. by rewrite add_trace_nil.
Qed.

(** What a returning [Update] has done to the record. *)
Lemma Update_result fuel Key Value r s s' :
  Update fuel Key Value s = Some (r, s') →
  this s' = this s ∧
  ∀ k cur,
    heap_index (heap s) (State (this s)) k = Some cur →
    heap_index (heap s') (State (this s)) k =
      Some (if decide (k = Key ∧ Key ∉ LockedKeys (this s))
            then settled (resolve (this s) Key Value cur) cur else cur).
Proof.
  destruct (decide (Key ∈ LockedKeys (this s))) as [Hk|Hk].
  { rewrite Update_locked by done. intros [= <- <-]. split; [done|].
    intros k cur Hcur. simpl. rewrite Hcur. rewrite decide_False; [done|tauto]. }
  destruct (heap_index (heap s) (State (this s)) Key) as [Old|] eqn:HOld.
  - destruct (ExecuteMiddleware_warns Key Value Old s) as (warns & HEx & _).
    rewrite (Update_unlocked_eq _ _ _ _ _ _ _ Hk HOld HEx).
    destruct (raw_equal _ Old) eqn:HRO.
    + intros [= <- <-]. split; [done|]. intros k cur Hcur. simpl. rewrite Hcur.
      case_decide as Hd; [|done]. destruct Hd as [-> _].
      assert (cur = Old) as -> by congruence. unfold settled. by rewrite HRO.
    + intros Hc.
      split; [by destruct (commit_keeps fuel Key Old _ r (add_trace s warns) s' Key Hc)|].
      intros k cur Hcur.
      destruct (commit_keeps fuel Key Old _ r (add_trace s warns) s' k Hc)
        as (_ & Hi & Ho). simpl in *.
      case_decide as Hd.
      * destruct Hd as [-> _]. assert (cur = Old) as -> by congruence.
        unfold settled. by rewrite Hi, HRO.
      * rewrite Ho, Hcur; [done|]. intros ->. tauto.
  - unfold Update, mbind, M_bind, get_this. rewrite decide_False by done.
    unfold index. by rewrite HOld.
Qed.

Lemma Increment_result fuel Key Amount r s s' :
  Increment fuel Key Amount s = Some (r, s') →
  this s' = this s ∧
  ∀ k, (k ≠ Key ∨ Key ∈ LockedKeys (this s)) →
       heap_index (heap s') (State (this s)) k = heap_index (heap s) (State (this s)) k.
Proof.
  destruct (heap_index (heap s) (State (this s)) Key) as [Old|] eqn:HOld.
  - destruct (is_number Old) eqn:Hn.
    + destruct (decide (Key ∈ LockedKeys (this s))) as [Hk|Hk].
      * unfold Increment, mbind, M_bind, get_this. rewrite decide_True by done.
        unfold index. rewrite HOld. by intros [= <- <-].
      * destruct Old as [| |n| |]; try done.
        destruct (ExecuteMiddleware_eq Key (VNum (num_add n Amount)) (VNum n) s)
          as (R & warns & HEx & _).
        rewrite (Increment_number_eq _ _ _ _ _ _ _ Hk HOld HEx). intros Hc.
        split; [by destruct (commit_keeps fuel Key (VNum n) R r (add_trace s warns) s' Key Hc)|].
        intros k [Hne|?]; [|done].
        destruct (commit_keeps fuel Key (VNum n) R r (add_trace s warns) s' k Hc)
          as (_ & _ & Ho). by apply Ho.
    + rewrite (Increment_not_number_eq _ _ _ _ _ HOld Hn).
      by case_decide; intros [= <- <-].
  - unfold Increment, mbind, M_bind, get_this.
    case_decide; unfold index; by rewrite HOld.
Qed.

Lemma Update_keeps fuel Key Value r s s' :
  Update fuel Key Value s = Some (r, s') →
  this s' = this s ∧
  ∀ k, (k ≠ Key ∨ Key ∈ LockedKeys (this s)) →
       heap_index (heap s') (State (this s)) k = heap_index (heap s) (State (this s)) k.
Proof.
  destruct (decide (Key ∈ LockedKeys (this s))) as [Hk|Hk].
  { rewrite Update_locked by done. by intros [= <- <-]. }
  destruct (heap_index (heap s) (State (this s)) Key) as [Old|] eqn:HOld.
  - destruct (ExecuteMiddleware_eq Key Value Old s) as (R & warns & HEx & _).
    rewrite (Update_unlocked_eq _ _ _ _ _ _ _ Hk HOld HEx).
    destruct (raw_equal R Old).
    + by intros [= <- <-].
    + intros Hc.
      split; [by destruct (commit_keeps fuel Key Old R r (add_trace s warns) s' Key Hc)|].
      intros k [Hne|?]; [|done].
      destruct (commit_keeps fuel Key Old R r (add_trace s warns) s' k Hc)
        as (_ & _ & Ho). by apply Ho.
  - unfold Update, mbind, M_bind, get_this. rewrite decide_False by done.
    unfold index. by rewrite HOld.
Qed.

Lemma update_each_keeps fuel entries s s' :
  update_each fuel entries s = Some (tt, s') →
  this s' = this s ∧
  ∀ k, k ∈ LockedKeys (this s) →
       heap_index (heap s') (State (this s)) k = heap_index (heap s) (State (this s)) k.
Proof.
  revert s. induction entries as [|[K V] rest IH]; intros s; simpl.
  { by intros [= <-]. }
  unfold mbind, M_bind. destruct (Update fuel K V s) as [[r s1]|] eqn:HU; [|done].
  apply Update_keeps in HU as [Ht HU]. intros [Ht' H]%IH. rewrite Ht in *.
  split; [done|]. intros k Hk. rewrite H by done. apply HU.
  destruct (decide (k = K)) as [->|]; eauto.
Qed.

(** A keyed write leaves the crate and the values of the locked keys. *)
Lemma keyed_write_locked fuel s s' :
  keyed_write fuel s s' →
  this s' = this s ∧
  ∀ k, k ∈ LockedKeys (this s) →
       heap_index (heap s') (State (this s)) k = heap_index (heap s) (State (this s)) k.
Proof.
  intros [K V r s1 s2 H|D s1 s2 H|K A r s1 s2 H|K s1 s2 H].
  - apply Update_keeps in H as [Ht H]. split; [done|]. intros k Hk. apply H.
    destruct (decide (k = K)) as [->|]; eauto.
  - unfold UpdateAll, mbind, M_bind, pairs in H. destruct (heap_pairs _ _); [|done].
    by apply update_each_keeps in H.
  - apply Increment_result in H as [Ht H]. split; [done|]. intros k Hk. apply H.
    destruct (decide (k = K)) as [->|]; eauto.
  - unfold Reset, mbind, M_bind, get_this, index, ret in H.
    destruct (heap_index _ _ _) as [b|]; [|done].
    destruct (Update fuel K b s1) as [[r s1']|] eqn:HU; [|done]. injection H as <-.
    apply Update_keeps in HU as [Ht H]. split; [done|]. intros k Hk. apply H.
    destruct (decide (k = K)) as [->|]; eauto.
Qed.

(** X4. A locked key is write-protected against the keyed writers: along
    any sequence of calls of [Update], of [Update] with a table,
    [Increment] and [Reset], on whatever keys, the crate (its locks
    included) stays as it is and every locked key keeps its value. *)
Theorem locked_keys_keep_their_values fuel s s' :
  rtc (keyed_write fuel) s s' →
  this s' = this s ∧
  ∀ k, k ∈ LockedKeys (this s) →
       heap_index (heap s') (State (this s)) k = heap_index (heap s) (State (this s)) k.
Proof.
  induction 1 as [s|s1 s2 s3 H12 _ IH]; [done|].
  apply keyed_write_locked in H12 as [Ht H12]. destruct IH as [Ht' IH].
  rewrite Ht in *. split; [done|]. intros k Hk. rewrite IH by done. by apply H12.
Qed.

(** [Health] is locked: it is incremented and [Name] is updated; [Health]
    is still 100 and [Name] is ["John"]. *)
Lemma locked_keys_keep_their_values_witness :
  ∃ s',
    heap_index (heap s') (State (this player_locked)) Health = Some (VNum 100) ∧
    heap_index (heap s') (State (this player_locked)) Name = Some (VStr "John").
Proof.
  set (s1 := after (Increment 2 Health 7) player_locked).
  set (s2 := after (Update 2 Name (VStr "John")) s1).
  destruct (locked_keys_keep_their_values 2 player_locked s2) as [_ H].
  { eapply rtc_l; [eapply (kw_Increment _ Health 7 (VNum 100)); run|].
    eapply rtc_l; [eapply (kw_Update _ Name (VStr "John") (VStr "Paul")); run|].
    apply rtc_refl. }
  exists s2. split.
  - rewrite (H Health) by by vm_compute. run.
  - run.
Defined.

(** X6. [Update] then [Get]: after a call of [Update(k, v)] that returns,
    [Get(k)] returns, when [k] is not locked, what the middleware made of
    [v], or the value that was there if the two are [===] (so a zero keeps
    its sign); it returns the old value when [k] is locked; every other key
    reads as before. *)
Theorem Update_then_Get fuel Key Value r s s' :
  Update fuel Key Value s = Some (r, s') →
  ∀ k cur,
    heap_index (heap s) (State (this s)) k = Some cur →
    Get fuel (Some k) s' =
      Some (if decide (k = Key ∧ Key ∉ LockedKeys (this s))
            then settled (resolve (this s) Key Value cur) cur else cur, s').
Proof.
  intros [Ht H]%Update_result k cur Hcur.
  unfold Get, mbind, M_bind, get_this, index. rewrite Ht.
  by rewrite (H k cur Hcur).
Qed.

(** [Health] is clamped: after [Update("Health", -10)], [Get("Health")] is 0
    and [Get("Name")] is still ["Paul"]. *)
Lemma Update_then_Get_witness :
  ∃ s',
    Update 2 Health (VNum (-10)) player_observed = Some (VNum 100, s') ∧
    Get 2 (Some Health) s' = Some (VNum 0, s') ∧
    Get 2 (Some Name) s' = Some (VStr "Paul", s').
Proof.
  exists (after (Update 2 Health (VNum (-10))) player_observed).
  assert (Update 2 Health (VNum (-10)) player_observed
            = Some (VNum 100, after (Update 2 Health (VNum (-10))) player_observed))
    as HU by run.
  split_and!; [exact HU|..].
  - exact (Update_then_Get 2 Health (VNum (-10)) _ _ _ HU Health (VNum 100)
             ltac:(run)).
  - exact (Update_then_Get 2 Health (VNum (-10)) _ _ _ HU Name (VStr "Paul")
             ltac:(run)).
Defined.

(** ** Updating several keys at once *)

Lemma run_listeners_scoped fuel K O N cs i s :
  scoped_only cs →
  ∃ calls, run_listeners fuel i cs K O N s = Some (tt, add_trace s calls).
Proof.
  intros Hcs. revert i s. induction Hcs as [|C rest HC _ IH]; intros i s.
  { exists []. simpl. unfold ret. by rewrite add_trace_nil. }
  assert (∃ c1, (if Connected C then run_listener fuel i (Sub C) K O N else ret tt) s
                  = Some (tt, add_trace s c1)) as [c1 H1].
  { destruct (Connected C).
    - destruct (Sub C) as [k|]; [|by destruct HC]. simpl. case_decide.
      + by eexists.
      + exists []. unfold ret. by rewrite add_trace_nil.
    - exists []. unfold ret. by rewrite add_trace_nil. }
  destruct (IH (S i) (add_trace s c1)) as [c2 H2].
  exists (c1 ++ c2). simpl. unfold mbind, M_bind. rewrite H1, H2.
  by rewrite add_trace_app.
Qed.

Lemma Fire_scoped fuel K O N s :
  scoped_only (Connections (this s)) →
  ∃ calls, Fire fuel K O N s = Some (tt, add_trace s (EvFire K O N :: calls)).
Proof.
  intros Hcs.
  destruct (run_listeners_scoped fuel K O N (Connections (this s)) 0
              (add_trace s [EvFire K O N]) Hcs) as [calls Hrun].
  exists calls. unfold Fire, mbind, M_bind, emit, get_this.
  change (mkSys (this s) (heap s) (trace s ++ [EvFire K O N]))
    with (add_trace s [EvFire K O N]).
  cbn [this add_trace]. rewrite Hrun. by rewrite add_trace_app.
Qed.

(** Without a connected whole-store listener [Update] returns whenever the
    record is allocated, and the record stays allocated. *)
Lemma Update_scoped fuel Key Value s t :
  scoped_only (Connections (this s)) →
  heap s !! State (this s) = Some t →
  ∃ r s' t',
    Update fuel Key Value s = Some (r, s') ∧
    this s' = this s ∧ heap s' !! State (this s) = Some t'.
Proof.
  intros Hcs Ht.
  destruct (decide (Key ∈ LockedKeys (this s))) as [Hk|Hk].
  { rewrite Update_locked by done. by eexists _, _, t. }
  assert (heap_index (heap s) (State (this s)) Key = Some (tget t Key)) as HOld.
  { unfold heap_index. by rewrite Ht. }
  destruct (ExecuteMiddleware_eq Key Value (tget t Key) s) as (R & warns & HEx & _).
  rewrite (Update_unlocked_eq _ _ _ _ _ _ _ Hk HOld HEx).
  destruct (raw_equal R (tget t Key)).
  { by eexists _, _, t. }
  set (s1 := mkSys (this s) (<[State (this s) := tset t Key R]> (heap s))
                   (trace s ++ warns)).
  destruct (Fire_scoped fuel Key (tget t Key) R s1 Hcs) as [calls HF].
  unfold mbind, M_bind, assign, heap_assign, ret. cbn [add_trace heap this trace].
  rewrite Ht. fold s1. rewrite HF. eexists _, _, _. split_and!; [done..|]. simpl.
  apply list_lookup_insert_eq. by eapply lookup_lt_Some.
Qed.

Lemma update_each_spec fuel entries s t :
  scoped_only (Connections (this s)) →
  NoDup entries.*1 →
  heap s !! State (this s) = Some t →
  ∃ s',
    update_each fuel entries s = Some (tt, s') ∧
    this s' = this s ∧
    ∀ k, heap_index (heap s') (State (this s)) k =
           Some (match (list_to_map entries : gmap key value) !! k with
                 | Some v =>
                     if decide (k ∈ LockedKeys (this s)) then tget t k
                     else settled (resolve (this s) k v (tget t k)) (tget t k)
                 | None => tget t k
                 end).
Proof.
  intros Hcs. revert s t Hcs.
  induction entries as [|[K V] rest IH]; intros s t Hcs Hnd Ht.
  { exists s. split_and!; [done..|]. intros k. simpl. rewrite lookup_empty.
    unfold heap_index. by rewrite Ht. }
  apply NoDup_cons in Hnd as [HK Hnd].
  destruct (Update_scoped fuel K V s t Hcs Ht) as (r & s1 & t1 & HU & Ht1 & Hs1).
  pose proof (Update_result _ _ _ _ _ _ HU) as [_ Hres].
  destruct (IH s1 t1) as (s' & Hrest & Ht' & Hfinal); [by rewrite Ht1|done|by rewrite Ht1|].
  exists s'. split_and!.
  - simpl. unfold mbind, M_bind. by rewrite HU.
  - congruence.
  - intros k. rewrite Ht1 in Hfinal. rewrite Hfinal. f_equal.
    assert (tget t1 k = if decide (k = K ∧ K ∉ LockedKeys (this s))
                        then settled (resolve (this s) K V (tget t k)) (tget t k)
                        else tget t k) as Hk1.
    { specialize (Hres k (tget t k)). unfold heap_index in Hres.
      rewrite Ht, Hs1 in Hres. specialize (Hres eq_refl). by injection Hres. }
    simpl. destruct (decide (k = K)) as [->|Hne].
    + rewrite lookup_insert_eq.
      rewrite (not_elem_of_list_to_map_1 _ K) by done.
      rewrite Hk1. repeat case_decide; try done; tauto.
    + rewrite lookup_insert_ne by done. rewrite Hk1.
      rewrite (decide_False (P := k = K ∧ _)) by tauto. done.
Qed.

(** X5. [Update] with a table, when no whole-store listener is connected:
    the call returns, and each key then holds, if the table has it and it is
    not locked, what the middleware makes of the table's value and the
    key's old value (or the old value, when the two are [===]), and its old
    value otherwise. A locked key among the entries is passed over and the
    others are still written. *)
Theorem UpdateAll_each_key fuel s Dispatch d t :
  scoped_only (Connections (this s)) →
  heap s !! Dispatch = Some d →
  heap s !! State (this s) = Some t →
  ∃ s',
    UpdateAll fuel Dispatch s = Some (tt, s') ∧
    this s' = this s ∧
    ∀ k, heap_index (heap s') (State (this s)) k =
           Some (match d !! k with
                 | Some v =>
                     if decide (k ∈ LockedKeys (this s)) then tget t k
                     else settled (resolve (this s) k v (tget t k)) (tget t k)
                 | None => tget t k
                 end).
Proof.
  intros Hcs Hd Ht.
  destruct (update_each_spec fuel (map_to_list d) s t Hcs
              (NoDup_fst_map_to_list d) Ht) as (s' & Hrun & Ht' & Hfinal).
  exists s'. split_and!; [|done|].
  - unfold UpdateAll, mbind, M_bind, pairs, heap_pairs. by rewrite Hd.
  - intros k. rewrite Hfinal. by rewrite list_to_map_to_list.
Qed.

(** [Update({Health: 50, Name: "John"})] with [Name] locked: [Health] is
    50, [Name] is still ["Paul"] and [Items] is untouched. *)
Lemma UpdateAll_each_key_witness :
  ∃ s',
    UpdateAll 2 4 player_name_locked = Some (tt, s') ∧
    heap_index (heap s') (State (this player_name_locked)) Health = Some (VNum 50) ∧
    heap_index (heap s') (State (this player_name_locked)) Name = Some (VStr "Paul") ∧
    heap_index (heap s') (State (this player_name_locked)) Items = Some (VTable 1).
Proof.
  destruct (UpdateAll_each_key 2 player_name_locked 4 player_dispatch player_record)
    as (s' & H1 & _ & H2); [constructor|reflexivity|reflexivity|].
  exists s'. split_and!; [exact H1|..].
  - rewrite (H2 Health). run.
  - rewrite (H2 Name). run.
  - rewrite (H2 Items). run.
Defined.

(** ** Locks, key by key *)

(** X7. [Lock(k)] and [Unlock(k)] are insertion into and removal from the
    set of locked keys, and touch nothing else: after [Lock(k)],
    [IsLocked(k')] is true exactly for [k] and the keys locked before;
    after a further [Unlock(k)] it is true exactly for the keys other than
    [k] that were locked before. So [Lock(k)] then [Unlock(k)] leaves [k]
    unlocked also when it was locked to begin with, and a second [Lock(k)]
    changes nothing. *)
Theorem Lock_Unlock_key s k :
  ∃ s1 s2,
    Lock (Some k) s = Some (tt, s1) ∧
    heap s1 = heap s ∧ trace s1 = trace s ∧ State (this s1) = State (this s) ∧
    (∀ k', IsLocked (Some k') s1
             = Some (bool_decide (k' = k ∨ k' ∈ LockedKeys (this s)), s1)) ∧
    Lock (Some k) s1 = Some (tt, s1) ∧
    Unlock (Some k) s1 = Some (tt, s2) ∧
    heap s2 = heap s ∧ trace s2 = trace s ∧
    (∀ k', IsLocked (Some k') s2
             = Some (bool_decide (k' ≠ k ∧ k' ∈ LockedKeys (this s)), s2)).
Proof.
  eexists _, _. split_and!; try done.
  - intros k'. rewrite IsLocked_key_eq. do 2 f_equal. simpl.
    apply bool_decide_ext. rewrite elem_of_union, elem_of_singleton. tauto.
  - unfold Lock, mbind, M_bind, get_this, set_this. simpl. do 3 f_equal.
    unfold with_LockedKeys. simpl. f_equal. apply set_eq. intros x.
    rewrite !elem_of_union. tauto.
  - intros k'. rewrite IsLocked_key_eq. do 2 f_equal. simpl.
    apply bool_decide_ext.
    rewrite elem_of_difference, elem_of_union, elem_of_singleton. tauto.
Qed.

(** X8. [Unlock()] is no undo of [Lock()]: after [Lock()] then [Unlock()]
    the locked keys are those locked before that are not keys of the
    record. A key of the record that was locked before is unlocked, and a
    lock on a key the record does not have survives both calls and is not
    counted by [IsLocked()]. *)
Theorem Lock_all_Unlock_all s t :
  heap s !! State (this s) = Some t →
  ∃ s1 s2,
    Lock None s = Some (tt, s1) ∧
    Unlock None s1 = Some (tt, s2) ∧
    heap s2 = heap s ∧ trace s2 = trace s ∧
    LockedKeys (this s2) = LockedKeys (this s) ∖ dom t ∧
    IsLocked None s1 = Some (true, s1) ∧
    IsLocked None s2 = Some (bool_decide (dom t = ∅), s2).
Proof.
  intros Ht. eexists _, _. split_and!.
  - by apply Lock_all_eq.
  - by rewrite (Unlock_all_eq _ t).
  - done.
  - done.
  - simpl. apply set_eq. intros x.
    rewrite !elem_of_difference, elem_of_union. tauto.
  - rewrite (IsLocked_all_eq _ t) by done. do 2 f_equal.
    apply bool_decide_eq_true. simpl. intros x Hx. apply elem_of_union. tauto.
  - rewrite (IsLocked_all_eq _ t) by done. do 2 f_equal. simpl.
    apply bool_decide_ext. split.
    + intros Hsub. apply set_eq. intros x. split; [|by rewrite elem_of_empty].
      intros Hx. specialize (Hsub x Hx).
      rewrite elem_of_difference, elem_of_union in Hsub. tauto.
    + intros ->. intros x Hx. by apply elem_of_empty in Hx.
Qed.

(** [Health] was locked; after [Lock()] and [Unlock()] it is not. *)
Lemma Lock_all_Unlock_all_witness :
  ∃ s1 s2,
    Lock None player_locked = Some (tt, s1) ∧
    Unlock None s1 = Some (tt, s2) ∧
    IsLocked (Some Health) player_locked = Some (true, player_locked) ∧
    IsLocked (Some Health) s2 = Some (false, s2).
Proof.
  destruct (Lock_all_Unlock_all player_locked player_record)
    as (s1 & s2 & H1 & H2 & _ & _ & H3 & _); [reflexivity|].
  exists s1, s2. split_and!; [exact H1|exact H2|by vm_compute|].
  rewrite IsLocked_key_eq. do 2 f_equal. apply bool_decide_eq_false.
  rewrite H3. rewrite elem_of_difference. intros [_ Hn]. apply Hn.
  unfold player_record. rewrite !dom_insert_L. set_solver.
Defined.

(** ** Middleware *)

(** X9. There is one middleware per key and the last one registered wins:
    after [Middleware(k, m1)] and [Middleware(k, m2)], what reaches the
    record under [k] is what [m2] returns, [m1] is not consulted, and the
    other keys resolve as they did before; a key without middleware
    resolves to the candidate itself. *)
Theorem Middleware_last_wins s k m1 m2 :
  ∃ s1 s2,
    Middleware k m1 s = Some (tt, s1) ∧
    Middleware k m2 s1 = Some (tt, s2) ∧
    heap s2 = heap s ∧ trace s2 = trace s ∧
    LockedKeys (this s2) = LockedKeys (this s) ∧
    (∀ New Old, resolve (this s2) k New Old = (m2 New Old).1) ∧
    (∀ k' New Old, k' ≠ k →
       resolve (this s2) k' New Old = resolve (this s) k' New Old) ∧
    (∀ k' New Old, MiddlewareMap (this s) !! k' = None → k' ≠ k →
       ∃ s3, ExecuteMiddleware k' New Old s2 = Some (New, s3)) ∧
    ∀ New Old, ∃ s3, ExecuteMiddleware k New Old s2 = Some ((m2 New Old).1, s3).
Proof.
  set (s1 := mkSys (with_MiddlewareMap (<[k:=m1]> (MiddlewareMap (this s))) (this s))
                   (heap s) (trace s)).
  set (s2 := mkSys (with_MiddlewareMap (<[k:=m2]> (MiddlewareMap (this s1))) (this s1))
                   (heap s1) (trace s1)).
  assert (∀ New Old, resolve (this s2) k New Old = (m2 New Old).1) as Hk.
  { intros New Old. unfold resolve. simpl. by rewrite lookup_insert_eq. }
  assert (∀ k' New Old, k' ≠ k →
            resolve (this s2) k' New Old = resolve (this s) k' New Old) as Hk'.
  { intros k' New Old Hne. unfold resolve. simpl. by rewrite !lookup_insert_ne. }
  exists s1, s2. split_and!; try done.
  - intros k' New Old Hnone Hne.
    destruct (ExecuteMiddleware_warns k' New Old s2) as (warns & HEx & _).
    rewrite Hk' in HEx by done.
    assert (resolve (this s) k' New Old = New) as Hr.
    { unfold resolve. by destruct (MiddlewareMap (this s) !! k'). }
    rewrite Hr in HEx. by exists (add_trace s2 warns).
  - intros New Old.
    destruct (ExecuteMiddleware_warns k New Old s2) as (warns & HEx & _).
    rewrite Hk in HEx. by exists (add_trace s2 warns).
Qed.

(** X10. A middleware that takes longer than 0.2 s is not cut short: on a
    key that is not locked [Update] still assigns what it returned (when
    that is not [===] the old value) and fires, and one warning is given to
    [warn] whether the crate is verbose or not. *)
Theorem Update_slow_middleware fuel s Key Value Old (Method : MiddlewareType) :
  Key ∉ LockedKeys (this s) →
  heap_index (heap s) (State (this s)) Key = Some Old →
  MiddlewareMap (this s) !! Key = Some Method →
  (Method Value Old).2 = true →
  raw_equal (Method Value Old).1 Old = false →
  wf fuel (assigned (heap s) (State (this s)) Key (Method Value Old).1) (State (this s)) →
  ∃ s',
    Update fuel Key Value s = Some (Old, s') ∧
    heap_index (heap s') (State (this s)) Key = Some (Method Value Old).1 ∧
    warnings (trace s') = warnings (trace s) ++ [EvWarn (IsVerbose (this s)) MsgYield] ∧
    fires (trace s') = fires (trace s) ++ [EvFire Key Old (Method Value Old).1].
Proof.
  intros Hk HOld HM Hslow Hne Hwf.
  destruct (ExecuteMiddleware_warns Key Value Old s) as (warns & HEx & Hwarns).
  rewrite HM, Hslow in Hwarns. unfold resolve in HEx. rewrite HM in HEx. subst warns.
  rewrite (Update_unlocked_eq _ _ _ _ _ _ _ Hk HOld HEx).
  rewrite Hne.
  destruct (heap_index_is_Some _ _ _ _ (Method Value Old).1 HOld) as [h1 Hassign].
  unfold assigned in Hwf. rewrite Hassign in Hwf.
  destruct (commit_spec fuel (add_trace s [EvWarn (IsVerbose (this s)) MsgYield])
              Key Old _ h1 Hassign Hwf) as (ext & calls & Hcommit & Hdel).
  eexists. split_and!; [exact Hcommit|..].
  - simpl. apply heap_assign_spec in Hassign as (Hi & _ & _ & Hlen).
    rewrite heap_index_app; [done|]. rewrite Hlen. by eapply heap_index_lt.
  - cbn [add_trace trace]. rewrite !warnings_app. rewrite <- (assoc_L (++)). f_equal.
    change (warnings [EvWarn (IsVerbose (this s)) MsgYield])
      with [EvWarn (IsVerbose (this s)) MsgYield].
    rewrite <- (app_nil_r [EvWarn _ _]) at 2. f_equal.
    unfold warnings. rewrite filter_cons_False by done.
    by eapply delivered_no_warn.
  - cbn [add_trace trace]. rewrite !fires_app.
    change (fires [EvWarn (IsVerbose (this s)) MsgYield]) with (@nil Event).
    rewrite app_nil_r. f_equal. unfold fires. rewrite filter_cons_True by done.
    f_equal. by eapply delivered_no_fire.
Qed.

(** The player is not verbose; its [Health] is doubled by a slow
    middleware. *)
Lemma Update_slow_middleware_witness :
  ∃ s',
    Update 2 Health (VNum 30) (after (Middleware Health slow_double) player)
      = Some (VNum 100, s') ∧
    heap_index (heap s') (State (this player)) Health = Some (VNum 60) ∧
    warnings (trace s') = [EvWarn false MsgYield].
Proof.
  destruct (Update_slow_middleware 2 (after (Middleware Health slow_double) player)
              Health (VNum 30) (VNum 100) slow_double)
    as (s' & H1 & H2 & H3 & _); [run|run|run|run|run|apply wfb_wf; run|].
  exists s'. split_and!; [exact H1|exact H2|exact H3].
Defined.

(** ** Overwrite *)

(** X11. [Overwrite(State)] makes the caller's table the record, by
    reference and whatever is locked: [Get(k)] then returns that table's
    value under [k], a later assignment by the caller to the table shows
    through [Get(k)], the locks, the log and the listeners hear nothing of
    it, and the baseline is kept: [Restore()] brings the structure of the
    baseline back. *)
Theorem Overwrite_shares_and_keeps_baseline fuel s NewState t :
  wf fuel (heap s) (InitialState (this s)) →
  heap s !! NewState = Some t →
  ∃ s1,
    Overwrite NewState s = Some (tt, s1) ∧
    LockedKeys (this s1) = LockedKeys (this s) ∧
    heap s1 = heap s ∧ trace s1 = trace s ∧
    (∀ k, Get fuel (Some k) s1 = Some (tget t k, s1)) ∧
    (∀ k v h',
       heap_assign (heap s1) NewState k v = Some h' →
       Get fuel (Some k) (mkSys (this s1) h' (trace s1))
         = Some (v, mkSys (this s1) h' (trace s1))) ∧
    ∃ s2,
      Restore fuel s1 = Some (tt, s2) ∧
      state_tree fuel s2 = reify fuel (heap s) (VTable (InitialState (this s))) ∧
      trace s2 = trace s.
Proof.
  intros Hwf Ht. eexists. split; [done|]. simpl. split_and!; [done..| | |].
  - intros k. unfold Get, mbind, M_bind, get_this, index, heap_index. simpl.
    by rewrite Ht.
  - intros k v h' (Hi & _)%heap_assign_spec.
    unfold Get, mbind, M_bind, get_this, index. simpl. by rewrite Hi.
  - destruct (DeepCopy_spec _ _ _ Hwf) as (ext & Hdc & _ & Hre & _).
    exists (mkSys (with_State (length (heap s)) (with_State NewState (this s)))
                  (heap s ++ ext) (trace s)).
    split_and!; [|exact Hre|done].
    unfold Restore, mbind, M_bind, get_this, deep_copy, set_this. simpl.
    by rewrite Hdc.
Qed.

Lemma Overwrite_shares_and_keeps_baseline_witness :
  ∃ s1 s2,
    Overwrite 1 player_locked = Some (tt, s1) ∧
    Get 2 (Some (KNum 1)) s1 = Some (VStr "sword", s1) ∧
    Restore 2 s1 = Some (tt, s2) ∧
    state_tree 2 s2 = state_tree 2 player.
Proof.
  destruct (Overwrite_shares_and_keeps_baseline 2 player_locked 1 player_items)
    as (s1 & H1 & _ & _ & _ & H2 & _ & s2 & H3 & H4 & _).
  - apply wfb_wf. run.
  - reflexivity.
  - exists s1, s2. split_and!; [exact H1|exact (H2 (KNum 1))|exact H3|].
    rewrite H4. run.
Defined.

(** X12. [Overwrite(State).Snapshot()], the idiom of the class
    documentation, makes the structure of [State] the new default: whatever
    happens next, short of another [Snapshot] or of a write into the new
    baseline, [Restore()] returns the record to the structure [State] had. *)
Theorem Overwrite_Snapshot_sets_default fuel s NewState :
  wf fuel (heap s) NewState →
  ∃ s1 s2,
    Overwrite NewState s = Some (tt, s1) ∧
    Snapshot fuel s1 = Some (tt, s2) ∧
    ∀ s3,
      rtc (mutation fuel) s2 s3 →
      ∃ s4,
        Restore fuel s3 = Some (tt, s4) ∧
        state_tree fuel s4 = reify fuel (heap s) (VTable NewState).
Proof.
  intros Hwf.
  set (s1 := mkSys (with_State NewState (this s)) (heap s) (trace s)).
  destruct (Snapshot_spec fuel s1 Hwf) as (s2 & HSnap & HB).
  exists s1, s2. split_and!; [done..|]. intros s3 Hmut.
  pose proof (baseline_mutations _ _ _ _ HB Hmut) as HB3.
  destruct (Restore_spec _ _ _ HB3) as (ext & HRes & Hre).
  eexists. split; [exact HRes|]. done.
Qed.

(** The player is overwritten with [{Health: 50, Name: "John"}] and takes a
    snapshot; [Health] is then set to 7, and [Restore()] brings 50 back. *)
Lemma Overwrite_Snapshot_sets_default_witness :
  ∃ s3 s4,
    heap_index (heap s3) (State (this s3)) Health = Some (VNum 7) ∧
    Restore 2 s3 = Some (tt, s4) ∧
    field (state_tree 2 s4) Health = Some (TVal (VNum 50)).
Proof.
  destruct (Overwrite_Snapshot_sets_default 2 player_name_locked 4)
    as (s1 & s2 & H1 & H2 & H); [apply wfb_wf; run|].
  assert (s1 = after (Overwrite 4) player_name_locked) as ->.
  { unfold after. by rewrite H1. }
  assert (s2 = after (Snapshot 2) (after (Overwrite 4) player_name_locked)) as ->.
  { unfold after at 1. by rewrite H2. }
  set (s3 := after (Update 2 Health (VNum 7))
               (after (Snapshot 2) (after (Overwrite 4) player_name_locked))).
  destruct (H s3) as (s4 & H3 & H4).
  { eapply rtc_l; [eapply (mut_Update _ Health (VNum 7) (VNum 50)); run|].
    apply rtc_refl. }
  exists s3, s4. split_and!; [run|exact H3|]. rewrite H4. run.
Defined.

(** ** Destroy *)

Lemma run_listeners_disconnected fuel K O N cs i s :
  Forall (λ C, Connected C = false) cs →
  run_listeners fuel i cs K O N s = Some (tt, s).
Proof.
  intros Hcs. revert i. induction Hcs as [|C rest HC _ IH]; intros i; [done|].
  simpl. unfold mbind, M_bind. rewrite HC. unfold ret at 1. apply IH.
Qed.

Lemma Fire_disconnected fuel K O N s :
  Forall (λ C, Connected C = false) (Connections (this s)) →
  Fire fuel K O N s = Some (tt, add_trace s [EvFire K O N]).
Proof.
  intros Hcs. unfold Fire, mbind, M_bind, emit, get_this.
  by rewrite run_listeners_disconnected.
Qed.

Lemma calls_of_warns_fire i warns K O N :
  Forall (λ e, is_warn e = true) warns →
  calls_of i (warns ++ [EvFire K O N]) = [].
Proof. intros H. by rewrite calls_of_app, calls_of_warns. Qed.

Lemma commit_disconnected fuel Key Old Result r s s' i :
  Forall (λ C, Connected C = false) (Connections (this s)) →
  (assign (State (this s)) Key Result;; Fire fuel Key Old Result;; ret Old) s
    = Some (r, s') →
  calls_of i (trace s') = calls_of i (trace s).
Proof.
  intros Hcs. unfold mbind, M_bind, assign, ret.
  destruct (heap_assign _ _ _ _) as [h1|] eqn:Ha; [|done].
  rewrite Fire_disconnected by done. intros [= <- <-]. simpl.
  rewrite calls_of_app. apply app_nil_r.
Qed.

Lemma Update_disconnected fuel Key Value r s s' i :
  Forall (λ C, Connected C = false) (Connections (this s)) →
  Update fuel Key Value s = Some (r, s') →
  calls_of i (trace s') = calls_of i (trace s).
Proof.
  intros Hcs. destruct (decide (Key ∈ LockedKeys (this s))) as [Hk|Hk].
  { rewrite Update_locked by done. intros [= <- <-]. simpl.
    rewrite calls_of_app. destruct (IsVerbose (this s)); apply app_nil_r. }
  destruct (heap_index (heap s) (State (this s)) Key) as [Old|] eqn:HOld.
  - destruct (ExecuteMiddleware_eq Key Value Old s) as (R & warns & HEx & Hw & _).
    rewrite (Update_unlocked_eq _ _ _ _ _ _ _ Hk HOld HEx).
    assert (calls_of i (trace (add_trace s warns)) = calls_of i (trace s)) as Hc.
    { cbn [add_trace trace]. rewrite calls_of_app, (calls_of_warns i warns) by done.
      apply app_nil_r. }
    destruct (raw_equal R Old).
    + by intros [= <- <-].
    + intros Hcm. rewrite <- Hc.
      by apply (commit_disconnected fuel Key Old R r (add_trace s warns)).
  - unfold Update, mbind, M_bind, get_this. rewrite decide_False by done.
    unfold index. by rewrite HOld.
Qed.

Lemma Increment_disconnected fuel Key Amount r s s' i :
  Forall (λ C, Connected C = false) (Connections (this s)) →
  Increment fuel Key Amount s = Some (r, s') →
  calls_of i (trace s') = calls_of i (trace s).
Proof.
  intros Hcs. destruct (heap_index (heap s) (State (this s)) Key) as [Old|] eqn:HOld.
  - destruct (is_number Old) eqn:Hn.
    + destruct (decide (Key ∈ LockedKeys (this s))) as [Hk|Hk].
      * unfold Increment, mbind, M_bind, get_this. rewrite decide_True by done.
        unfold index. rewrite HOld. by intros [= <- <-].
      * destruct Old as [| |n| |]; try done.
        destruct (ExecuteMiddleware_eq Key (VNum (num_add n Amount)) (VNum n) s)
          as (R & warns & HEx & Hw & _).
        rewrite (Increment_number_eq _ _ _ _ _ _ _ Hk HOld HEx). intros Hcm.
        assert (calls_of i (trace (add_trace s warns)) = calls_of i (trace s)) as <-.
        { cbn [add_trace trace]. rewrite calls_of_app, (calls_of_warns i warns) by done.
      apply app_nil_r. }
        by apply (commit_disconnected fuel Key (VNum n) R r (add_trace s warns)).
    + rewrite (Increment_not_number_eq _ _ _ _ _ HOld Hn).
      case_decide; intros [= <- <-]; [done|]. simpl. rewrite calls_of_app.
      destruct (IsVerbose (this s)); apply app_nil_r.
  - unfold Increment, mbind, M_bind, get_this.
    case_decide; unfold index; by rewrite HOld.
Qed.

Lemma keyed_write_disconnected fuel s s' i :
  Forall (λ C, Connected C = false) (Connections (this s)) →
  keyed_write fuel s s' →
  calls_of i (trace s') = calls_of i (trace s).
Proof.
  intros Hcs Hkw. revert Hcs.
  destruct Hkw as [K V r s1 s2 H|D s1 s2 H|K A r s1 s2 H|K s1 s2 H]; intros Hcs.
  - by eapply Update_disconnected.
  - unfold UpdateAll, mbind, M_bind, pairs in H.
    destruct (heap_pairs _ _) as [entries|]; [|done].
    revert s1 Hcs H. induction entries as [|[K V] rest IH]; intros s1 Hcs; simpl.
    { by intros [= <-]. }
    unfold mbind, M_bind. destruct (Update fuel K V s1) as [[r s1']|] eqn:HU; [|done].
    intros H. pose proof (Update_keeps _ _ _ _ _ _ HU) as [Ht _].
    rewrite (IH s1') by (by rewrite ?Ht). by eapply Update_disconnected.
  - by eapply Increment_disconnected.
  - unfold Reset, mbind, M_bind, get_this, index, ret in H.
    destruct (heap_index _ _ _) as [b|]; [|done].
    destruct (Update fuel K b s1) as [[r s1']|] eqn:HU; [|done]. injection H as <-.
    by eapply Update_disconnected.
Qed.

(** X13. [Destroy()] disconnects every listener and leaves the record, the
    baseline, the locks and the middleware as they are. Afterwards no
    sequence of [Update], [Increment] and [Reset] calls a subscriber that
    was connected before, though the record is still written. *)
Theorem Destroy_silences_subscribers fuel s :
  ∃ s1,
    Destroy s = Some (tt, s1) ∧
    State (this s1) = State (this s) ∧ InitialState (this s1) = InitialState (this s) ∧
    LockedKeys (this s1) = LockedKeys (this s) ∧
    MiddlewareMap (this s1) = MiddlewareMap (this s) ∧
    heap s1 = heap s ∧ trace s1 = trace s ∧
    ∀ s2, rtc (keyed_write fuel) s1 s2 →
          ∀ i, calls_of i (trace s2) = calls_of i (trace s).
Proof.
  eexists. split; [done|]. simpl. split_and!; [done..|].
  set (s1 := mkSys _ _ _).
  assert (Forall (λ C, Connected C = false) (Connections (this s1))) as Hcs.
  { simpl. apply Forall_fmap. by apply Forall_true. }
  assert (trace s1 = trace s) as <- by done.
  clearbody s1. intros s2 Hr i.
  induction Hr as [s1|s1 s2 s3 H12 _ IH]; [done|].
  pose proof (keyed_write_locked _ _ _ H12) as [Ht _].
  rewrite IH by by rewrite Ht. by eapply keyed_write_disconnected.
Qed.

(** [Destroy()] on the observed player, then an update of [Health]: nobody
    is called. *)
Lemma Destroy_silences_subscribers_witness :
  ∃ s1 s2,
    Destroy player_observed = Some (tt, s1) ∧
    Update 2 Health (VNum 1) s1 = Some (VNum 100, s2) ∧
    heap_index (heap s2) (State (this s2)) Health = Some (VNum 1) ∧
    calls_of 0 (trace s2) = [].
Proof.
  destruct (Destroy_silences_subscribers 2 player_observed) as (s1 & H1 & _ & _ & _ & _ & _ & _ & H).
  assert (s1 = after Destroy player_observed) as ->.
  { unfold after. by rewrite H1. }
  exists (after Destroy player_observed),
         (after (Update 2 Health (VNum 1)) (after Destroy player_observed)).
  split_and!; [exact H1|run|run|].
  rewrite (H (after (Update 2 Health (VNum 1)) (after Destroy player_observed))); [run|].
  eapply rtc_l; [eapply (kw_Update _ Health (VNum 1) (VNum 100)); run|apply rtc_refl].
Defined.

(** ** Subscribing *)

(** X14. [OnChange(k, Callback)] appends a connected listener and returns it;
    heap, log and record are untouched. From then on an [Update] of a key
    that is not locked calls it once, with [(Result, Old)], when the key is
    [k] and the value changes, and does not call it when the key is another
    one or the result is [===] the old value. *)
Theorem OnChange_then_Update fuel s k :
  ∃ i s1,
    OnChange (Scoped k) s = Some (i, s1) ∧
    i = length (Connections (this s)) ∧
    Connections (this s1) !! i = Some (mkConnection (Scoped k) true) ∧
    heap s1 = heap s ∧ trace s1 = trace s ∧ State (this s1) = State (this s) ∧
    ∀ Key Value Old Result sw,
      Key ∉ LockedKeys (this s) →
      heap_index (heap s) (State (this s)) Key = Some Old →
      ExecuteMiddleware Key Value Old s1 = Some (Result, sw) →
      (raw_equal Result Old = true →
         ∃ s2, Update fuel Key Value s1 = Some (Old, s2) ∧
               calls_of i (trace s2) = calls_of i (trace s)) ∧
      (raw_equal Result Old = false →
         wf fuel (assigned (heap s) (State (this s)) Key Result) (State (this s)) →
         ∃ s2, Update fuel Key Value s1 = Some (Old, s2) ∧
               calls_of i (trace s2) =
                 calls_of i (trace s) ++
                   (if decide (k = Key) then [EvCall i Result Old] else [])).
Proof.
  set (i := length (Connections (this s))).
  set (s1 := mkSys (with_Connections (Connections (this s) ++ [mkConnection (Scoped k) true])
                      (this s)) (heap s) (trace s)).
  exists i, s1. split_and!; try done.
  { simpl. by apply list_lookup_middle. }
  intros Key Value Old Result sw Hk HOld HEx.
  destruct (ExecuteMiddleware_eq Key Value Old s1) as (R & warns & HEx' & Hw & _).
  rewrite HEx in HEx'. injection HEx' as <- ->.
  rewrite (Update_unlocked_eq fuel s1 Key Value Old Result _ Hk HOld HEx).
  assert (calls_of i (trace (add_trace s1 warns)) = calls_of i (trace s)) as Hc.
  { cbn [add_trace trace s1]. rewrite calls_of_app, (calls_of_warns i warns) by done.
    apply app_nil_r. }
  split.
  - intros ->. by eexists.
  - intros Hne Hwf. rewrite Hne.
    destruct (heap_index_is_Some _ _ _ _ Result HOld) as [h1 Hassign].
    unfold assigned in Hwf. rewrite Hassign in Hwf.
    destruct (commit_spec fuel (add_trace s1 warns) Key Old Result h1 Hassign Hwf)
      as (ext & calls & Hcommit & Hdel).
    eexists. split; [exact Hcommit|].
    pose proof (delivered_at _ _ _ _ _ _ 0 _ _ i (mkConnection (Scoped k) true) Hdel)
      as Hrec.
    simpl in Hrec. specialize (Hrec (list_lookup_middle _ _ _ _ eq_refl)).
    unfold received in Hrec. simpl in Hrec. fold (calls_of i calls) in Hrec.
    cbn [trace]. rewrite calls_of_app. rewrite Hc. f_equal.
    by rewrite <- Hrec.
Qed.

Lemma OnChange_then_Update_witness :
  ∃ i s1 s2,
    OnChange (Scoped Health) player = Some (i, s1) ∧
    Update 2 Health (VNum 5) s1 = Some (VNum 100, s2) ∧
    calls_of i (trace s2) = [EvCall i (VNum 5) (VNum 100)].
Proof.
  destruct (OnChange_then_Update 2 player Health)
    as (i & s1 & H1 & Hi & _ & _ & _ & _ & H).
  destruct (H Health (VNum 5) (VNum 100) (VNum 5) s1) as [_ H2]; [run|run| |].
  { injection H1 as <- <-. run. }
  destruct H2 as (s2 & H3 & H4); [reflexivity|apply wfb_wf; run|].
  exists i, s1, s2. split_and!; [exact H1|exact H3|].
  rewrite H4. by rewrite decide_True.
Defined.

(** ** DeepCopy *)

(** X16. [DeepCopy] only allocates: whenever it returns, the table it
    returns is new and every table that existed holds what it held. *)
Theorem DeepCopy_only_allocates n h a h' c :
  DeepCopy n h a = Some (h', c) →
  c = length h ∧ (length h < length h')%nat ∧
  ∀ b, (b < length h)%nat → h' !! b = h !! b.
Proof.
  destruct n as [|n]; [done|]. rewrite DeepCopy_S.
  destruct (heap_pairs h a) as [entries|]; [|done].
  destruct (copy_entries _ _ _ _) as [hF|] eqn:Hloop; [|done].
  intros [= <- <-]. split; [done|].
  apply copy_entries_ext in Hloop as (e' & -> & Hlen).
  - split; [rewrite length_app; simpl in *; lia|].
    intros b Hb. by apply lookup_app_l.
  - intros h1 a1 h1' c1 H1. by destruct (DeepCopy_ext _ _ _ _ _ H1).
Qed.

Lemma DeepCopy_only_allocates_witness :
  DeepCopy 2 player_heap 0 = Some (heap player, 2%nat) ∧
  heap player !! 0%nat = player_heap !! 0%nat ∧
  heap player !! 1%nat = player_heap !! 1%nat.
Proof.
  assert (DeepCopy 2 player_heap 0 = Some (heap player, 2%nat)) as H by reflexivity.
  destruct (DeepCopy_only_allocates 2 player_heap 0 (heap player) 2 H) as (_ & _ & Hold).
  split_and!; [exact H|apply Hold; simpl; lia..].
Defined.

(** ** DeepCopy on cyclic data *)

Lemma loops_step h a :
  loops h a → ∃ t k b, h !! a = Some t ∧ t !! k = Some (VTable b) ∧ loops h b.
Proof.
  intros (c & t & k & b & Hac & Hc & Hk & Hbc).
  destruct Hac as [a|a t' k' b' c Ha Hk' Hb'c].
  - exists t, k, b. split_and!; [done..|]. by exists a, t, k, b.
  - exists t', k', b'. split_and!; [done..|]. by exists c, t, k, b.
Qed.

Lemma loops_agree h h' a :
  (∀ x, (x < length h)%nat → h' !! x = h !! x) → loops h a → loops h' a.
Proof.
  intros Hag (c & t & k & b & Hac & Hc & Hk & Hbc).
  assert (∀ x y, reach h x y → is_Some (h !! y) → reach h' x y) as Hre.
  { intros x y Hr. induction Hr as [x|x t' k' y z Hx Hk' _ IH]; [constructor|].
    intros Hz. eapply reach_step; [|done|by apply IH].
    rewrite Hag; [done|]. by eapply lookup_lt_Some. }
  exists c, t, k, b. split_and!; [by apply Hre|..|done|by apply Hre].
  rewrite Hag; [done|]. by eapply lookup_lt_Some.
Qed.

(** The loop of [DeepCopy] fails as soon as one recursive call does, on every
    heap the loop can have reached by then. *)
Lemma copy_entries_fails (rec : Heap → addr → option (Heap * addr)) (P : Heap → Prop)
    Copy entries k b :
  (k, VTable b) ∈ entries →
  (∀ h, P h → rec h b = None) →
  (∀ h b' h1 c, P h → rec h b' = Some (h1, c) → P h1) →
  (∀ h k' v h1, P h → heap_assign h Copy k' v = Some h1 → P h1) →
  ∀ h, P h → copy_entries rec Copy entries h = None.
Proof.
  intros Hin Hrec Hstep Hassign. induction entries as [|[k' v] rest IH]; intros h Hh.
  { by apply elem_of_nil in Hin. }
  apply elem_of_cons in Hin as [[= <- <-]|Hin].
  - simpl. by rewrite Hrec.
  - simpl.
    destruct v as [| | | |b'];
      try (destruct (heap_assign _ _ _ _) eqn:Has; [eapply IH; eauto|done]).
    destruct (rec h b') as [[h1 c]|] eqn:Hr; [|done].
    destruct (heap_assign _ _ _ _) eqn:Has; [|done]. eapply IH; eauto.
Qed.

(** X15. [DeepCopy] of a table in which, at any depth, some table is nested
    in itself returns with no amount of fuel: the source recurses for ever. *)
Theorem DeepCopy_cyclic_never_returns fuel h a :
  loops h a → DeepCopy fuel h a = None.
Proof.
  revert h a. induction fuel as [|n IH]; intros h a Hl; [done|].
  rewrite DeepCopy_S. unfold heap_pairs.
  destruct (loops_step _ _ Hl) as (t & k & b & Ha & Hk & Hb). rewrite Ha.
  rewrite (copy_entries_fails (DeepCopy n)
             (λ h', ∀ x, (x < length h)%nat → h' !! x = h !! x)
             (length h) (map_to_list t) k b); [done| | | | |].
  - by apply elem_of_map_to_list.
  - intros h' Hag. apply IH. by eapply loops_agree.
  - intros h' b' h1 c Hag Hdc x Hx.
    apply DeepCopy_ext in Hdc as [_ [ext ->]].
    rewrite lookup_app_l; [by apply Hag|].
    apply lookup_lt_is_Some. rewrite Hag by done. by apply lookup_lt_is_Some.
  - intros h' k' v h1 Hag Has x Hx.
    apply heap_assign_spec in Has as (_ & _ & Hoth & _).
    rewrite Hoth by lia. by apply Hag.
  - intros x Hx. by apply lookup_app_l.
Qed.

Lemma DeepCopy_cyclic_never_returns_witness :
  loops self_nested 0 ∧ DeepCopy 5 self_nested 0 = None.
Proof.
  assert (loops self_nested 0) as Hl.
  { exists 0%nat, {[ KStr "Self" := VTable 0 ]}, (KStr "Self"), 0%nat.
    split_and!; [constructor|done|done|constructor]. }
  split; [exact Hl|]. exact (DeepCopy_cyclic_never_returns 5 self_nested 0 Hl).
Defined.

(** ** What a call can write to *)

Lemma frame_untouched s s' : frame s s' → untouched s s'.
Proof. by intros (_ & ? & ?). Qed.

Lemma untouched_heap s c tr : untouched s (mkSys c (heap s) tr).
Proof. by split. Qed.

Lemma untouched_app s c ext tr : untouched s (mkSys c (heap s ++ ext) tr).
Proof.
  split; simpl; [rewrite length_app; lia|]. intros b Hb _. by apply lookup_app_l.
Qed.

(** X17. No call of a method writes to a table that existed before the call,
    the live record apart: the tables handed to the crate ([InitialState]
    once it has been replaced as the record, the dispatch table of
    [Update], a state given to [Overwrite] before it is the record), the
    baseline and the copies handed out are only read. *)
Theorem method_call_writes_only_to_record fuel s s' :
  method_call fuel s s' → untouched s s'.
Proof.
  intros Hm.
  destruct Hm as [s s' Hkw|Key r s s' H|Key s s' H|Key s s' H|Key r s s' H|s s' H
                 |s s' H|NewState s s' H|Key Mw s s' H|sub r s s' H|s s' H|s s' H].
  - apply frame_untouched.
    destruct Hkw as [Key Value r s s' H|Dispatch s s' H|Key Amount r s s' H|Key s s' H].
    + by eapply Update_frame.
    + by eapply UpdateAll_frame.
    + by eapply Increment_frame.
    + by eapply Reset_frame.
  - destruct Key as [k|].
    + unfold Get, mbind, M_bind, get_this, index in H.
      destruct (heap_index _ _ _); [|done]. injection H as <- <-. by split.
    + unfold Get, mbind, M_bind, get_this, deep_copy, ret in H.
      destruct (DeepCopy _ _ _) as [[h1 c]|] eqn:Hdc; [|done]. injection H as <- <-.
      apply DeepCopy_ext in Hdc as [_ [ext ->]]. apply untouched_app.
  - destruct Key as [k|].
    + injection H as <-. apply untouched_heap.
    + unfold Lock, mbind, M_bind, get_this, pairs, set_this in H.
      destruct (heap_pairs _ _); [|done]. injection H as <-. apply untouched_heap.
  - destruct Key as [k|].
    + injection H as <-. apply untouched_heap.
    + unfold Unlock, mbind, M_bind, get_this, pairs, set_this in H.
      destruct (heap_pairs _ _); [|done]. injection H as <-. apply untouched_heap.
  - destruct Key as [k|].
    + injection H as <- <-. by split.
    + unfold IsLocked, mbind, M_bind, get_this, pairs, ret in H.
      destruct (heap_pairs _ _); [|done]. injection H as <- <-. by split.
  - unfold Restore, mbind, M_bind, get_this, deep_copy, set_this in H.
    destruct (DeepCopy _ _ _) as [[h1 c]|] eqn:Hdc; [|done]. injection H as <-.
    apply DeepCopy_ext in Hdc as [_ [ext ->]]. apply untouched_app.
  - unfold Snapshot, mbind, M_bind, get_this, deep_copy, set_this in H.
    destruct (DeepCopy _ _ _) as [[h1 c]|] eqn:Hdc; [|done]. injection H as <-.
    apply DeepCopy_ext in Hdc as [_ [ext ->]]. apply untouched_app.
  - injection H as <-. apply untouched_heap.
  - injection H as <-. apply untouched_heap.
  - injection H as <- <-. apply untouched_heap.
  - injection H as <-. apply untouched_heap.
  - injection H as <-. apply untouched_heap.
Qed.

(** [Update({Health: 50, Name: "John"})] on the player leaves the table it
    was given as it is. *)
Lemma method_call_writes_only_to_record_witness :
  method_call 2 player_name_locked (after (UpdateAll 2 4) player_name_locked) ∧
  heap (after (UpdateAll 2 4) player_name_locked) !! 4%nat = Some player_dispatch.
Proof.
  assert (method_call 2 player_name_locked (after (UpdateAll 2 4) player_name_locked))
    as Hm.
  { apply mc_keyed, (kw_UpdateAll 2 4). run. }
  split; [exact Hm|].
  destruct (method_call_writes_only_to_record _ _ _ Hm) as [_ Hoth].
  rewrite (Hoth 4%nat); [reflexivity|vm_compute; lia|discriminate].
Defined.

(** ** Verbosity *)

Lemma quiet_app tr1 tr2 : quiet (tr1 ++ tr2) = quiet tr1 ++ quiet tr2.
Proof. apply filter_app. Qed.

Lemma quiet_warn tr vrb msg : quiet (tr ++ [EvWarn vrb msg]) = quiet tr.
Proof. rewrite quiet_app. apply app_nil_r. Qed.

Lemma same_but_verbose_fields c1 c2 :
  same_but_verbose c1 c2 →
  State c1 = State c2 ∧ Connections c1 = Connections c2 ∧
  InitialState c1 = InitialState c2 ∧ MiddlewareMap c1 = MiddlewareMap c2 ∧
  LockedKeys c1 = LockedKeys c2.
Proof. intros [= ? ? ? ? ?]. done. Qed.

Lemma alike_ret {A} (R : A → A → Prop) a1 a2 : R a1 a2 → alike R (ret a1) (ret a2).
Proof. intros HR s1 s2 Hs. by split. Qed.

Lemma alike_bind {A B} (R : A → A → Prop) (Q : B → B → Prop)
    (m1 m2 : M A) (f1 f2 : A → M B) :
  alike R m1 m2 → (∀ a1 a2, R a1 a2 → alike Q (f1 a1) (f2 a2)) →
  alike Q (m1 ≫= f1) (m2 ≫= f2).
Proof.
  intros Hm Hf s1 s2 Hs. specialize (Hm s1 s2 Hs). unfold mbind, M_bind.
  destruct (m1 s1) as [[a1 s1']|], (m2 s2) as [[a2 s2']|]; try done.
  destruct Hm as [HR Hs']. by apply Hf.
Qed.

Lemma alike_get_this : alike same_but_verbose get_this get_this.
Proof. intros s1 s2 Hs. split; [apply Hs|done]. Qed.

Lemma alike_set_this c1 c2 :
  same_but_verbose c1 c2 → alike eq (set_this c1) (set_this c2).
Proof. intros Hc s1 s2 (_ & Hh & Ht). by split_and!. Qed.

Lemma alike_emit e : is_warn e = false → alike eq (emit e) (emit e).
Proof.
  intros He s1 s2 (Hc & Hh & Ht). unfold emit. split; [done|].
  split_and!; [done..|]. simpl. by rewrite !quiet_app, Ht.
Qed.

Lemma alike_Log Msg Verbose : alike eq (Log Msg Verbose) (Log Msg Verbose).
Proof.
  intros s1 s2 (Hc & Hh & Ht). unfold Log, mbind, M_bind, get_this.
  destruct (negb Verbose || IsVerbose (this s1)),
           (negb Verbose || IsVerbose (this s2)); simpl;
    (split; [done|]); (split_and!; [done..|]); simpl; by rewrite ?quiet_warn.
Qed.

Lemma alike_index a k : alike eq (index a k) (index a k).
Proof.
  intros s1 s2 (Hc & Hh & Ht). unfold index. rewrite Hh.
  by destruct (heap_index _ _ _).
Qed.

Lemma alike_assign a k v : alike eq (assign a k v) (assign a k v).
Proof.
  intros s1 s2 (Hc & Hh & Ht). unfold assign. rewrite Hh.
  by destruct (heap_assign _ _ _ _).
Qed.

Lemma alike_pairs a : alike eq (pairs a) (pairs a).
Proof.
  intros s1 s2 (Hc & Hh & Ht). unfold pairs. rewrite Hh.
  by destruct (heap_pairs _ _).
Qed.

Lemma alike_deep_copy fuel a : alike eq (deep_copy fuel a) (deep_copy fuel a).
Proof.
  intros s1 s2 (Hc & Hh & Ht). unfold deep_copy. rewrite Hh.
  by destruct (DeepCopy _ _ _) as [[h c]|].
Qed.

Lemma alike_ExecuteMiddleware Key New Old :
  alike eq (ExecuteMiddleware Key New Old) (ExecuteMiddleware Key New Old).
Proof.
  unfold ExecuteMiddleware. eapply alike_bind; [apply alike_get_this|].
  intros c1 c2 (_ & _ & _ & HM & _)%same_but_verbose_fields. rewrite HM.
  destruct (MiddlewareMap c2 !! Key) as [Method|]; [|by apply alike_ret].
  destruct (Method New Old) as [Result slow].
  eapply (alike_bind eq); [|intros; by apply alike_ret].
  destruct slow; [apply alike_Log|by apply alike_ret].
Qed.

Lemma alike_run_listener fuel i sub K O N :
  alike eq (run_listener fuel i sub K O N) (run_listener fuel i sub K O N).
Proof.
  destruct sub as [Key|]; simpl.
  { case_decide; [by apply alike_emit|by apply alike_ret]. }
  eapply alike_bind; [apply alike_get_this|].
  intros c1 c2 (-> & _)%same_but_verbose_fields.
  eapply (alike_bind eq); [apply alike_deep_copy|]. intros Old ? <-.
  eapply (alike_bind eq); [apply alike_assign|]. intros _ _ _.
  eapply alike_bind; [apply alike_get_this|].
  intros c1' c2' (-> & _)%same_but_verbose_fields.
  eapply (alike_bind eq); [apply alike_deep_copy|]. intros New ? <-.
  by apply alike_emit.
Qed.

Lemma alike_run_listeners fuel i cs K O N :
  alike eq (run_listeners fuel i cs K O N) (run_listeners fuel i cs K O N).
Proof.
  revert i. induction cs as [|C rest IH]; intros i; simpl; [by apply alike_ret|].
  eapply (alike_bind eq); [|intros; apply IH].
  destruct (Connected C); [apply alike_run_listener|by apply alike_ret].
Qed.

Lemma alike_Fire fuel K O N : alike eq (Fire fuel K O N) (Fire fuel K O N).
Proof.
  unfold Fire. eapply (alike_bind eq); [by apply alike_emit|]. intros _ _ _.
  eapply alike_bind; [apply alike_get_this|].
  intros c1 c2 (_ & -> & _)%same_but_verbose_fields. apply alike_run_listeners.
Qed.

Lemma alike_Update fuel Key Value :
  alike eq (Update fuel Key Value) (Update fuel Key Value).
Proof.
  unfold Update. eapply alike_bind; [apply alike_get_this|].
  intros c1 c2 (-> & _ & _ & _ & ->)%same_but_verbose_fields.
  case_decide.
  { eapply (alike_bind eq); [apply alike_Log|]. intros; by apply alike_ret. }
  eapply (alike_bind eq); [apply alike_index|]. intros Old ? <-.
  eapply (alike_bind eq); [apply alike_ExecuteMiddleware|]. intros Result ? <-.
  destruct (raw_equal Result Old); [by apply alike_ret|].
  eapply (alike_bind eq); [apply alike_assign|]. intros _ _ _.
  eapply (alike_bind eq); [apply alike_Fire|]. intros _ _ _. by apply alike_ret.
Qed.

Lemma alike_update_each fuel entries :
  alike eq (update_each fuel entries) (update_each fuel entries).
Proof.
  induction entries as [|[K V] rest IH]; simpl; [by apply alike_ret|].
  eapply (alike_bind eq); [apply alike_Update|]. intros; apply IH.
Qed.

(** X18. [IsVerbose] is read by [Log] and by nothing else: on two crates
    that differ at most in verbosity and in what they have logged, a call of
    [Update] (for a key or for a table), [Increment] or [Reset] returns the
    same value, or fails on both, and leaves them with the same heap, the
    same fields other than [IsVerbose], and the same notifications and calls
    of subscribers. *)
Theorem verbosity_only_changes_the_log fuel :
  (∀ Key Value, alike eq (Update fuel Key Value) (Update fuel Key Value)) ∧
  (∀ Dispatch, alike eq (UpdateAll fuel Dispatch) (UpdateAll fuel Dispatch)) ∧
  (∀ Key Amount, alike eq (Increment fuel Key Amount) (Increment fuel Key Amount)) ∧
  (∀ Key, alike eq (Reset fuel Key) (Reset fuel Key)).
Proof.
  split_and!.
  - apply alike_Update.
  - intros Dispatch. unfold UpdateAll.
    eapply (alike_bind eq); [apply alike_pairs|]. intros entries ? <-.
    apply alike_update_each.
  - intros Key Amount. unfold Increment. eapply alike_bind; [apply alike_get_this|].
    intros c1 c2 (-> & _ & _ & _ & ->)%same_but_verbose_fields.
    case_decide; [apply alike_index|].
    eapply (alike_bind eq); [apply alike_index|]. intros Old ? <-.
    destruct Old as [|b|n|str|a];
      try (eapply (alike_bind eq); [apply alike_Log|]; intros _ _ _; apply alike_index).
    eapply (alike_bind eq); [apply alike_ExecuteMiddleware|]. intros Result ? <-.
    eapply (alike_bind eq); [apply alike_assign|]. intros _ _ _.
    eapply (alike_bind eq); [apply alike_Fire|]. intros _ _ _. by apply alike_ret.
  - intros Key. unfold Reset. eapply alike_bind; [apply alike_get_this|].
    intros c1 c2 (_ & _ & -> & _)%same_but_verbose_fields.
    eapply (alike_bind eq); [apply alike_index|]. intros v ? <-.
    eapply (alike_bind eq); [apply alike_Update|]. intros _ _ _. by apply alike_ret.
Qed.

(** [Update("Name", "John")] with [Name] locked, on the verbose player and
    on the quiet one: one logs the attempt, the other nothing, and they
    agree on everything else. *)
Lemma verbosity_only_changes_the_log_witness :
  same_but_log player_verbose_locked player_quiet_locked ∧
  same_but_log (after (Update 2 Name (VStr "John")) player_verbose_locked)
               (after (Update 2 Name (VStr "John")) player_quiet_locked) ∧
  trace (after (Update 2 Name (VStr "John")) player_verbose_locked) =
    [EvWarn true (MsgLocked Name (VStr "John"))] ∧
  trace (after (Update 2 Name (VStr "John")) player_quiet_locked) = [].
Proof.
  assert (same_but_log player_verbose_locked player_quiet_locked) as Hs.
  { split_and!; reflexivity. }
  pose proof (proj1 (verbosity_only_changes_the_log 2) Name (VStr "John") _ _ Hs) as Ha.
  split_and!; [exact Hs| |reflexivity..].
  unfold after.
  destruct (Update 2 Name (VStr "John") player_verbose_locked) as [[r1 s1]|];
    destruct (Update 2 Name (VStr "John") player_quiet_locked) as [[r2 s2]|];
    try done. apply Ha.
Defined.

(** ** Numbers that are not themselves *)

(** X22. [Update] tells a change by [===], and on numbers that is the
    comparison of doubles. On a key that is not locked and has no
    middleware: a key holding [nan] is written and announced again by every
    [Update(k, nan)], since [nan] is not [===] to itself; and a key holding a
    zero keeps it, sign and all, when it is updated to the zero of the other
    sign, and nothing is announced. *)
Theorem Update_compares_doubles fuel s Key :
  Key ∉ LockedKeys (this s) →
  MiddlewareMap (this s) !! Key = None →
  (heap_index (heap s) (State (this s)) Key = Some (VNum S754_nan) →
   wf fuel (assigned (heap s) (State (this s)) Key (VNum S754_nan)) (State (this s)) →
   ∃ s',
     Update fuel Key (VNum S754_nan) s = Some (VNum S754_nan, s') ∧
     heap_index (heap s') (State (this s)) Key = Some (VNum S754_nan) ∧
     fires (trace s') =
       fires (trace s) ++ [EvFire Key (VNum S754_nan) (VNum S754_nan)]) ∧
  (∀ sgn sgn',
     heap_index (heap s) (State (this s)) Key = Some (VNum (S754_zero sgn)) →
     Update fuel Key (VNum (S754_zero sgn')) s = Some (VNum (S754_zero sgn), s)).
Proof.
  intros Hk HM.
  assert (∀ New Old, ExecuteMiddleware Key New Old s = Some (New, s)) as HEx.
  { intros New Old. unfold ExecuteMiddleware, mbind, M_bind, get_this. by rewrite HM. }
  split.
  - intros HOld Hwf.
    destruct (Update_changed fuel s Key (VNum S754_nan) (VNum S754_nan) (VNum S754_nan) s
                Hk HOld (HEx _ _) eq_refl Hwf) as (s' & HU & _ & Hi & _ & Hf).
    by exists s'.
  - intros sgn sgn' HOld.
    by destruct (Update_unchanged fuel s Key (VNum (S754_zero sgn')) (VNum (S754_zero sgn))
                   (VNum (S754_zero sgn')) s Hk HOld (HEx _ _) eq_refl) as [HU _].
Qed.

(** The player's [Health] is [nan]: updating it to [nan] fires. *)
Lemma Update_compares_doubles_witness :
  ∃ s',
    Update 2 Health (VNum S754_nan) player_nan = Some (VNum S754_nan, s') ∧
    fires (trace s') =
      fires (trace player_nan) ++ [EvFire Health (VNum S754_nan) (VNum S754_nan)].
Proof.
  destruct (Update_compares_doubles 2 player_nan Health) as [H _]; [run|run|].
  destruct H as (s' & H1 & _ & H2); [run|apply wfb_wf; run|].
  exists s'. split; [exact H1|exact H2].
Defined.

(** * The first revision *)

Lemma legacy_add_trace_nil s : Legacy.add_trace s [] = s.
Proof. destruct s. unfold Legacy.add_trace. simpl. by rewrite app_nil_r. Qed.

Ltac unfold_LM :=
  unfold mbind, Legacy.bind_M, Legacy.ret, Legacy.get_this, Legacy.set_this,
    Legacy.emit, Legacy.index, Legacy.assign, Legacy.pairs, Legacy.deep_copy.

(** [ExecuteMiddleware] always returns, and can only add a warning. *)
Lemma legacy_ExecuteMiddleware_eq Key New Old s :
  ∃ warns,
    Legacy.ExecuteMiddleware Key New Old s
      = Some (Legacy.resolve (Legacy.this s) Key New Old, Legacy.add_trace s warns) ∧
    Forall (λ e, Legacy.is_warn e = true) warns.
Proof.
  unfold Legacy.ExecuteMiddleware, Legacy.resolve. unfold_LM.
  destruct (Legacy.MiddlewareMap (Legacy.this s) !! Key) as [Method|] eqn:HM; simpl.
  - destruct (Method New Old) as [Result slow]. destruct slow.
    + eexists [_]. split; [done|]. by repeat constructor.
    + exists []. by rewrite legacy_add_trace_nil.
  - exists []. by rewrite legacy_add_trace_nil.
Qed.

Lemma legacy_run_listener_Global n i K O N s :
  wf n (Legacy.heap s) (Legacy.State (Legacy.this s)) →
  ∃ ext New Old,
    Legacy.run_listener n i Global K O N s
      = Some (tt, Legacy.mkSys (Legacy.this s) (Legacy.heap s ++ ext)
                    (Legacy.trace s ++ [Legacy.EvCall i (VTable New) (VTable Old)])).
Proof.
  intros Hwf. destruct s as [c h tr]. simpl in *.
  destruct (DeepCopy_spec _ _ _ Hwf) as (e1 & Hdc1 & Hwf1 & _).
  destruct (wf_fuel _ _ _ Hwf) as [m ->].
  destruct Hwf1 as (t0 & Ht0 & _).
  assert (∃ e1r, e1 = t0 :: e1r) as [e1r ->].
  { rewrite lookup_app_r, Nat.sub_diag in Ht0 by lia.
    destruct e1 as [|t' e1r]; [done|]. simpl in Ht0. injection Ht0 as ->. eauto. }
  assert (wf (S m) (h ++ tset t0 K O :: e1r) (Legacy.State c)) as Hwf2
    by by apply wf_reify_app.
  destruct (DeepCopy_spec _ _ _ Hwf2) as (e3 & Hdc3 & _).
  exists (tset t0 K O :: e1r ++ e3), (length (h ++ tset t0 K O :: e1r)), (length h).
  unfold Legacy.run_listener. unfold_LM. simpl. rewrite Hdc1. simpl.
  rewrite heap_assign_middle. simpl. rewrite Hdc3. simpl.
  by rewrite <- (assoc_L (++)).
Qed.

Lemma legacy_run_listeners_returns n K O N cs i s :
  wf n (Legacy.heap s) (Legacy.State (Legacy.this s)) →
  ∃ ext calls,
    Legacy.run_listeners n i cs K O N s
      = Some (tt, Legacy.mkSys (Legacy.this s) (Legacy.heap s ++ ext)
                    (Legacy.trace s ++ calls)) ∧
    Forall (λ e, Legacy.is_call e = true) calls.
Proof.
  revert i s. induction cs as [|C rest IH]; intros i s Hwf.
  { exists [], []. simpl. unfold Legacy.ret. rewrite !app_nil_r. by destruct s. }
  assert (∃ ext c1,
    (if Connected C then Legacy.run_listener n i (Sub C) K O N else Legacy.ret tt) s
      = Some (tt, Legacy.mkSys (Legacy.this s) (Legacy.heap s ++ ext)
                    (Legacy.trace s ++ c1)) ∧
    Forall (λ e, Legacy.is_call e = true) c1) as (e1 & c1 & Hrun & Hc1).
  { destruct (Connected C).
    - destruct (Sub C) as [k|].
      + exists []. simpl. rewrite app_nil_r. case_decide.
        * eexists [_]. split; [by unfold Legacy.emit|]. by repeat constructor.
        * exists []. split; [|done]. unfold Legacy.ret. rewrite app_nil_r. by destruct s.
      + destruct (legacy_run_listener_Global n i K O N s Hwf) as (ext & New & Old & ?).
        eexists ext, [_]. split; [done|]. by repeat constructor.
    - exists [], []. unfold Legacy.ret. rewrite !app_nil_r. by destruct s. }
  destruct (wf_reify_app n _ e1 _ Hwf) as [Hwf1 _].
  destruct (IH (S i) (Legacy.mkSys (Legacy.this s) (Legacy.heap s ++ e1)
                        (Legacy.trace s ++ c1))) as (e2 & c2 & Hrest & Hc2); [done|].
  simpl in Hrest.
  exists (e1 ++ e2), (c1 ++ c2). rewrite !(assoc_L (++)). split.
  - simpl. unfold mbind, Legacy.bind_M. rewrite Hrun. exact Hrest.
  - by apply Forall_app.
Qed.

(** The tail shared by [Update] and [Increment]: assign, fire, return the
    old value. *)
Lemma legacy_commit fuel s Key Old Result :
  is_Some (heap_index (Legacy.heap s) (Legacy.State (Legacy.this s)) Key) →
  wf fuel (assigned (Legacy.heap s) (Legacy.State (Legacy.this s)) Key Result)
     (Legacy.State (Legacy.this s)) →
  ∃ ext calls,
    (Legacy.assign (Legacy.State (Legacy.this s)) Key Result;;
     Legacy.Fire fuel Key Old Result;; Legacy.ret Old) s
      = Some (Old, Legacy.mkSys (Legacy.this s)
                     (assigned (Legacy.heap s) (Legacy.State (Legacy.this s)) Key Result
                        ++ ext)
                     (Legacy.trace s ++ Legacy.EvFire Key Old Result :: calls)) ∧
    Forall (λ e, Legacy.is_call e = true) calls.
Proof.
  intros [v Hv] Hwf.
  destruct (heap_index_is_Some _ _ _ _ Result Hv) as [h1 Hassign].
  unfold assigned in *. rewrite Hassign in *.
  destruct (legacy_run_listeners_returns fuel Key Old Result
              (Legacy.Connections (Legacy.this s)) 0
              (Legacy.mkSys (Legacy.this s) h1
                 (Legacy.trace s ++ [Legacy.EvFire Key Old Result])) Hwf)
    as (ext & calls & Hrun & Hcalls).
  exists ext, calls. split; [|done].
  unfold Legacy.Fire. unfold_LM. rewrite Hassign. simpl in *. rewrite Hrun.
  by rewrite <- (assoc_L (++)).
Qed.

Lemma legacy_Update_closed fuel s Key Value :
  Legacy.CrateOpen (Legacy.this s) = false →
  is_Some (Legacy.heap s !! Legacy.State (Legacy.this s)) →
  Legacy.Update fuel Key Value s = Some (Value, s).
Proof.
  intros Hc [t Ht]. unfold Legacy.Update. unfold_LM. unfold heap_index.
  by rewrite Ht, Hc.
Qed.

Lemma legacy_update_each_closed fuel entries s :
  Legacy.CrateOpen (Legacy.this s) = false →
  is_Some (Legacy.heap s !! Legacy.State (Legacy.this s)) →
  Legacy.update_each fuel entries s = Some (tt, s).
Proof.
  intros Hc Ht. induction entries as [|[K V] rest IH]; [done|].
  simpl. unfold mbind, Legacy.bind_M. by rewrite legacy_Update_closed.
Qed.

(** X19. On a closed crate of the first revision, [Update] of a key, [Update]
    of a table and [Reset] change nothing, warn of nothing and notify no
    one; [Update(k, v)] answers [v], the value it did not store. *)
Theorem legacy_closed_crate_ignores_Update fuel s :
  Legacy.CrateOpen (Legacy.this s) = false →
  is_Some (Legacy.heap s !! Legacy.State (Legacy.this s)) →
  (∀ Key Value, Legacy.Update fuel Key Value s = Some (Value, s)) ∧
  (∀ Dispatch, is_Some (Legacy.heap s !! Dispatch) →
     Legacy.UpdateAll fuel Dispatch s = Some (tt, s)) ∧
  (∀ Key, is_Some (Legacy.heap s !! Legacy.InitialState (Legacy.this s)) →
     Legacy.Reset fuel Key s = Some (tt, s)).
Proof.
  intros Hc Ht. split_and!.
  - intros Key Value. by apply legacy_Update_closed.
  - intros Dispatch [d Hd]. unfold Legacy.UpdateAll. unfold_LM. unfold heap_pairs.
    rewrite Hd. by apply legacy_update_each_closed.
  - intros Key [b Hb]. unfold Legacy.Reset. unfold_LM. unfold heap_index at 1.
    rewrite Hb. fold (Legacy.bind_M). 
    change (match Legacy.Update fuel Key (tget b Key) s with
            | Some (_, s') => Some (tt, s')
            | None => None
            end = Some (tt, s)).
    by rewrite legacy_Update_closed.
Qed.

(** [Update("Health", 5)], [Update({Health: 50, Name: "John"})] and
    [Reset("Health")] on the closed player. *)
Lemma legacy_closed_crate_ignores_Update_witness :
  Legacy.Update 2 Health (VNum 5) Legacy.closed_player
    = Some (VNum 5, Legacy.closed_player) ∧
  heap_index (Legacy.heap Legacy.closed_player) 0 Health = Some (VNum 100) ∧
  Legacy.Reset 2 Health Legacy.closed_player = Some (tt, Legacy.closed_player).
Proof.
  destruct (legacy_closed_crate_ignores_Update 2 Legacy.closed_player)
    as (HU & _ & HR); [reflexivity|by eexists|].
  split_and!; [apply HU|reflexivity|apply HR; by eexists].
Defined.

(** X20. [Increment] of the first revision never reads [CrateOpen]: on a
    numeric key it stores what the middleware makes of the sum, notifies once
    and returns the old value, on a closed crate as on an open one. *)
Theorem legacy_Increment_ignores_CrateOpen fuel s Key Amount n :
  heap_index (Legacy.heap s) (Legacy.State (Legacy.this s)) Key = Some (VNum n) →
  wf fuel
     (assigned (Legacy.heap s) (Legacy.State (Legacy.this s)) Key
        (Legacy.resolve (Legacy.this s) Key (VNum (num_add n Amount)) (VNum n)))
     (Legacy.State (Legacy.this s)) →
  ∃ s',
    Legacy.Increment fuel Key Amount s = Some (VNum n, s') ∧
    Legacy.this s' = Legacy.this s ∧
    heap_index (Legacy.heap s') (Legacy.State (Legacy.this s)) Key
      = Some (Legacy.resolve (Legacy.this s) Key (VNum (num_add n Amount)) (VNum n)) ∧
    ∃ warns calls,
      Legacy.trace s' =
        Legacy.trace s ++ warns ++
        Legacy.EvFire Key (VNum n)
          (Legacy.resolve (Legacy.this s) Key (VNum (num_add n Amount)) (VNum n)) :: calls ∧
      Forall (λ e, Legacy.is_warn e = true) warns ∧
      Forall (λ e, Legacy.is_call e = true) calls.
Proof.
  intros HOld Hwf.
  destruct (legacy_ExecuteMiddleware_eq Key (VNum (num_add n Amount)) (VNum n) s)
    as (warns & HEx & Hwarns).
  destruct (legacy_commit fuel (Legacy.add_trace s warns) Key (VNum n)
              (Legacy.resolve (Legacy.this s) Key (VNum (num_add n Amount)) (VNum n)))
    as (ext & calls & Hcommit & Hcalls); [by eexists|done|].
  eexists. split_and!.
  - unfold Legacy.Increment, mbind, Legacy.bind_M at 1 2, Legacy.get_this, Legacy.index.
    rewrite HOld. unfold mbind, Legacy.bind_M at 1. rewrite HEx. exact Hcommit.
  - done.
  - simpl. destruct (heap_index_is_Some _ _ _ _
      (Legacy.resolve (Legacy.this s) Key (VNum (num_add n Amount)) (VNum n)) HOld)
      as [h1 Hassign].
    unfold assigned. rewrite Hassign.
    apply heap_assign_spec in Hassign as (Hi & _ & _ & Hlen).
    rewrite heap_index_app; [done|]. rewrite Hlen. by eapply heap_index_lt.
  - exists warns, calls. simpl. by rewrite <- (assoc_L (++)).
Qed.

(** X21. An open crate of the first revision assigns and notifies on every
    [Update] of a key, with no comparison of the result with the stored
    value: the same value written again is announced again. *)
Theorem legacy_Update_open_always_fires fuel s Key Value Old :
  Legacy.CrateOpen (Legacy.this s) = true →
  heap_index (Legacy.heap s) (Legacy.State (Legacy.this s)) Key = Some Old →
  wf fuel
     (assigned (Legacy.heap s) (Legacy.State (Legacy.this s)) Key
        (Legacy.resolve (Legacy.this s) Key Value Old))
     (Legacy.State (Legacy.this s)) →
  ∃ s',
    Legacy.Update fuel Key Value s = Some (Old, s') ∧
    Legacy.this s' = Legacy.this s ∧
    heap_index (Legacy.heap s') (Legacy.State (Legacy.this s)) Key
      = Some (Legacy.resolve (Legacy.this s) Key Value Old) ∧
    ∃ warns calls,
      Legacy.trace s' =
        Legacy.trace s ++ warns ++
        Legacy.EvFire Key Old (Legacy.resolve (Legacy.this s) Key Value Old) :: calls ∧
      Forall (λ e, Legacy.is_warn e = true) warns ∧
      Forall (λ e, Legacy.is_call e = true) calls.
Proof.
  intros Hopen HOld Hwf.
  destruct (legacy_ExecuteMiddleware_eq Key Value Old s) as (warns & HEx & Hwarns).
  destruct (legacy_commit fuel (Legacy.add_trace s warns) Key Old
              (Legacy.resolve (Legacy.this s) Key Value Old))
    as (ext & calls & Hcommit & Hcalls); [by eexists|done|].
  eexists. split_and!.
  - unfold Legacy.Update, mbind, Legacy.bind_M at 1 2, Legacy.get_this, Legacy.index.
    rewrite HOld, Hopen. simpl. unfold mbind, Legacy.bind_M at 1. rewrite HEx.
    exact Hcommit.
  - done.
  - simpl. destruct (heap_index_is_Some _ _ _ _
      (Legacy.resolve (Legacy.this s) Key Value Old) HOld) as [h1 Hassign].
    unfold assigned. rewrite Hassign.
    apply heap_assign_spec in Hassign as (Hi & _ & _ & Hlen).
    rewrite heap_index_app; [done|]. rewrite Hlen. by eapply heap_index_lt.
  - exists warns, calls. simpl. by rewrite <- (assoc_L (++)).
Qed.

(** [Increment("Health", 7)] on the closed player: [Health] is 107. *)
Lemma legacy_Increment_ignores_CrateOpen_witness :
  Legacy.CrateOpen (Legacy.this Legacy.closed_player) = false ∧
  ∃ s',
    Legacy.Increment 2 Health 7 Legacy.closed_player = Some (VNum 100, s') ∧
    heap_index (Legacy.heap s') 0 Health = Some (VNum 107).
Proof.
  split; [reflexivity|].
  destruct (legacy_Increment_ignores_CrateOpen 2 Legacy.closed_player Health 7 100)
    as (s' & HI & _ & Hv & _); [reflexivity|apply wfb_wf; run|].
  exists s'. split; [exact HI|exact Hv].
Defined.

(** [Update("Health", 100)] on the opened player, whose [Health] is 100. *)
Lemma legacy_Update_open_always_fires_witness :
  ∃ s' warns calls,
    Legacy.Update 2 Health (VNum 100) Legacy.open_player = Some (VNum 100, s') ∧
    Legacy.trace s' = warns ++ Legacy.EvFire Health (VNum 100) (VNum 100) :: calls.
Proof.
  destruct (legacy_Update_open_always_fires 2 Legacy.open_player Health (VNum 100)
              (VNum 100))
    as (s' & HU & _ & _ & warns & calls & Htr & _);
    [reflexivity|reflexivity|apply wfb_wf; run|].
  exists s', warns, calls. split; [exact HU|exact Htr].
Defined.

